(** * Canvas descriptions (src/accessibility/describe.js)

    A shallow embedding of p5's [describe] and [describeElement] and of the
    module-level store [dummy] they keep in step with the document tree.

    Conventions of the model.
    - JavaScript strings are [string]; every character the code inspects
      is ASCII.
    - [dummy] is a JavaScript object used as a map.  Its two nested maps
      [fallbackElements] and [labelElements] are fields of a record, its
      other properties (all written under a key [cnvId + suffix]) are a
      [gmap].  No key [cnvId + suffix] can spell one of the two field names
      (lemma [key_not_field]).  The three objects also inherit the
      properties of [Object.prototype], which the maps of the model do not
      hold.  No key [cnvId + suffix] of [dummy] itself spells an inherited
      name (lemma [prop_key_not_inherited]); the key of an element can, and
      [key_ok] says that it does not.
    - The document is the forest of element nodes below [body], in a
      document in no-quirks mode.  [querySelector('#' + id)] and
      [getElementById(id)] are the first element with that id in document
      order.  For [querySelector] this holds when the id is a CSS
      identifier ([css_ident]): with a blank, a dot or a comma in the id
      the selector is one of something else, with a leading digit it is
      none and [querySelector] throws.
    - Assigning a text to [innerHTML] stores the text as the node's content
      and drops its children.  This holds when the text is free of markup
      ([plain_text]): the content then reads back as it was written, and
      no element comes into being inside it.  The fixed templates of the
      source are built as nodes; this holds where they are parsed as
      content of [body], of a [canvas], a [div] or a [table], as they are
      unless an id derived for one surface is an id of another
      ([ids_collide]).
    - A call runs in a state and error monad: it ends by returning or by
      throwing, and in both cases leaves a state behind.

    The theorems that follow a call into the document, for all its inputs,
    state the three readings as a hypothesis: [well_formed] for calls on
    the canvases of a page, [one_canvas] when all are on one canvas.  The
    lemmas they rest on are stated over the model alone and say so. *)


From Stdlib Require Import Ascii.
From stdpp Require Import base option list strings gmap.

(** ** Strings *)

(** [s.endsWith(t)]. *)
Fixpoint endsWith (s t : string) : bool :=
  match s with
  | EmptyString => bool_decide (t = EmptyString)
  | String _ s' => bool_decide (s = t) || endsWith s' t
  end.

(** [s.replace(/.$/, r)]: the last character, unless it is a line
    terminator, is replaced by [r]. *)
Definition is_line_terminator (a : ascii) : bool :=
  bool_decide (a = "010"%char) || bool_decide (a = "013"%char).

Fixpoint replace_last (s r : string) : string :=
  match s with
  | EmptyString => EmptyString
  | String a EmptyString =>
      if is_line_terminator a then s else r
  | String a s' => String a (replace_last s' r)
  end.

(** The endings the normalisers look for. *)
Definition ends_sentence (s : string) : bool :=
  endsWith s "." || endsWith s "!" || endsWith s "?".

Definition ends_punctuated (s : string) : bool :=
  endsWith s "." || endsWith s ";" || endsWith s "," || endsWith s ":".

(** The double quote of the markup templates. *)
Definition dquote : string := String "034"%char EmptyString.

(** ** Errors and the monad *)

Inductive error : Type :=
  | Error (message : string)   (* [throw new Error(message)] *)
  | TypeError.                 (* property access on [null] or [undefined] *)

Inductive outcome (A : Type) : Type :=
  | Return (a : A)
  | Throw (e : error).
Arguments Return {A} a.
Arguments Throw {A} e.

(** ** The text normaliser *)

Definition _descriptionText (text : string) : outcome string :=
  if bool_decide (text = "label") || bool_decide (text = "fallback") then
    Throw (Error "description should not be LABEL or FALLBACK")
  else if negb (endsWith text ".") && negb (endsWith text "?")
          && negb (endsWith text "!") then
    Return (text +:+ ".")
  else Return text.

Definition _nameForID (name : string) : string :=
  if endsWith name "." || endsWith name ";" || endsWith name ","
     || endsWith name ":" then
    replace_last name ""
  else name.

Definition _elementName (name : string) : outcome string :=
  if bool_decide (name = "label") || bool_decide (name = "fallback") then
    Throw (Error "element name should not be LABEL or FALLBACK")
  else if endsWith name "." || endsWith name ";" || endsWith name "," then
    Return (replace_last name ":")
  else if negb (endsWith name ":") then
    Return (name +:+ ":")
  else Return name.

(** Both reserved-token failures are what the specification calls a
    ReservedNameError. *)
Definition ReservedNameError (e : error) : Prop :=
  e = Error "description should not be LABEL or FALLBACK"
  ∨ e = Error "element name should not be LABEL or FALLBACK".

(** ** JavaScript values passed by the caller *)

Inductive jsval : Type :=
  | JUndefined
  | JNull
  | JBoolean (b : bool)
  | JNumber (n : Z)
  | JString (s : string)
  | JObject.

Global Instance jsval_eq_dec : EqDecision jsval.
Proof. solve_decision. Defined.

(** [typeof v === 'string']. *)
Definition is_string (v : jsval) : bool :=
  match v with JString _ => true | _ => false end.

(** Modelled from the spec: the display-mode constants [LABEL] and
    [FALLBACK] are declared in core/constants.js, which is not part of the
    sources at hand; they are the reserved tokens that select the display
    mode. *)
Definition LABEL : jsval := JString "label".
Definition FALLBACK : jsval := JString "fallback".

(** ** The document tree *)

Unset Elimination Schemes.
Inductive node : Type :=
  | Node (tag : string) (id : option string) (attrs : list (string * string))
         (html : string) (kids : list node).
Set Elimination Schemes.

Definition node_id (n : node) : option string :=
  match n with Node _ i _ _ _ => i end.
Definition node_kids (n : node) : list node :=
  match n with Node _ _ _ _ ks => ks end.
Definition node_html (n : node) : string :=
  match n with Node _ _ _ h _ => h end.

(** Is there an element with this id (in the node, in the forest)? *)
Fixpoint has_id_node (i : string) (n : node) : bool :=
  match n with
  | Node _ j _ _ ks => bool_decide (j = Some i) || existsb (has_id_node i) ks
  end.
Definition has_id (i : string) (ns : list node) : bool :=
  existsb (has_id_node i) ns.

(** How many elements carry this id? *)
Fixpoint count_id_node (i : string) (n : node) : nat :=
  match n with
  | Node _ j _ _ ks =>
      (if bool_decide (j = Some i) then 1 else 0)
      + list_sum (map (count_id_node i) ks)
  end.
Definition count_id (i : string) (ns : list node) : nat :=
  list_sum (map (count_id_node i) ns).

(** The first element with this id in document order, as
    [querySelector('#' + i)] returns it. *)
Fixpoint find_node (i : string) (n : node) : option node :=
  match n with
  | Node _ j _ _ ks =>
      if bool_decide (j = Some i) then Some n
      else (fix go (l : list node) : option node :=
              match l with
              | [] => None
              | k :: l' =>
                  match find_node i k with
                  | Some r => Some r
                  | None => go l'
                  end
              end) ks
  end.
Fixpoint find_first (i : string) (ns : list node) : option node :=
  match ns with
  | [] => None
  | n :: ns' =>
      match find_node i n with
      | Some r => Some r
      | None => find_first i ns'
      end
  end.

(** An edit at the first element with id [i]: that element is replaced,
    among its siblings, by the nodes [f] makes of it.  [None] when no
    element has the id. *)
Fixpoint edit_node (i : string) (f : node → list node) (n : node)
  : option (list node) :=
  match n with
  | Node t j a h ks =>
      if bool_decide (j = Some i) then Some (f n)
      else
        match (fix go (l : list node) : option (list node) :=
                 match l with
                 | [] => None
                 | k :: l' =>
                     match edit_node i f k with
                     | Some r => Some (r ++ l')
                     | None => cons k <$> go l'
                     end
                 end) ks with
        | Some ks' => Some [Node t j a h ks']
        | None => None
        end
  end.
Fixpoint edit_first (i : string) (f : node → list node) (ns : list node)
  : option (list node) :=
  match ns with
  | [] => None
  | n :: ns' =>
      match edit_node i f n with
      | Some r => Some (r ++ ns')
      | None => cons n <$> edit_first i f ns'
      end
  end.

(** The edits the source performs on an element it has found. *)

(** [el.innerHTML = text]: the content becomes [text], the children go. *)
Definition set_innerHTML (text : string) (n : node) : list node :=
  match n with Node t j a _ _ => [Node t j a text []] end.
(** [el.innerHTML = template]: the children become the template's nodes. *)
Definition set_children (new : list node) (n : node) : list node :=
  match n with Node t j a _ _ => [Node t j a "" new] end.
(** [el.insertAdjacentHTML('beforebegin', template)]. *)
Definition insert_beforebegin (new : node) (n : node) : list node :=
  [new; n].
(** [el.insertAdjacentHTML('afterend', template)]. *)
Definition insert_afterend (new : node) (n : node) : list node :=
  [n; new].
(** [el.appendChild(child)]. *)
Definition appendChild (child : node) (n : node) : list node :=
  match n with Node t j a h ks => [Node t j a h (ks ++ [child])] end.

(** ** The store [dummy] *)

Definition descContainer : string := "_Description".
Definition fallbackDescId : string := "_fallbackDesc".
Definition fallbackTableId : string := "_fallbackTable".
Definition fallbackTableElId : string := "_fte_".
Definition labelContainer : string := "_Label".
Definition labelDescId : string := "_labelDesc".
Definition labelTableId : string := "_labelTable".
Definition labelTableElId : string := "_lte_".

(** The suffixes of the keys [cnvId + suffix] the source reads or writes
    in [dummy] itself. *)
Definition prop_suffixes : list string :=
  ["fallbackDesc"; "labelDesc"; "DOM"; "updateFallbackDesc"; descContainer;
   fallbackDescId; fallbackTableId; labelContainer; labelDescId;
   labelTableId].

(** What the source stores under a key [cnvId + suffix]: [true], a text, or
    the [body] element. *)
Inductive value : Type :=
  | VTrue
  | VString (s : string)
  | VBody.

Global Instance value_eq_dec : EqDecision value.
Proof. solve_decision. Defined.

Record store : Type := Store {
  props : gmap string value;
  fallbackElements : gmap string string;
  labelElements : gmap string string
}.

Record state : Type := State {
  dummy : store;
  document : list node
}.

(** [let dummy = { fallbackElements: {}, labelElements: {} }]. *)
Definition empty_dummy : store := Store ∅ ∅ ∅.

(** JavaScript truthiness of a property read, [undefined] when absent. *)
Definition truthy (o : option value) : bool :=
  match o with
  | None => false
  | Some VTrue => true
  | Some (VString s) => negb (bool_decide (s = ""))
  | Some VBody => true
  end.
Definition truthy_row (o : option string) : bool :=
  match o with
  | None => false
  | Some s => negb (bool_decide (s = ""))
  end.

(** ** The monad of a call *)

Definition M (A : Type) : Type := state → outcome A * state.

Global Instance M_ret : MRet M := λ A a σ, (Return a, σ).
Global Instance M_bind : MBind M := λ A B f m σ,
  match m σ with
  | (Return a, σ') => f a σ'
  | (Throw e, σ') => (Throw e, σ')
  end.

Definition throw {A : Type} (e : error) : M A := λ σ, (Throw e, σ).
Definition lift {A : Type} (o : outcome A) : M A := λ σ, (o, σ).

Definition getProp (k : string) : M (option value) :=
  λ σ, (Return (props (dummy σ) !! k), σ).
Definition setProp (k : string) (v : value) : M unit :=
  λ σ, (Return (),
        State (Store (<[k := v]> (props (dummy σ)))
                     (fallbackElements (dummy σ)) (labelElements (dummy σ)))
              (document σ)).
Definition getFallbackElement (k : string) : M (option string) :=
  λ σ, (Return (fallbackElements (dummy σ) !! k), σ).
Definition setFallbackElement (k inner : string) : M unit :=
  λ σ, (Return (),
        State (Store (props (dummy σ))
                     (<[k := inner]> (fallbackElements (dummy σ)))
                     (labelElements (dummy σ)))
              (document σ)).
Definition getLabelElement (k : string) : M (option string) :=
  λ σ, (Return (labelElements (dummy σ) !! k), σ).
Definition setLabelElement (k inner : string) : M unit :=
  λ σ, (Return (),
        State (Store (props (dummy σ)) (fallbackElements (dummy σ))
                     (<[k := inner]> (labelElements (dummy σ))))
              (document σ)).

(** [dummy[cnvId + 'DOM']] used as the receiver of [querySelector]: a
    TypeError unless it holds the [body] element. *)
Definition theDOM (cnvId : string) : M unit :=
  d ← getProp (cnvId +:+ "DOM");
  match d with
  | Some VBody => mret ()
  | _ => throw TypeError
  end.

(** Reading and editing the document itself. *)
Definition document_has (i : string) : M bool :=
  λ σ, (Return (has_id i (document σ)), σ).
Definition document_edit (i : string) (f : node → list node) : M unit :=
  λ σ, match edit_first i f (document σ) with
       | Some d => (Return (), State (dummy σ) d)
       | None => (Throw TypeError, σ)
       end.

(** [dummy[cnvId + 'DOM'].querySelector('#' + i)] as a condition. *)
Definition querySelector_found (cnvId i : string) : M bool :=
  theDOM cnvId;; document_has i.

(** [document.getElementById(i)] as a condition. *)
Definition getElementById_found (i : string) : M bool :=
  document_has i.

(** [dummy[cnvId + 'DOM'].querySelector('#' + i)] followed by an edit of
    the element found: a TypeError when the selector finds nothing. *)
Definition querySelector_edit (cnvId i : string) (f : node → list node)
  : M unit :=
  theDOM cnvId;; document_edit i f.

(** ** The markup templates of the source, as nodes *)

Definition p_node (i : string) : node := Node "p" (Some i) [] "" [].

(** [<div id=... role="region" aria-label="Canvas Description">]. *)
Definition fallback_container (cnvId : string) (content : node) : node :=
  Node "div" (Some (cnvId +:+ descContainer))
       [("role", "region"); ("aria-label", "Canvas Description")] ""
       [content].

(** [<div id=... class="p5Label">]. *)
Definition label_container (cnvId : string) (content : node) : node :=
  Node "div" (Some (cnvId +:+ labelContainer)) [("class", "p5Label")] ""
       [content].

(** [<table id=...><caption>Canvas elements and their
    descriptions</caption></table>]. *)
Definition fallback_table (cnvId : string) : node :=
  Node "table" (Some (cnvId +:+ fallbackTableId)) [] ""
       [Node "caption" None [] "Canvas elements and their descriptions" []].

(** [<table id=...></table>]. *)
Definition label_table (cnvId : string) : node :=
  Node "table" (Some (cnvId +:+ labelTableId)) [] "" [].

(** [document.createElement('tr')] with its id set. *)
Definition tableRow (i : string) : node := Node "tr" (Some i) [] "" [].

(** The row content [<th scope="row">elementName</th><td>text</td>]. *)
Definition row_markup (elementName text : string) : string :=
  "<th scope=" +:+ dquote +:+ "row" +:+ dquote +:+ ">" +:+ elementName
  +:+ "</th><td>" +:+ text +:+ "</td>".

(** ** The operations *)

(** Modelled from the spec: [p5._validateParameters] belongs to the
    friendly-error system in core/, which is not part of the sources at
    hand; the specification names it an external collaborator run before
    the text is accepted.  It reports through the console and touches
    neither [dummy] nor the document. *)
Definition _validateParameters : M unit := mret ().

Definition _populateDummyDOM (cnvId : string) : M unit :=
  setProp (cnvId +:+ "DOM") VBody.

Definition _describeLabelHTML (cnvId text : string) : M unit :=
  c ← getProp (cnvId +:+ labelContainer);
  (if negb (truthy c) then
     querySelector_edit cnvId cnvId
       (insert_afterend
          (label_container cnvId (p_node (cnvId +:+ labelDescId))));;
     setProp (cnvId +:+ labelContainer) VTrue;;
     setProp (cnvId +:+ labelDescId) VTrue
   else
     d ← getProp (cnvId +:+ labelDescId);
     t ← getProp (cnvId +:+ labelTableId);
     if negb (truthy d) && truthy t then
       querySelector_edit cnvId (cnvId +:+ labelTableId)
         (insert_beforebegin (p_node (cnvId +:+ labelDescId)));;
       setProp (cnvId +:+ labelDescId) VTrue
     else mret () : M unit);;
  querySelector_edit cnvId (cnvId +:+ labelDescId) (set_innerHTML text);;
  setProp (cnvId +:+ "labelDesc") (VString text).

Definition _describeFallbackHTML (cnvId text : string) : M unit :=
  c ← getProp (cnvId +:+ descContainer);
  (if negb (truthy c) then
     querySelector_edit cnvId cnvId
       (set_children
          [fallback_container cnvId (p_node (cnvId +:+ fallbackDescId))]);;
     setProp (cnvId +:+ descContainer) VTrue;;
     setProp (cnvId +:+ fallbackDescId) VTrue
   else
     t ← getProp (cnvId +:+ fallbackTableId);
     if truthy t then
       querySelector_edit cnvId (cnvId +:+ fallbackTableId)
         (insert_beforebegin (p_node (cnvId +:+ fallbackDescId)));;
       setProp (cnvId +:+ fallbackDescId) VTrue
     else mret () : M unit);;
  found ← querySelector_found cnvId (cnvId +:+ fallbackDescId);
  if (found : bool) then
    querySelector_edit cnvId (cnvId +:+ fallbackDescId) (set_innerHTML text);;
    setProp (cnvId +:+ "fallbackDesc") (VString text);;
    (* [dummy[cnvId + 'updateFallbackDesc'] === true;] compares and
       drops the result *)
    _ ← getProp (cnvId +:+ "updateFallbackDesc");
    mret ()
  else mret ().

(** Lines 86 to 96 of [describe]: the accessible-only region. *)
Definition describe_fallback (cnvId text : string) : M unit :=
  fd ← getProp (cnvId +:+ "fallbackDesc");
  if bool_decide (fd ≠ Some (VString text)) then
    u ← getProp (cnvId +:+ "updateFallbackDesc");
    if truthy u then
      querySelector_edit cnvId (cnvId +:+ fallbackDescId)
        (set_innerHTML text);;
      setProp (cnvId +:+ "fallbackDesc") (VString text)
    else _describeFallbackHTML cnvId text
  else mret ().

(** Lines 100 to 110 of [describe]: the visible-label region. *)
Definition describe_label (cnvId text : string) (display : jsval) : M unit :=
  ld ← getProp (cnvId +:+ "labelDesc");
  if bool_decide (display = LABEL) && bool_decide (ld ≠ Some (VString text))
  then
    d ← getProp (cnvId +:+ labelDescId);
    if truthy d then
      querySelector_edit cnvId (cnvId +:+ labelDescId) (set_innerHTML text);;
      setProp (cnvId +:+ "labelDesc") (VString text)
    else _describeLabelHTML cnvId text
  else mret ().

(** [p5.prototype.describe], on the surface whose canvas has id [cnvId]. *)
Definition describe (cnvId : string) (text display : jsval) : M unit :=
  _validateParameters;;
  match text with
  | JString text =>
      text ← lift (_descriptionText text);
      fd ← getProp (cnvId +:+ "fallbackDesc");
      ld ← getProp (cnvId +:+ "labelDesc");
      (if negb (truthy fd) || negb (truthy ld) then _populateDummyDOM cnvId
       else mret () : M unit);;
      describe_fallback cnvId text;;
      describe_label cnvId text display
  | _ => mret ()
  end.

(** [p5.prototype._clearDummy]. *)
Definition _clearDummy : M unit :=
  λ σ, (Return (), State empty_dummy (document σ)).

Definition _descElementLabelHTML (cnvId name inner : string) : M unit :=
  c ← getProp (cnvId +:+ labelContainer);
  (if negb (truthy c) then
     querySelector_edit cnvId cnvId
       (insert_afterend (label_container cnvId (label_table cnvId)));;
     setProp (cnvId +:+ labelContainer) VTrue;;
     setProp (cnvId +:+ labelTableId) VTrue
   else
     found ← querySelector_found cnvId (cnvId +:+ labelDescId);
     if (found : bool) then
       querySelector_edit cnvId (cnvId +:+ labelDescId)
         (insert_afterend (label_table cnvId));;
       setProp (cnvId +:+ labelTableId) VTrue
     else mret () : M unit);;
  e ← getLabelElement (cnvId +:+ name);
  t ← getProp (cnvId +:+ labelTableId);
  if negb (truthy_row e) && truthy t then
    querySelector_edit cnvId (cnvId +:+ labelTableId)
      (appendChild (tableRow (cnvId +:+ labelTableElId +:+ name)));;
    setLabelElement (cnvId +:+ name) inner;;
    querySelector_edit cnvId (cnvId +:+ labelTableElId +:+ name)
      (set_innerHTML inner)
  else mret ().

Definition _descElementFallbackHTML (cnvId name inner : string) : M unit :=
  c ← getProp (cnvId +:+ descContainer);
  (if negb (truthy c) then
     querySelector_edit cnvId cnvId
       (set_children [fallback_container cnvId (fallback_table cnvId)]);;
     setProp (cnvId +:+ descContainer) VTrue;;
     setProp (cnvId +:+ fallbackTableId) VTrue
   else
     found ← getElementById_found (cnvId +:+ fallbackDescId);
     if (found : bool) then
       querySelector_edit cnvId (cnvId +:+ fallbackDescId)
         (insert_afterend (fallback_table cnvId));;
       setProp (cnvId +:+ fallbackTableId) VTrue
     else mret () : M unit);;
  e ← getFallbackElement (cnvId +:+ name);
  t ← getProp (cnvId +:+ fallbackTableId);
  if negb (truthy_row e) && truthy t then
    querySelector_edit cnvId (cnvId +:+ fallbackTableId)
      (appendChild (tableRow (cnvId +:+ fallbackTableElId +:+ name)));;
    setFallbackElement (cnvId +:+ name) inner;;
    querySelector_edit cnvId (cnvId +:+ fallbackTableElId +:+ name)
      (set_innerHTML inner)
  else mret ().

(** Lines 250 to 259 of [describeElement]: the accessible-only region. *)
Definition describeElement_fallback (cnvId name inner : string) : M unit :=
  e ← getFallbackElement (cnvId +:+ name);
  if bool_decide (e ≠ Some inner) then
    if negb (truthy_row e) then _descElementFallbackHTML cnvId name inner
    else
      setFallbackElement (cnvId +:+ name) inner;;
      querySelector_edit cnvId (cnvId +:+ fallbackTableElId +:+ name)
        (set_innerHTML inner)
  else mret ().

(** Lines 263 to 272 of [describeElement]: the visible-label region. *)
Definition describeElement_label (cnvId name inner : string)
    (display : jsval) : M unit :=
  e ← getLabelElement (cnvId +:+ name);
  if bool_decide (display = LABEL) && bool_decide (e ≠ Some inner) then
    if negb (truthy_row e) then _descElementLabelHTML cnvId name inner
    else
      setLabelElement (cnvId +:+ name) inner;;
      querySelector_edit cnvId (cnvId +:+ labelTableElId +:+ name)
        (set_innerHTML inner)
  else mret ().

(** [p5.prototype.describeElement]. *)
Definition describeElement (cnvId : string) (name text display : jsval)
  : M unit :=
  _validateParameters;;
  match text, name with
  | JString text, JString name =>
      text ← lift (_descriptionText text);
      elementName ← lift (_elementName name);
      let name := _nameForID name in
      let inner := row_markup elementName text in
      fe ← getFallbackElement (cnvId +:+ name);
      le ← getLabelElement (cnvId +:+ name);
      (if negb (truthy_row fe) || negb (truthy_row le)
       then _populateDummyDOM cnvId else mret () : M unit);;
      describeElement_fallback cnvId name inner;;
      describeElement_label cnvId name inner display
  | _, _ => mret ()
  end.

(** ** Sequences of calls *)

Inductive call : Type :=
  | Describe (cnvId : string) (text display : jsval)
  | DescribeElement (cnvId : string) (name text display : jsval)
  | ClearDummy.

Definition run_call (c : call) : M unit :=
  match c with
  | Describe cnvId text display => describe cnvId text display
  | DescribeElement cnvId name text display =>
      describeElement cnvId name text display
  | ClearDummy => _clearDummy
  end.

(** The state a call leaves behind, whether it returned or threw. *)
Definition after (c : call) (σ : state) : state := (run_call c σ).2.

Definition run (cs : list call) (σ : state) : state :=
  foldl (λ σ c, after c σ) σ cs.

(** The state when the module is loaded, over a given document. *)
Definition initial (doc : list node) : state := State empty_dummy doc.

(** A page holding one empty canvas per id. *)
Definition canvas (cnvId : string) : node :=
  Node "canvas" (Some cnvId) [] "" [].
Definition page (ids : list string) : list node := map canvas ids.

(** ** Regions of a surface in the store and in the document *)

(** [s.startsWith(p)]. *)
Fixpoint startsWith (s p : string) : bool :=
  match p, s with
  | EmptyString, _ => true
  | String a p', String b s' => bool_decide (a = b) && startsWith s' p'
  | String _ _, EmptyString => false
  end.

(** The ids the source gives to the nodes of the visible-label region of a
    surface: container, paragraph, table and rows. *)
Definition label_id (cnvId i : string) : bool :=
  bool_decide (i = cnvId +:+ labelContainer)
  || bool_decide (i = cnvId +:+ labelDescId)
  || bool_decide (i = cnvId +:+ labelTableId)
  || startsWith i (cnvId +:+ labelTableElId).

(** The ids of the accessible-only region, with the canvas that holds it. *)
Definition fallback_id (cnvId i : string) : bool :=
  bool_decide (i = cnvId)
  || bool_decide (i = cnvId +:+ descContainer)
  || bool_decide (i = cnvId +:+ fallbackDescId)
  || bool_decide (i = cnvId +:+ fallbackTableId)
  || startsWith i (cnvId +:+ fallbackTableElId).

Definition id_in (P : string → bool) (j : option string) : bool :=
  match j with Some i => P i | None => false end.

(** Every element whose id satisfies [P], with its subtree, in document
    order. *)
Fixpoint collect_node (P : string → bool) (n : node) : list node :=
  match n with
  | Node _ j _ _ ks =>
      (if id_in P j then [n] else []) ++ flat_map (collect_node P) ks
  end.
Definition collect (P : string → bool) (ns : list node) : list node :=
  flat_map (collect_node P) ns.

(** The two regions of a surface are laid out apart: no element of the
    visible-label region lies inside one of the accessible-only region, or
    the other way round, and the canvas lies inside neither.  [inF] and
    [inL] tell whether an ancestor belongs to the accessible-only or to
    the visible-label region. *)
Fixpoint apart_node (cnvId : string) (inF inL : bool) (n : node) : bool :=
  match n with
  | Node _ j _ _ ks =>
      let f := id_in (fallback_id cnvId) j in
      let l := id_in (label_id cnvId) j in
      negb (l && inF) && negb (f && inL)
      && negb (bool_decide (j = Some cnvId) && inF)
      && forallb (apart_node cnvId (inF || f) (inL || l)) ks
  end.
Definition apart (cnvId : string) (ns : list node) : bool :=
  forallb (apart_node cnvId false false) ns.

(** All the module keeps for the visible-label region of a surface: the
    label text, the three structural flags, the label rows, and the
    region's nodes in the document. *)
Record label_region : Type := LabelRegion {
  labelText : option value;
  hasLabelContainer : option value;
  hasLabelParagraph : option value;
  hasLabelTable : option value;
  labelRows : gmap string string;
  labelNodes : list node
}.

Definition label_region_of (cnvId : string) (σ : state) : label_region :=
  LabelRegion (props (dummy σ) !! (cnvId +:+ "labelDesc"))
              (props (dummy σ) !! (cnvId +:+ labelContainer))
              (props (dummy σ) !! (cnvId +:+ labelDescId))
              (props (dummy σ) !! (cnvId +:+ labelTableId))
              (labelElements (dummy σ))
              (collect (label_id cnvId) (document σ)).

(** The part of it that is in the store is the same in both states. *)
Definition same_label_store (cnvId : string) (σ σ' : state) : Prop :=
  labelText (label_region_of cnvId σ') = labelText (label_region_of cnvId σ)
  ∧ hasLabelContainer (label_region_of cnvId σ')
    = hasLabelContainer (label_region_of cnvId σ)
  ∧ hasLabelParagraph (label_region_of cnvId σ')
    = hasLabelParagraph (label_region_of cnvId σ)
  ∧ hasLabelTable (label_region_of cnvId σ')
    = hasLabelTable (label_region_of cnvId σ)
  ∧ labelRows (label_region_of cnvId σ') = labelRows (label_region_of cnvId σ).

(** Neither id is the beginning of the other. *)
Definition unrelated (a b : string) : bool :=
  negb (startsWith a b) && negb (startsWith b a).

(** No id in the node starts with the canvas id. *)
Fixpoint foreign (c : string) (n : node) : bool :=
  match n with
  | Node _ j _ _ ks =>
      match j with None => true | Some i => negb (startsWith i c) end
      && forallb (foreign c) ks
  end.

(** A call on the surface, on a surface with an unrelated id, or a reset. *)
Definition on_surface_or_unrelated (cnvId : string) (c : call) : bool :=
  match c with
  | Describe c' _ _ => bool_decide (c' = cnvId) || unrelated cnvId c'
  | DescribeElement c' _ _ _ => bool_decide (c' = cnvId) || unrelated cnvId c'
  | ClearDummy => true
  end.

(** ** Scenarios *)

(** One surface: a description, an element, a new description. *)
Definition describe_after_element : list call :=
  [Describe "c" (JString "a") JUndefined;
   DescribeElement "c" (JString "x") (JString "y") JUndefined;
   Describe "c" (JString "b") JUndefined].

(** Two surfaces with the ids p5 hands out, the second and the eleventh
    canvas of a page. *)
Definition two_canvases : list node :=
  page ["defaultCanvas1"; "defaultCanvas10"].
Definition element_on_canvas10 : call :=
  DescribeElement "defaultCanvas10" (JString "x") (JString "t") JUndefined.
Definition element_on_canvas1 : call :=
  DescribeElement "defaultCanvas1" (JString "0x") (JString "u") LABEL.

(** ** Predicates of the proofs *)

(** [m] keeps [I]: the state it leaves behind, returning or throwing,
    satisfies [I] whenever the state it started in does. *)
Definition preserves {A : Type} (I : state → Prop) (m : M A) : Prop :=
  ∀ σ, I σ → I (m σ).2.

(** No key of the store ends in [updateFallbackDesc]. *)
Definition flag_unset (σ : state) : Prop :=
  ∀ c, props (dummy σ) !! (c +:+ "updateFallbackDesc") = None.

(** The ids of a surface are its canvas id followed by a suffix. *)
Definition label_suffix (r : string) : bool :=
  bool_decide (r = labelContainer) || bool_decide (r = labelDescId)
  || bool_decide (r = labelTableId) || startsWith r labelTableElId.

Definition fallback_suffix (r : string) : bool :=
  bool_decide (r = "") || bool_decide (r = descContainer)
  || bool_decide (r = fallbackDescId) || bool_decide (r = fallbackTableId)
  || startsWith r fallbackTableElId.

(** Every id in the node belongs to the accessible-only region and is not
    the canvas id. *)
Fixpoint fresh_fallback (c : string) (n : node) : bool :=
  match n with
  | Node _ j _ _ ks =>
      match j with
      | None => true
      | Some i => fallback_id c i && negb (bool_decide (i = c))
      end
      && forallb (fresh_fallback c) ks
  end.

(** The regions are apart and the visible-label region is [v]. *)
Definition keeps_label (c : string) (v : label_region) (σ : state) : Prop :=
  apart c (document σ) = true ∧ label_region_of c σ = v.

(** Every id in the node belongs to the visible-label region. *)
Fixpoint fresh_label (c : string) (n : node) : bool :=
  match n with
  | Node _ j _ _ ks =>
      match j with None => true | Some i => label_id c i end
      && forallb (fresh_label c) ks
  end.

(** The regions of the surface are apart. *)
Definition laid_apart (c : string) (σ : state) : Prop :=
  apart c (document σ) = true.


(** [describe] reads the two texts and fetches [body] when one is
    missing; then it runs its two parts. *)
Definition populate_if_needed (c : string) (σ : state) : state :=
  if negb (truthy (props (dummy σ) !! (c +:+ "fallbackDesc")))
     || negb (truthy (props (dummy σ) !! (c +:+ "labelDesc")))
  then (_populateDummyDOM c σ).2 else σ.

(** [describeElement] does the same with the two rows of the element. *)
Definition populate_rows_if_needed (c k : string) (σ : state) : state :=
  if negb (truthy_row (fallbackElements (dummy σ) !! (c +:+ k)))
     || negb (truthy_row (labelElements (dummy σ) !! (c +:+ k)))
  then (_populateDummyDOM c σ).2 else σ.

(** Fetching [body] would change nothing. *)
Definition populated (c : string) (σ : state) : Prop :=
  props (dummy σ) !! (c +:+ "DOM") = Some VBody
  ∨ (truthy (props (dummy σ) !! (c +:+ "fallbackDesc")) = true
     ∧ truthy (props (dummy σ) !! (c +:+ "labelDesc")) = true).

Definition rows_populated (c k : string) (σ : state) : Prop :=
  props (dummy σ) !! (c +:+ "DOM") = Some VBody
  ∨ (truthy_row (fallbackElements (dummy σ) !! (c +:+ k)) = true
     ∧ truthy_row (labelElements (dummy σ) !! (c +:+ k)) = true).

(** The accessible-only part of [describe] has nothing to do for the text
    [t]: the text is stored, or the container is flagged while the table is
    not and no paragraph is in the document. *)
Definition fallback_settled (c t : string) (σ : state) : Prop :=
  props (dummy σ) !! (c +:+ "fallbackDesc") = Some (VString t)
  ∨ (truthy (props (dummy σ) !! (c +:+ "updateFallbackDesc")) = false
     ∧ truthy (props (dummy σ) !! (c +:+ descContainer)) = true
     ∧ truthy (props (dummy σ) !! (c +:+ fallbackTableId)) = false
     ∧ props (dummy σ) !! (c +:+ "DOM") = Some VBody
     ∧ has_id (c +:+ fallbackDescId) (document σ) = false).

(** The visible-label part of [describe] has nothing to do. *)
Definition label_settled (c t : string) (display : jsval) (σ : state) : Prop :=
  display ≠ LABEL
  ∨ props (dummy σ) !! (c +:+ "labelDesc") = Some (VString t).

(** The same for the two parts of [describeElement] and the row [inner] of
    the element with key [k]. *)
Definition fallbackRow_settled (c k inner : string) (σ : state) : Prop :=
  fallbackElements (dummy σ) !! (c +:+ k) = Some inner
  ∨ (truthy_row (fallbackElements (dummy σ) !! (c +:+ k)) = false
     ∧ truthy (props (dummy σ) !! (c +:+ descContainer)) = true
     ∧ has_id (c +:+ fallbackDescId) (document σ) = false
     ∧ truthy (props (dummy σ) !! (c +:+ fallbackTableId)) = false).

Definition labelRow_settled (c k inner : string) (display : jsval)
    (σ : state) : Prop :=
  display ≠ LABEL
  ∨ labelElements (dummy σ) !! (c +:+ k) = Some inner
  ∨ (truthy_row (labelElements (dummy σ) !! (c +:+ k)) = false
     ∧ truthy (props (dummy σ) !! (c +:+ labelContainer)) = true
     ∧ props (dummy σ) !! (c +:+ "DOM") = Some VBody
     ∧ has_id (c +:+ labelDescId) (document σ) = false
     ∧ truthy (props (dummy σ) !! (c +:+ labelTableId)) = false).

(** Outside the keys that start with the canvas id, the store is as in
    [σ0]. *)
Definition same_outside (c : string) (σ0 σ : state) : Prop :=
  ∀ k, startsWith k c = false →
       props (dummy σ) !! k = props (dummy σ0) !! k
       ∧ fallbackElements (dummy σ) !! k = fallbackElements (dummy σ0) !! k
       ∧ labelElements (dummy σ) !! k = labelElements (dummy σ0) !! k.

(** Whatever is set in [σ0], a flag, a text or a row, is set in [σ]. *)
Definition still_set (σ0 σ : state) : Prop :=
  (∀ k, truthy (props (dummy σ0) !! k) = true →
        truthy (props (dummy σ) !! k) = true)
  ∧ (∀ k, truthy_row (fallbackElements (dummy σ0) !! k) = true →
          truthy_row (fallbackElements (dummy σ) !! k) = true)
  ∧ (∀ k, truthy_row (labelElements (dummy σ0) !! k) = true →
          truthy_row (labelElements (dummy σ) !! k) = true).

(** [m] throws nothing but a TypeError. *)
Definition throws_TypeError {A : Type} (m : M A) : Prop :=
  ∀ σ e σ', m σ = (Throw e, σ') → e = TypeError.

(** A call on the surface, or a reset. *)
Definition on_surface (cnvId : string) (c : call) : bool :=
  match c with
  | Describe c' _ _ => bool_decide (c' = cnvId)
  | DescribeElement c' _ _ _ => bool_decide (c' = cnvId)
  | ClearDummy => true
  end.

(** The ids of the nodes that hold a text and nothing else: the two
    paragraphs and the rows of a surface. *)
Definition leaf_id (c i : string) : bool :=
  bool_decide (i = c +:+ fallbackDescId) || bool_decide (i = c +:+ labelDescId)
  || startsWith i (c +:+ fallbackTableElId)
  || startsWith i (c +:+ labelTableElId).

(** [el.children.length === 0]. *)
Definition is_nil {A : Type} (l : list A) : bool :=
  match l with [] => true | _ => false end.

(** The paragraphs and rows of the surface have no children. *)
Fixpoint leafy_node (c : string) (n : node) : bool :=
  match n with
  | Node _ j _ _ ks =>
      (negb (id_in (leaf_id c) j) || is_nil ks) && forallb (leafy_node c) ks
  end.
Definition leafy (c : string) (ns : list node) : bool :=
  forallb (leafy_node c) ns.

(** The suffixes of those ids. *)
Definition leaf_suffix (r : string) : bool :=
  bool_decide (r = fallbackDescId) || bool_decide (r = labelDescId)
  || startsWith r fallbackTableElId || startsWith r labelTableElId.

(** What the first element with the id shows, if there is one. *)
Definition html_at (x : string) (ns : list node) : option string :=
  node_html <$> find_first x ns.

(** The document and the store of a surface agree: what the store flags
    is in the document, and what the store holds is shown. *)
Record coherent (c : string) (σ : state) : Prop := Coherent {
  coh_canvas : has_id c (document σ) = true;
  coh_leafy : leafy c (document σ) = true;
  coh_apart : apart c (document σ) = true;
  coh_update : props (dummy σ) !! (c +:+ "updateFallbackDesc") = None;
  coh_ftext : ∀ v, props (dummy σ) !! (c +:+ "fallbackDesc") = Some v →
    ∃ t, v = VString t ∧ t ≠ ""
         ∧ props (dummy σ) !! (c +:+ "DOM") = Some VBody
         ∧ truthy (props (dummy σ) !! (c +:+ descContainer)) = true
         ∧ html_at (c +:+ fallbackDescId) (document σ) = Some t;
  coh_fcont : truthy (props (dummy σ) !! (c +:+ descContainer)) = true →
    truthy (props (dummy σ) !! (c +:+ fallbackTableId)) = true
    ∨ has_id (c +:+ fallbackDescId) (document σ) = true;
  coh_ftable : truthy (props (dummy σ) !! (c +:+ fallbackTableId)) = true →
    truthy (props (dummy σ) !! (c +:+ descContainer)) = true
    ∧ has_id (c +:+ fallbackTableId) (document σ) = true;
  coh_frow : ∀ k inner, fallbackElements (dummy σ) !! (c +:+ k) = Some inner →
    inner ≠ ""
    ∧ props (dummy σ) !! (c +:+ "DOM") = Some VBody
    ∧ truthy (props (dummy σ) !! (c +:+ fallbackTableId)) = true
    ∧ html_at (c +:+ fallbackTableElId +:+ k) (document σ) = Some inner;
  coh_ltext : ∀ v, props (dummy σ) !! (c +:+ "labelDesc") = Some v →
    ∃ t, v = VString t ∧ t ≠ ""
         ∧ html_at (c +:+ labelDescId) (document σ) = Some t;
  coh_lcont : truthy (props (dummy σ) !! (c +:+ labelContainer)) = true →
    truthy (props (dummy σ) !! (c +:+ labelDescId)) = true
    ∨ truthy (props (dummy σ) !! (c +:+ labelTableId)) = true;
  coh_lpara : truthy (props (dummy σ) !! (c +:+ labelDescId)) = true →
    truthy (props (dummy σ) !! (c +:+ labelContainer)) = true
    ∧ has_id (c +:+ labelDescId) (document σ) = true;
  coh_ltable : truthy (props (dummy σ) !! (c +:+ labelTableId)) = true →
    truthy (props (dummy σ) !! (c +:+ labelContainer)) = true
    ∧ has_id (c +:+ labelTableId) (document σ) = true;
  coh_lrow : ∀ k inner, labelElements (dummy σ) !! (c +:+ k) = Some inner →
    inner ≠ ""
    ∧ truthy (props (dummy σ) !! (c +:+ labelTableId)) = true
    ∧ html_at (c +:+ labelTableElId +:+ k) (document σ) = Some inner
}.

(** The document has [n] elements with the id, and the paragraphs and rows
    of the surface have no children. *)
Definition counted (c x : string) (n : nat) (σ : state) : Prop :=
  leafy c (document σ) = true ∧ count_id x (document σ) = n.

(** How many of the nodes carry the id themselves. *)
Definition count_heads (x : string) (ns : list node) : nat :=
  list_sum (map (λ n, if bool_decide (node_id n = Some x) then 1 else 0) ns).

(** The two maps of rows are as in [σ0]. *)
Definition same_rows (σ0 σ : state) : Prop :=
  fallbackElements (dummy σ) = fallbackElements (dummy σ0)
  ∧ labelElements (dummy σ) = labelElements (dummy σ0).

(** Every key that ends in [Desc], the keys of the two texts and of the
    two paragraph flags of every surface among them, has the value it has
    in [σ0]. *)
Definition same_texts (σ0 σ : state) : Prop :=
  ∀ k, endsWith k "Desc" = true →
       props (dummy σ) !! k = props (dummy σ0) !! k.

(** ** The inputs the model speaks for *)

(** The source builds its selectors, its markup and its keys by joining
    strings.  The model reads a joined string as the source means it: an
    id is looked up as an id, a text is stored as text, a key is a key of
    the map it is written to.  A browser reads them so on the inputs
    below; the theorems that follow a call into the document for all its
    inputs are stated on these. *)

Definition is_letter (a : ascii) : bool :=
  let n := nat_of_ascii a in
  Nat.leb 65 n && Nat.leb n 90 || Nat.leb 97 n && Nat.leb n 122.
Definition is_digit (a : ascii) : bool :=
  let n := nat_of_ascii a in Nat.leb 48 n && Nat.leb n 57.

(** A character of a CSS identifier that needs no escape. *)
Definition ident_char (a : ascii) : bool :=
  is_letter a || is_digit a || bool_decide (a = "_"%char)
  || bool_decide (a = "-"%char).

Fixpoint all_chars (P : ascii → bool) (s : string) : bool :=
  match s with
  | EmptyString => true
  | String a s' => P a && all_chars P s'
  end.

(** An id for which ['#' + id] is the selector of that id: a letter or an
    underscore, then characters of an identifier.  A blank, a dot or a
    comma would make the selector one of something else, a leading digit
    or the empty id would make [querySelector] throw a SyntaxError. *)
Definition css_ident (s : string) : bool :=
  match s with
  | EmptyString => false
  | String a s' =>
      (is_letter a || bool_decide (a = "_"%char)) && all_chars ident_char s'
  end.

(** A text that [innerHTML] takes and gives back as it is: printable
    ASCII without [<], [>] and [&], so that nothing in it is parsed as
    markup or as a character reference, and nothing is escaped when the
    content is read. *)
Definition plain_char (a : ascii) : bool :=
  let n := nat_of_ascii a in
  Nat.leb 32 n && Nat.leb n 126
  && negb (bool_decide (a = "<"%char)) && negb (bool_decide (a = ">"%char))
  && negb (bool_decide (a = "&"%char)).
Definition plain_text (s : string) : bool := all_chars plain_char s.

(** The properties every object inherits from [Object.prototype]: read
    through [dummy.fallbackElements[key]] or [dummy.labelElements[key]]
    they are truthy though nothing was stored. *)
Definition inherited_names : list string :=
  ["constructor"; "hasOwnProperty"; "isPrototypeOf"; "propertyIsEnumerable";
   "toLocaleString"; "toString"; "valueOf"; "__proto__";
   "__defineGetter__"; "__defineSetter__"; "__lookupGetter__";
   "__lookupSetter__"].
Definition inherited (k : string) : bool :=
  existsb (String.eqb k) inherited_names.

(** An element name whose key [_nameForID(name)] can be joined into the
    id of a row, and under which the two maps of rows hold what was
    stored and nothing else.  The name is then plain text as well: it is
    its key, or its key and one punctuation mark. *)
Definition key_ok (cnvId name : string) : bool :=
  all_chars ident_char (_nameForID name)
  && negb (inherited (cnvId +:+ _nameForID name)).

(** The arguments of a call are read as text.  A call with an argument
    that is no string does nothing, whatever the argument. *)
Definition args_ok (c : call) : bool :=
  match c with
  | Describe _ (JString text) _ => plain_text text
  | DescribeElement cnvId (JString name) (JString text) _ =>
      plain_text text && key_ok cnvId name
  | _ => true
  end.

(** The surface of a call. *)
Definition surface (c : call) : list string :=
  match c with
  | Describe cnvId _ _ => [cnvId]
  | DescribeElement cnvId _ _ _ => [cnvId]
  | ClearDummy => []
  end.

(** Two canvas ids of which one is the other followed by an underscore
    and more: only then can an id the source derives for one surface, the
    canvas id itself or the canvas id and a suffix that starts with an
    underscore, be an id of the other (lemma [ids_of_surfaces_differ]). *)
Definition ids_collide (a b : string) : bool :=
  startsWith b (a +:+ "_") || startsWith a (b +:+ "_").

Definition sound_ids (l : list string) : bool :=
  forallb css_ident l
  && forallb (λ a, forallb (λ b, negb (ids_collide a b)) l) l.

(** A page of canvases and a sequence of calls and resets on which the
    model is the source: the ids of the canvases on the page and of the
    surfaces called are CSS identifiers, no id derived for one of them is
    an id of another, so that every template is inserted where its markup
    is parsed as written, and the arguments are read as text.  A surface
    called need not be on the page: the selector of its canvas then finds
    nothing, in the source as in the model. *)
Definition well_formed (ids : list string) (cs : list call) : bool :=
  sound_ids (ids ++ flat_map surface cs) && forallb args_ok cs.

(** The same, all calls being on one canvas of the page. *)
Definition one_canvas (c : string) (ids : list string) (cs : list call)
  : bool :=
  has_id c (page ids) && well_formed ids cs && forallb (on_surface c) cs.

(** ** What is published *)






(** Two canvases of which the id of the second is the id of the label
    container of the first. *)
Definition canvas_named_as_label : list node :=
  page ["sketch"; "sketch_Label"].

(** * Properties *)

(** ** Strings *)

Local Arguments String.append : simpl nomatch.

Lemma append_nil_r (s : string) : s +:+ "" = s.
Proof. induction s as [|a s IH]; simpl; [done | by rewrite IH]. Qed.

Lemma append_assoc (s t u : string) : (s +:+ t) +:+ u = s +:+ t +:+ u.
Proof. induction s as [|a s IH]; simpl; [done | by rewrite IH]. Qed.

Lemma endsWith_refl (s : string) : endsWith s s = true.
Proof. destruct s; cbn [endsWith]; by rewrite bool_decide_eq_true_2. Qed.

Lemma endsWith_app (s t : string) : endsWith (s +:+ t) t = true.
Proof.
  induction s as [|a s IH]; simpl.
  - apply endsWith_refl.
  - rewrite IH. apply orb_true_r.
Qed.

Lemma endsWith_inv (s t : string) :
  endsWith s t = true → ∃ p, s = p +:+ t.
Proof.
  induction s as [|a s IH]; simpl.
  - intros H%bool_decide_eq_true. subst. by exists "".
  - intros [H%bool_decide_eq_true | H]%orb_true_iff.
    + exists "". by subst.
    + destruct (IH H) as [p ->]. by exists (String a p).
Qed.

(** Two keys that share a spelling end alike: one suffix ends with the
    other. *)
Lemma append_eq_endsWith (p1 s1 p2 s2 : string) :
  p1 +:+ s1 = p2 +:+ s2 → endsWith s1 s2 = true ∨ endsWith s2 s1 = true.
Proof.
  revert p2. induction p1 as [|a p1 IH]; intros p2 H; simpl in H.
  - left. subst. apply endsWith_app.
  - destruct p2 as [|b p2]; simpl in H.
    + right. subst. apply (endsWith_app (String a p1)).
    + injection H as _ H. by apply IH in H.
Qed.

Lemma append_ne_suffix (p1 s1 p2 s2 : string) :
  endsWith s1 s2 || endsWith s2 s1 = false → p1 +:+ s1 ≠ p2 +:+ s2.
Proof.
  intros Hf Heq. apply append_eq_endsWith in Heq.
  apply orb_false_iff in Hf as [??]. destruct Heq; congruence.
Qed.

(** X10: no key [cnvId + suffix] the source writes in [dummy] is the name
    of one of the two nested maps, whatever the canvas id: no write of a
    flag, a text or the [body] element replaces [dummy.fallbackElements] or
    [dummy.labelElements]. *)
Lemma key_not_field (cnvId s : string) :
  s ∈ prop_suffixes →
  cnvId +:+ s ≠ "fallbackElements" ∧ cnvId +:+ s ≠ "labelElements".
Proof.
  unfold prop_suffixes. intros H.
  repeat (apply elem_of_cons in H as [-> | H]);
    try (split; apply (append_ne_suffix cnvId _ ""); reflexivity).
  by apply elem_of_nil in H.
Qed.

Lemma endsWith_snoc (s : string) (a b : ascii) :
  endsWith (s +:+ String a "") (String b "") = bool_decide (a = b).
Proof.
  induction s as [|c s IH]; simpl.
  - rewrite orb_false_r. apply bool_decide_ext. naive_solver.
  - rewrite IH. rewrite bool_decide_eq_false_2; [done|].
    destruct s; simpl; discriminate.
Qed.

Lemma endsWith_char_inv (s : string) (b : ascii) :
  endsWith s (String b "") = true → ∃ p, s = p +:+ String b "".
Proof. apply endsWith_inv. Qed.

Lemma replace_last_snoc (s r : string) (a : ascii) :
  is_line_terminator a = false →
  replace_last (s +:+ String a "") r = s +:+ r.
Proof.
  intros Ha. induction s as [|c s IH]; simpl.
  - by rewrite Ha.
  - rewrite IH. destruct s; simpl; done.
Qed.

Lemma startsWith_app (p s : string) : startsWith (p +:+ s) p = true.
Proof.
  induction p as [|a p IH]; simpl; [by destruct s|].
  by rewrite bool_decide_eq_true_2.
Qed.

Lemma startsWith_inv (s p : string) :
  startsWith s p = true → ∃ r, s = p +:+ r.
Proof.
  revert s. induction p as [|a p IH]; intros s; simpl.
  - intros _. by exists s.
  - destruct s as [|b s]; [done|].
    intros [->%bool_decide_eq_true H]%andb_true_iff.
    destruct (IH _ H) as [r ->]. by exists r.
Qed.

(** ** The text normaliser *)

Lemma descriptionText_unreserved (text : string) :
  text ≠ "label" → text ≠ "fallback" →
  _descriptionText text
  = Return (if ends_sentence text then text else text +:+ ".").
Proof.
  intros H1 H2. unfold _descriptionText, ends_sentence.
  rewrite !bool_decide_eq_false_2 by done. cbn [orb].
  destruct (endsWith text "."), (endsWith text "?"), (endsWith text "!");
    reflexivity.
Qed.

Lemma elementName_unreserved (name : string) :
  name ≠ "label" → name ≠ "fallback" →
  _elementName name
  = Return (if endsWith name "." || endsWith name ";" || endsWith name ","
            then replace_last name ":"
            else if endsWith name ":" then name else name +:+ ":").
Proof.
  intros H1 H2. unfold _elementName.
  rewrite !bool_decide_eq_false_2 by done. cbn [orb].
  destruct (endsWith name "." || endsWith name ";" || endsWith name ",");
    [done|].
  by destruct (endsWith name ":").
Qed.

(** C8: on a name that is no reserved token, [_elementName] turns one
    trailing full stop, semicolon or comma into a colon, leaves a name that
    ends with a colon as it is, and appends a colon to any other name;
    [_nameForID] drops one trailing full stop, semicolon, comma or colon and
    changes nothing else.  ['Circle,'] and ['Circle.'] are both shown as
    ['Circle:'] and both have the key ['Circle'], hence the same row. *)
Theorem elementName_nameForID (name : string) :
  name ≠ "label" → name ≠ "fallback" →
  (∀ s, name = s +:+ "." ∨ name = s +:+ ";" ∨ name = s +:+ "," →
        _elementName name = Return (s +:+ ":"))
  ∧ (endsWith name ":" = true → _elementName name = Return name)
  ∧ (ends_punctuated name = false →
     _elementName name = Return (name +:+ ":"))
  ∧ (∀ s, name = s +:+ "." ∨ name = s +:+ ";" ∨ name = s +:+ ","
          ∨ name = s +:+ ":" → _nameForID name = s)
  ∧ (ends_punctuated name = false → _nameForID name = name)
  ∧ _elementName "Circle," = Return "Circle:"
  ∧ _elementName "Circle." = Return "Circle:"
  ∧ _nameForID "Circle," = "Circle"
  ∧ _nameForID "Circle." = "Circle"
  ∧ (∀ cnvId,
       cnvId +:+ _nameForID "Circle," = cnvId +:+ _nameForID "Circle."
       ∧ cnvId +:+ fallbackTableElId +:+ _nameForID "Circle,"
         = cnvId +:+ fallbackTableElId +:+ _nameForID "Circle."
       ∧ cnvId +:+ labelTableElId +:+ _nameForID "Circle,"
         = cnvId +:+ labelTableElId +:+ _nameForID "Circle.").
Proof.
  intros H1 H2. rewrite (elementName_unreserved name H1 H2).
  unfold ends_punctuated, _nameForID.
  split_and!; try reflexivity.
  - intros s [-> | [-> | ->]]; rewrite !endsWith_snoc;
      rewrite replace_last_snoc by reflexivity; reflexivity.
  - intros Hc. destruct (endsWith_char_inv _ _ Hc) as [p ->].
    rewrite !endsWith_snoc. reflexivity.
  - intros H.
    apply orb_false_iff in H as [H ->]. by rewrite H.
  - intros s [-> | [-> | [-> | ->]]]; rewrite !endsWith_snoc;
      rewrite replace_last_snoc by reflexivity; cbn; apply append_nil_r.
  - by intros ->.
  - done.
Qed.

Lemma elementName_nameForID_witness :
  _elementName "Heart;" = Return "Heart:" ∧ _nameForID "Heart;" = "Heart".
Proof.
  destruct (elementName_nameForID "Heart;") as (Hl & _ & _ & Hk & _);
    [done | done |].
  split; [apply (Hl "Heart") | apply (Hk "Heart")]; auto.
Defined.

(** ** Calls that fail or do nothing *)

Lemma bind_unfold {A B : Type} (m : M A) (k : A → M B) (σ : state) :
  (m ≫= k) σ
  = match m σ with
    | (Return a, σ') => k a σ'
    | (Throw e, σ') => (Throw e, σ')
    end.
Proof. reflexivity. Qed.

Lemma describe_string (cnvId text : string) (display : jsval) (σ : state) :
  describe cnvId (JString text) display σ
  = match _descriptionText text with
    | Return text' =>
        ((fd ← getProp (cnvId +:+ "fallbackDesc");
          ld ← getProp (cnvId +:+ "labelDesc");
          (if negb (truthy fd) || negb (truthy ld)
           then _populateDummyDOM cnvId else mret () : M unit);;
          describe_fallback cnvId text';;
          describe_label cnvId text' display) : M unit) σ
    | Throw e => (Throw e, σ)
    end.
Proof.
  unfold describe, _validateParameters. rewrite !bind_unfold.
  unfold mret at 1, M_ret, lift. by destruct (_descriptionText text).
Qed.

Lemma describeElement_string (cnvId name text : string) (display : jsval)
    (σ : state) :
  describeElement cnvId (JString name) (JString text) display σ
  = match _descriptionText text with
    | Return text' =>
        match _elementName name with
        | Return elementName =>
            ((fe ← getFallbackElement (cnvId +:+ _nameForID name);
              le ← getLabelElement (cnvId +:+ _nameForID name);
              (if negb (truthy_row fe) || negb (truthy_row le)
               then _populateDummyDOM cnvId else mret () : M unit);;
              describeElement_fallback cnvId (_nameForID name)
                (row_markup elementName text');;
              describeElement_label cnvId (_nameForID name)
                (row_markup elementName text') display) : M unit) σ
        | Throw e => (Throw e, σ)
        end
    | Throw e => (Throw e, σ)
    end.
Proof.
  unfold describeElement, _validateParameters. rewrite !bind_unfold.
  unfold mret at 1, M_ret, lift. destruct (_descriptionText text); [|done].
  rewrite bind_unfold. by destruct (_elementName name).
Qed.

(** C6: [describe] with the text ['label'] or ['fallback'], and
    [describeElement] with the name ['label'] or ['fallback'] and a text
    that is a string, throw the reserved-name error at once, and the store
    and the document are as they were before the call.  (With a reserved
    text too it is the error of the description, otherwise that of the
    element name.) *)
Theorem reserved_name_throws (cnvId : string) (display : jsval) (σ : state) :
  describe cnvId (JString "label") display σ
  = (Throw (Error "description should not be LABEL or FALLBACK"), σ)
  ∧ describe cnvId (JString "fallback") display σ
    = (Throw (Error "description should not be LABEL or FALLBACK"), σ)
  ∧ (∀ name text : string,
       name = "label" ∨ name = "fallback" →
       ∃ e, ReservedNameError e
            ∧ describeElement cnvId (JString name) (JString text) display σ
              = (Throw e, σ))
  ∧ (∀ name text : string,
       name = "label" ∨ name = "fallback" →
       text ≠ "label" → text ≠ "fallback" →
       describeElement cnvId (JString name) (JString text) display σ
       = (Throw (Error "element name should not be LABEL or FALLBACK"), σ)).
Proof.
  split_and!.
  - by rewrite describe_string.
  - by rewrite describe_string.
  - intros name text Hn. rewrite describeElement_string.
    destruct (_descriptionText text) as [t|e] eqn:Et.
    + exists (Error "element name should not be LABEL or FALLBACK").
      split; [by right|]. by destruct Hn as [-> | ->].
    + exists e. split; [|done]. left.
      unfold _descriptionText in Et.
      repeat (case_match; simplify_eq); done.
  - intros name text Hn H1 H2. rewrite describeElement_string.
    rewrite (descriptionText_unreserved text H1 H2).
    by destruct Hn as [-> | ->].
Qed.

Lemma reserved_name_throws_witness :
  describeElement "c" (JString "fallback") (JString "a circle") LABEL
    (initial (page ["c"]))
  = (Throw (Error "element name should not be LABEL or FALLBACK"),
     initial (page ["c"])).
Proof.
  destruct (reserved_name_throws "c" LABEL (initial (page ["c"])))
    as (_ & _ & _ & H).
  apply H; [by right | done | done].
Defined.

(** C9: [describe] with a text that is no string, and [describeElement]
    with a name or a text that is no string, return without an error and
    leave the store and the document as they were. *)
Theorem non_string_is_no_op (cnvId : string) (display : jsval) (σ : state) :
  (∀ text, is_string text = false →
     describe cnvId text display σ = (Return (), σ))
  ∧ (∀ name text, is_string name = false ∨ is_string text = false →
       describeElement cnvId name text display σ = (Return (), σ)).
Proof.
  split.
  - intros text H. by destruct text.
  - intros name text [H | H]; destruct text; destruct name; done.
Qed.

Lemma non_string_is_no_op_witness :
  describe "c" (JNumber 5) LABEL (initial (page ["c"]))
  = (Return (), initial (page ["c"])).
Proof.
  destruct (non_string_is_no_op "c" LABEL (initial (page ["c"]))) as [H _].
  apply H. reflexivity.
Defined.

(** C10: [describeElement] with the text ['label'] or ['fallback'] throws
    the reserved-name error of the description, whatever the name is, a
    reserved name included: the text is checked before the name.  The
    store and the document are as they were before the call. *)
Theorem reserved_text_throws (cnvId name : string) (display : jsval)
    (σ : state) :
  describeElement cnvId (JString name) (JString "label") display σ
  = (Throw (Error "description should not be LABEL or FALLBACK"), σ)
  ∧ describeElement cnvId (JString name) (JString "fallback") display σ
    = (Throw (Error "description should not be LABEL or FALLBACK"), σ).
Proof. split; by rewrite describeElement_string. Qed.

(** ** Invariants of calls *)

Section preserves.
Context (I : state → Prop).

Lemma preserves_ret {A : Type} (a : A) : preserves I (mret a).
Proof. by intros σ. Qed.

Lemma preserves_throw {A : Type} (e : error) : preserves I (@throw A e).
Proof. by intros σ. Qed.

Lemma preserves_lift {A : Type} (o : outcome A) : preserves I (lift o).
Proof. by intros σ. Qed.

Lemma preserves_bind {A B : Type} (m : M A) (k : A → M B) :
  preserves I m → (∀ a, preserves I (k a)) → preserves I (m ≫= k).
Proof.
  intros Hm Hk σ Hσ. rewrite bind_unfold.
  specialize (Hm σ Hσ). destruct (m σ) as [[a|e] σ']; simpl in *.
  - by apply Hk.
  - done.
Qed.

Lemma preserves_getProp (k : string) : preserves I (getProp k).
Proof. by intros σ. Qed.

Lemma preserves_getFallbackElement (k : string) :
  preserves I (getFallbackElement k).
Proof. by intros σ. Qed.

Lemma preserves_getLabelElement (k : string) :
  preserves I (getLabelElement k).
Proof. by intros σ. Qed.

Lemma preserves_document_has (i : string) : preserves I (document_has i).
Proof. by intros σ. Qed.

Lemma preserves_theDOM (cnvId : string) : preserves I (theDOM cnvId).
Proof.
  apply preserves_bind; [apply preserves_getProp|].
  intros [[]|]; first [apply preserves_ret | apply preserves_throw].
Qed.

Lemma preserves_querySelector_found (cnvId i : string) :
  preserves I (querySelector_found cnvId i).
Proof.
  apply preserves_bind; [apply preserves_theDOM|].
  intros _. apply preserves_document_has.
Qed.

Lemma preserves_querySelector_edit (cnvId i : string)
    (f : node → list node) :
  preserves I (document_edit i f) →
  preserves I (querySelector_edit cnvId i f).
Proof. intros H. apply preserves_bind; [apply preserves_theDOM | done]. Qed.

Lemma preserves_validateParameters : preserves I _validateParameters.
Proof. apply preserves_ret. Qed.
End preserves.

(** One step through the structure of a call; the writes are left to the
    invariant at hand. *)
Ltac preserves_step :=
  lazymatch goal with
  | |- preserves _ (_ ≫= _) => apply preserves_bind; [|intros ?]
  | |- preserves _ (mret _) => apply preserves_ret
  | |- preserves _ (throw _) => apply preserves_throw
  | |- preserves _ (lift _) => apply preserves_lift
  | |- preserves _ (getProp _) => apply preserves_getProp
  | |- preserves _ (getFallbackElement _) =>
      apply preserves_getFallbackElement
  | |- preserves _ (getLabelElement _) => apply preserves_getLabelElement
  | |- preserves _ (querySelector_found _ _) =>
      apply preserves_querySelector_found
  | |- preserves _ (getElementById_found _) => apply preserves_document_has
  | |- preserves _ (querySelector_edit _ _ _) =>
      apply preserves_querySelector_edit
  | |- preserves _ _validateParameters => apply preserves_validateParameters
  | |- preserves _ (if ?b then _ else _) => destruct b
  | |- preserves _ (match ?x with _ => _ end) => destruct x
  end.

Lemma run_invariant (I : state → Prop) (cs : list call) (σ : state) :
  (∀ c, c ∈ cs → preserves I (run_call c)) → I σ → I (run cs σ).
Proof.
  revert σ. induction cs as [|c cs IH]; intros σ Hcs Hσ; [done|].
  simpl. apply IH.
  - intros c' Hc'. apply Hcs. by right.
  - apply Hcs; [by left | done].
Qed.

(** ** The flag [updateFallbackDesc] *)

Lemma flag_unset_setProp (cnvId suffix : string) (v : value) :
  endsWith suffix "updateFallbackDesc"
  || endsWith "updateFallbackDesc" suffix = false →
  preserves flag_unset (setProp (cnvId +:+ suffix) v).
Proof.
  intros Hs σ Hσ c. simpl. rewrite lookup_insert_ne; [apply Hσ|].
  by apply append_ne_suffix.
Qed.

Lemma flag_unset_other (f : state → state) :
  (∀ σ, props (dummy (f σ)) = props (dummy σ)) →
  preserves flag_unset (λ σ, (Return (), f σ)).
Proof. intros Hf σ Hσ c. simpl. rewrite Hf. apply Hσ. Qed.

Lemma flag_unset_document_edit (i : string) (f : node → list node) :
  preserves flag_unset (document_edit i f).
Proof.
  intros σ Hσ c. unfold document_edit.
  destruct (edit_first i f (document σ)); apply Hσ.
Qed.

Ltac flag_unset_auto :=
  repeat first
    [ preserves_step
    | apply flag_unset_document_edit
    | apply flag_unset_setProp; reflexivity
    | by apply flag_unset_other ].

Lemma flag_unset_describe (cnvId : string) (text display : jsval) :
  preserves flag_unset (describe cnvId text display).
Proof.
  unfold describe, describe_fallback, describe_label, _describeFallbackHTML,
    _describeLabelHTML, _populateDummyDOM.
  flag_unset_auto.
Qed.

Lemma flag_unset_describeElement (cnvId : string) (name text display : jsval) :
  preserves flag_unset (describeElement cnvId name text display).
Proof.
  unfold describeElement, describeElement_fallback, describeElement_label,
    _descElementFallbackHTML, _descElementLabelHTML, _populateDummyDOM,
    setFallbackElement, setLabelElement.
  flag_unset_auto.
Qed.

Lemma flag_unset_run_call (c : call) : preserves flag_unset (run_call c).
Proof.
  destruct c; simpl.
  - apply flag_unset_describe.
  - apply flag_unset_describeElement.
  - intros σ _ c. apply lookup_empty.
Qed.

Lemma flag_unset_reachable (doc : list node) (cs : list call) :
  flag_unset (run cs (initial doc)).
Proof.
  apply run_invariant.
  - intros c _. apply flag_unset_run_call.
  - intros c. apply lookup_empty.
Qed.

(** C3: in every state reached from the loading of the module, over any
    document, by any sequence of [describe], [describeElement] and
    [_clearDummy] calls on any surfaces, no surface has a value under its
    [updateFallbackDesc] key; so the accessible-only part of [describe]
    never takes the branch that flag guards: when the text differs from the
    stored one it is [_describeFallbackHTML] that runs, and otherwise
    nothing. *)
Theorem updateFallbackDesc_never_set (doc : list node) (cs : list call)
    (cnvId text : string) :
  let σ := run cs (initial doc) in
  props (dummy σ) !! (cnvId +:+ "updateFallbackDesc") = None
  ∧ truthy (props (dummy σ) !! (cnvId +:+ "updateFallbackDesc")) = false
  ∧ describe_fallback cnvId text σ
    = if bool_decide (props (dummy σ) !! (cnvId +:+ "fallbackDesc")
                      ≠ Some (VString text))
      then _describeFallbackHTML cnvId text σ
      else (Return (), σ).
Proof.
  intros σ. pose proof (flag_unset_reachable doc cs cnvId) as H.
  fold σ in H. split_and!; [done | by rewrite H |].
  unfold describe_fallback. rewrite bind_unfold. cbn [getProp].
  case_bool_decide; [|done].
  rewrite bind_unfold. cbn [getProp]. by rewrite H.
Qed.

(** ** The texts in the store *)

Lemma preserves_bind_lift {A B : Type} (I : state → Prop) (o : outcome A)
    (k : A → M B) :
  (∀ a, o = Return a → preserves I (k a)) → preserves I (lift o ≫= k).
Proof.
  intros Hk σ Hσ. rewrite bind_unfold. unfold lift.
  destruct o as [a|e]; [by apply Hk | done].
Qed.






Lemma descriptionText_ends_sentence (text r : string) :
  _descriptionText text = Return r → ends_sentence r = true.
Proof.
  unfold _descriptionText. case_match; [done|].
  unfold ends_sentence.
  destruct (endsWith text ".") eqn:E1, (endsWith text "?") eqn:E2,
    (endsWith text "!") eqn:E3; cbn [negb andb]; intros [= <-];
    rewrite ?E1, ?E2, ?E3, ?endsWith_app; done.
Qed.




(** ** Identifiers of the two regions *)

Lemma append_eq_self (c s : string) : c +:+ s = c → s = "".
Proof. induction c as [|a c IH]; simpl; [done|]. intros [=]. auto. Qed.

Lemma startsWith_append (c r p : string) :
  startsWith (c +:+ r) (c +:+ p) = startsWith r p.
Proof.
  induction c as [|a c IH]; simpl; [done|].
  by rewrite bool_decide_eq_true_2.
Qed.

Lemma bool_decide_append (c r s : string) :
  bool_decide (c +:+ r = c +:+ s) = bool_decide (r = s).
Proof. apply bool_decide_ext. split; [apply (inj _) | by intros ->]. Qed.

Lemma label_id_append (c r : string) :
  label_id c (c +:+ r) = label_suffix r.
Proof.
  unfold label_id, label_suffix.
  by rewrite !bool_decide_append, startsWith_append.
Qed.

Lemma fallback_id_append (c r : string) :
  fallback_id c (c +:+ r) = fallback_suffix r.
Proof.
  unfold fallback_id, fallback_suffix.
  rewrite !bool_decide_append, startsWith_append.
  do 4 f_equal. apply bool_decide_ext. split.
  - apply append_eq_self.
  - intros ->. apply append_nil_r.
Qed.

Lemma label_id_inv (c i : string) :
  label_id c i = true → ∃ r, i = c +:+ r ∧ label_suffix r = true.
Proof.
  intros H. assert (∃ r, i = c +:+ r) as [r ->].
  { unfold label_id in H.
    repeat (apply orb_true_iff in H as [H|H]);
      try (apply bool_decide_eq_true in H; eauto).
    apply startsWith_inv in H as [r ->]. rewrite append_assoc. eauto. }
  exists r. by rewrite label_id_append in H.
Qed.

Lemma fallback_id_inv (c i : string) :
  fallback_id c i = true → ∃ r, i = c +:+ r ∧ fallback_suffix r = true.
Proof.
  intros H. assert (∃ r, i = c +:+ r) as [r ->].
  { unfold fallback_id in H.
    repeat (apply orb_true_iff in H as [H|H]);
      try (apply bool_decide_eq_true in H; eauto).
    - exists "". by rewrite append_nil_r.
    - apply startsWith_inv in H as [r ->]. rewrite append_assoc. eauto. }
  exists r. by rewrite fallback_id_append in H.
Qed.

Lemma suffixes_disjoint (r : string) :
  label_suffix r = true → fallback_suffix r = false.
Proof.
  unfold label_suffix, fallback_suffix.
  intros H. repeat (apply orb_true_iff in H as [H|H]);
    try (apply bool_decide_eq_true in H; subst r; reflexivity).
  apply startsWith_inv in H as [r' ->].
  rewrite !bool_decide_eq_false_2 by (simpl; discriminate). done.
Qed.

(** No id belongs to both regions of a surface. *)
Lemma regions_disjoint (c i : string) :
  label_id c i = true → fallback_id c i = false.
Proof.
  intros (r & -> & H)%label_id_inv.
  rewrite fallback_id_append. by apply suffixes_disjoint.
Qed.

(** ** Edits of the document *)

Lemma node_forall_ind (P : node → Prop) :
  (∀ t j a h ks, Forall P ks → P (Node t j a h ks)) → ∀ n, P n.
Proof.
  intros H. fix IH 1. intros [t j a h ks]. apply H.
  induction ks as [|k ks IHks]; constructor; [apply IH | apply IHks].
Qed.

(** The local loop of [edit_node] is [edit_first]. *)
Lemma edit_node_unfold (i : string) (f : node → list node)
    (t : string) (j : option string) (a : list (string * string))
    (h : string) (ks : list node) :
  edit_node i f (Node t j a h ks)
  = if bool_decide (j = Some i) then Some (f (Node t j a h ks))
    else (λ ks', [Node t j a h ks']) <$> edit_first i f ks.
Proof.
  simpl. case_bool_decide; [done|].
  assert ((fix go (l : list node) : option (list node) :=
             match l with
             | [] => None
             | k :: l' =>
                 match edit_node i f k with
                 | Some r => Some (r ++ l')
                 | None => cons k <$> go l'
                 end
             end) ks = edit_first i f ks) as ->.
  { induction ks as [|k ks IH]; simpl; [done | by rewrite IH]. }
  by destruct (edit_first i f ks).
Qed.

Lemma collect_app (P : string → bool) (l1 l2 : list node) :
  collect P (l1 ++ l2) = collect P l1 ++ collect P l2.
Proof. apply flat_map_app. Qed.

Lemma collect_cons (P : string → bool) (n : node) (l : list node) :
  collect P (n :: l) = collect_node P n ++ collect P l.
Proof. reflexivity. Qed.

Lemma collect_node_unfold (P : string → bool) t j a h ks :
  collect_node P (Node t j a h ks)
  = (if id_in P j then [Node t j a h ks] else []) ++ collect P ks.
Proof. reflexivity. Qed.

Lemma apart_node_unfold (c : string) (inF inL : bool) t j a h ks :
  apart_node c inF inL (Node t j a h ks)
  = negb (id_in (label_id c) j && inF)
    && negb (id_in (fallback_id c) j && inL)
    && negb (bool_decide (j = Some c) && inF)
    && forallb (apart_node c (inF || id_in (fallback_id c) j)
                           (inL || id_in (label_id c) j)) ks.
Proof. reflexivity. Qed.

(** Below an element of the accessible-only region there is none of the
    visible-label region. *)
Lemma apart_below_fallback (c : string) (inL : bool) (n : node) :
  apart_node c true inL n = true → collect_node (label_id c) n = [].
Proof.
  revert inL. induction n as [t j a h ks IH] using node_forall_ind.
  intros inL. rewrite apart_node_unfold, collect_node_unfold.
  rewrite andb_true_r. intros H.
  apply andb_true_iff in H as [H H4]. apply andb_true_iff in H as [H H3].
  apply andb_true_iff in H as [H1 H2].
  apply negb_true_iff in H1. rewrite H1. simpl.
  revert IH H4. clear. induction ks as [|k ks IHks]; [done|].
  intros [Hk Hks]%Forall_cons [H1 H2]%andb_true_iff.
  rewrite collect_cons, (Hk _ H1). simpl. auto.
Qed.

(** Below an element of the visible-label region there is none of the
    accessible-only region, so an edit aimed at one finds nothing. *)
Lemma apart_below_label (c i : string) (f : node → list node) (inF : bool)
    (n : node) :
  fallback_id c i = true →
  apart_node c inF true n = true → edit_node i f n = None.
Proof.
  intros Hi. revert inF. induction n as [t j a h ks IH] using node_forall_ind.
  intros inF. rewrite apart_node_unfold, edit_node_unfold.
  rewrite andb_true_r. intros H.
  apply andb_true_iff in H as [H H4]. apply andb_true_iff in H as [H H3].
  apply andb_true_iff in H as [H1 H2].
  apply negb_true_iff in H2.
  destruct (decide (j = Some i)) as [-> | Hj]; [simpl in H2; congruence|].
  rewrite bool_decide_eq_false_2 by done.
  assert (edit_first i f ks = None) as ->; [|done].
  revert IH H4. clear. induction ks as [|k ks IHks]; [done|].
  intros [Hk Hks]%Forall_cons [H1 H2]%andb_true_iff.
  simpl. rewrite (Hk _ H1), IHks; done.
Qed.

Lemma edit_first_cases (i : string) (f : node → list node) (ns r : list node) :
  edit_first i f ns = Some r →
  ∃ l1 n l2 r', ns = l1 ++ n :: l2 ∧ edit_node i f n = Some r'
                ∧ r = l1 ++ r' ++ l2
                ∧ Forall (λ k, edit_node i f k = None) l1.
Proof.
  revert r. induction ns as [|n ns IH]; intros r; simpl; [done|].
  destruct (edit_node i f n) as [r'|] eqn:En.
  - intros [= <-]. exists [], n, ns, r'. by repeat split.
  - destruct (edit_first i f ns) as [r0|]; [|done]. intros [= <-].
    destruct (IH r0 eq_refl) as (l1 & m & l2 & r' & -> & Hm & -> & Hl1).
    exists (n :: l1), m, l2, r'. repeat split; [done|]. by constructor.
Qed.

Lemma forallb_app_true {A : Type} (p : A → bool) (l1 l2 : list A) :
  forallb p (l1 ++ l2) = true ↔ forallb p l1 = true ∧ forallb p l2 = true.
Proof. rewrite forallb_app. apply andb_true_iff. Qed.

(** An edit keeps the regions apart when what it puts in place of the
    element does. *)
Lemma edit_node_apart (c i : string) (f : node → list node) :
  (∀ m inF inL, node_id m = Some i → apart_node c inF inL m = true →
                forallb (apart_node c inF inL) (f m) = true) →
  ∀ n inF inL r,
    apart_node c inF inL n = true → edit_node i f n = Some r →
    forallb (apart_node c inF inL) r = true.
Proof.
  intros Hf. induction n as [t j a h ks IH] using node_forall_ind.
  intros inF inL r Hn. rewrite edit_node_unfold.
  destruct (decide (j = Some i)) as [-> | Hj].
  - rewrite bool_decide_eq_true_2 by done. intros [= <-]. by apply Hf.
  - rewrite bool_decide_eq_false_2 by done.
    destruct (edit_first i f ks) as [ks'|] eqn:E; [|done]. intros [= <-].
    simpl. rewrite andb_true_r. rewrite apart_node_unfold in Hn.
    apply andb_true_iff in Hn as [Hn H4]. rewrite Hn. simpl.
    apply edit_first_cases in E as (l1 & m & l2 & r' & -> & Hm & -> & _).
    apply forallb_app_true in H4 as [H1 H2]. simpl in H2.
    apply andb_true_iff in H2 as [H2 H3].
    apply Forall_app in IH as [_ [IHm _]%Forall_cons].
    apply forallb_app_true. split; [done|].
    apply forallb_app_true. split; [|done]. by apply (IHm _ _ _ H2).
Qed.

Lemma edit_first_apart (c i : string) (f : node → list node) :
  (∀ m inF inL, node_id m = Some i → apart_node c inF inL m = true →
                forallb (apart_node c inF inL) (f m) = true) →
  ∀ ns r, apart c ns = true → edit_first i f ns = Some r → apart c r = true.
Proof.
  intros Hf ns r Hns (l1 & m & l2 & r' & -> & Hm & -> & _)%edit_first_cases.
  unfold apart in *.
  apply forallb_app_true in Hns as [H1 H2]. simpl in H2.
  apply andb_true_iff in H2 as [H2 H3].
  apply forallb_app_true. split; [done|].
  apply forallb_app_true. split; [|done].
  by apply (edit_node_apart c i f Hf m).
Qed.

Lemma collect_below_fallback (c : string) (inL : bool) (ks : list node) :
  forallb (apart_node c true inL) ks = true → collect (label_id c) ks = [].
Proof.
  induction ks as [|k ks IH]; [done|]. cbn [forallb].
  intros [H1 H2]%andb_true_iff. rewrite collect_cons.
  by rewrite (apart_below_fallback _ _ _ H1), IH.
Qed.

Lemma edit_first_below_label (c i : string) (f : node → list node)
    (inF : bool) (ks : list node) :
  fallback_id c i = true →
  forallb (apart_node c inF true) ks = true → edit_first i f ks = None.
Proof.
  intros Hi. induction ks as [|k ks IH]; [done|]. simpl.
  intros [H1 H2]%andb_true_iff.
  by rewrite (apart_below_label _ _ _ _ _ Hi H1), IH.
Qed.

(** An edit at an element of the accessible-only region leaves every
    element of the visible-label region as it is, when what it puts in
    place of the element holds none. *)
Lemma edit_node_collect (c i : string) (f : node → list node) :
  fallback_id c i = true →
  (∀ m, node_id m = Some i → collect_node (label_id c) m = [] →
        collect (label_id c) (f m) = []) →
  ∀ n inF r,
    apart_node c inF false n = true → edit_node i f n = Some r →
    collect (label_id c) r = collect_node (label_id c) n.
Proof.
  intros Hi Hf. induction n as [t j a h ks IH] using node_forall_ind.
  intros inF r Hn. rewrite edit_node_unfold.
  rewrite apart_node_unfold in Hn. apply andb_true_iff in Hn as [Hn H4].
  destruct (decide (j = Some i)) as [-> | Hj].
  - rewrite bool_decide_eq_true_2 by done. intros [= <-].
    simpl in H4. rewrite Hi, orb_true_r in H4.
    assert (collect_node (label_id c) (Node t (Some i) a h ks) = []) as Hc.
    { rewrite collect_node_unfold. simpl.
      destruct (label_id c i) eqn:El.
      - apply regions_disjoint in El. congruence.
      - simpl. by apply collect_below_fallback in H4. }
    rewrite Hc. by apply Hf.
  - rewrite bool_decide_eq_false_2 by done.
    destruct (edit_first i f ks) as [ks'|] eqn:E; [|done]. intros [= <-].
    destruct (id_in (label_id c) j) eqn:El.
    { simpl in H4. by rewrite (edit_first_below_label _ _ _ _ _ Hi H4) in E. }
    rewrite orb_false_r in H4.
    unfold collect at 1. simpl. rewrite El, app_nil_r. simpl.
    apply edit_first_cases in E as (l1 & m & l2 & r' & -> & Hm & -> & _).
    apply forallb_app_true in H4 as [H1 H2]. simpl in H2.
    apply andb_true_iff in H2 as [H2 H3].
    apply Forall_app in IH as [_ [IHm _]%Forall_cons].
    fold (collect (label_id c) (l1 ++ r' ++ l2)).
    fold (collect (label_id c) (l1 ++ m :: l2)).
    rewrite !collect_app, collect_cons. by rewrite (IHm _ _ H2 Hm).
Qed.

Lemma edit_first_collect (c i : string) (f : node → list node) :
  fallback_id c i = true →
  (∀ m, node_id m = Some i → collect_node (label_id c) m = [] →
        collect (label_id c) (f m) = []) →
  ∀ ns r, apart c ns = true → edit_first i f ns = Some r →
          collect (label_id c) r = collect (label_id c) ns.
Proof.
  intros Hi Hf ns r Hns (l1 & m & l2 & r' & -> & Hm & -> & _)%edit_first_cases.
  unfold apart in Hns.
  apply forallb_app_true in Hns as [H1 H2]. simpl in H2.
  apply andb_true_iff in H2 as [H2 H3].
  rewrite !collect_app, collect_cons.
  by rewrite (edit_node_collect c i f Hi Hf m _ _ H2 Hm).
Qed.

(** ** Nodes the accessible-only region adds *)

Lemma fallback_not_label (c i : string) :
  fallback_id c i = true → label_id c i = false.
Proof.
  intros H. destruct (label_id c i) eqn:E; [|done].
  apply regions_disjoint in E. congruence.
Qed.

Lemma fresh_fallback_apart (c : string) (inF : bool) (n : node) :
  fresh_fallback c n = true → apart_node c inF false n = true.
Proof.
  revert inF. induction n as [t j a h ks IH] using node_forall_ind.
  intros inF. rewrite apart_node_unfold. cbn [fresh_fallback].
  intros [Hj Hks]%andb_true_iff.
  assert (id_in (label_id c) j = false) as Hl.
  { destruct j as [i|]; [|done]. apply andb_true_iff in Hj as [Hj _].
    by apply fallback_not_label. }
  assert (bool_decide (j = Some c) = false) as Hc.
  { destruct j as [i|]; [|by rewrite bool_decide_eq_false_2].
    apply andb_true_iff in Hj as [_ Hj%negb_true_iff].
    apply bool_decide_eq_false in Hj.
    rewrite bool_decide_eq_false_2; [done | congruence]. }
  rewrite Hl, Hc, andb_false_r. cbn [andb negb orb].
  revert IH Hks. generalize (inF || id_in (fallback_id c) j).
  clear. intros b. induction ks as [|k ks IHks]; [done|].
  intros [Hk Hks]%Forall_cons [H1 H2]%andb_true_iff. cbn [forallb].
  rewrite (Hk _ H1). simpl. auto.
Qed.

Lemma fresh_fallback_collect (c : string) (n : node) :
  fresh_fallback c n = true → collect_node (label_id c) n = [].
Proof.
  intros H. apply (apart_below_fallback c false).
  by apply fresh_fallback_apart.
Qed.

Lemma apart_fallback_context (c i : string) (inF inL : bool) (m : node) :
  fallback_id c i = true → node_id m = Some i →
  apart_node c inF inL m = true → inL = false.
Proof.
  intros Hi. destruct m as [t j a h ks]. simpl. intros -> H.
  apply andb_true_iff in H as [H _]. apply andb_true_iff in H as [H _].
  apply andb_true_iff in H as [_ H]. simpl in H. rewrite Hi in H.
  by destruct inL.
Qed.

Lemma apart_node_own (c : string) (inF inL : bool) t j a h ks ks' :
  apart_node c inF inL (Node t j a h ks) = true →
  forallb (apart_node c (inF || id_in (fallback_id c) j)
                        (inL || id_in (label_id c) j)) ks' = true →
  apart_node c inF inL (Node t j a h ks') = true.
Proof.
  rewrite !apart_node_unfold. intros [H _]%andb_true_iff H'.
  by rewrite H, H'.
Qed.

Section fallback_edits.
Context (c i : string) (Hi : fallback_id c i = true).

Lemma set_innerHTML_apart (text : string) (m : node) (inF inL : bool) :
  apart_node c inF inL m = true →
  forallb (apart_node c inF inL) (set_innerHTML text m) = true.
Proof.
  destruct m as [t j a h ks]. intros H.
  cbn [set_innerHTML forallb]. rewrite andb_true_r.
  by apply (apart_node_own _ _ _ _ _ _ _ ks).
Qed.

Lemma set_innerHTML_collect (text : string) (m : node) :
  collect_node (label_id c) m = [] →
  collect (label_id c) (set_innerHTML text m) = [].
Proof.
  destruct m as [t j a h ks]. rewrite collect_node_unfold.
  cbn [set_innerHTML]. rewrite collect_cons, collect_node_unfold.
  by destruct (id_in (label_id c) j).
Qed.

Lemma fresh_forest_apart (new : list node) (inF : bool) :
  forallb (fresh_fallback c) new = true →
  forallb (apart_node c inF false) new = true.
Proof.
  induction new as [|k new IH]; [done|]. cbn [forallb].
  intros [H1 H2]%andb_true_iff.
  by rewrite (fresh_fallback_apart _ _ _ H1), IH.
Qed.

Lemma fresh_forest_collect (new : list node) :
  forallb (fresh_fallback c) new = true → collect (label_id c) new = [].
Proof.
  induction new as [|k new IH]; [done|]. cbn [forallb].
  intros [H1 H2]%andb_true_iff.
  by rewrite collect_cons, (fresh_fallback_collect _ _ H1), IH.
Qed.

Lemma set_children_apart (new : list node) (m : node) (inF inL : bool) :
  forallb (fresh_fallback c) new = true →
  node_id m = Some i → apart_node c inF inL m = true →
  forallb (apart_node c inF inL) (set_children new m) = true.
Proof.
  intros Hnew Hm H.
  pose proof (apart_fallback_context c i inF inL m Hi Hm H) as ->.
  destruct m as [t j a h ks]. cbn [node_id] in Hm. subst j.
  cbn [set_children forallb]. rewrite andb_true_r.
  apply (apart_node_own _ _ _ _ _ _ _ ks); [done|].
  cbn [id_in]. rewrite (fallback_not_label _ _ Hi).
  by apply fresh_forest_apart.
Qed.

Lemma set_children_collect (new : list node) (m : node) :
  forallb (fresh_fallback c) new = true →
  collect_node (label_id c) m = [] →
  collect (label_id c) (set_children new m) = [].
Proof.
  intros Hnew. destruct m as [t j a h ks]. rewrite collect_node_unfold.
  cbn [set_children]. rewrite collect_cons, collect_node_unfold.
  destruct (id_in (label_id c) j); [done|]. intros _.
  by rewrite (fresh_forest_collect _ Hnew).
Qed.

Lemma insert_apart (new : node) (m : node) (inF inL : bool) :
  fresh_fallback c new = true →
  node_id m = Some i → apart_node c inF inL m = true →
  forallb (apart_node c inF inL) (insert_beforebegin new m) = true
  ∧ forallb (apart_node c inF inL) (insert_afterend new m) = true.
Proof.
  intros Hnew Hm H.
  pose proof (apart_fallback_context c i inF inL m Hi Hm H) as ->.
  cbn [insert_beforebegin insert_afterend forallb].
  by rewrite H, (fresh_fallback_apart _ _ _ Hnew).
Qed.

Lemma insert_collect (new : node) (m : node) :
  fresh_fallback c new = true →
  collect_node (label_id c) m = [] →
  collect (label_id c) (insert_beforebegin new m) = []
  ∧ collect (label_id c) (insert_afterend new m) = [].
Proof.
  intros Hnew Hm. unfold insert_beforebegin, insert_afterend.
  rewrite !collect_cons, Hm, (fresh_fallback_collect _ _ Hnew). done.
Qed.

Lemma appendChild_apart (new : node) (m : node) (inF inL : bool) :
  fresh_fallback c new = true →
  node_id m = Some i → apart_node c inF inL m = true →
  forallb (apart_node c inF inL) (appendChild new m) = true.
Proof.
  intros Hnew Hm H.
  pose proof (apart_fallback_context c i inF inL m Hi Hm H) as ->.
  destruct m as [t j a h ks]. cbn [node_id] in Hm. subst j.
  cbn [appendChild forallb]. rewrite andb_true_r.
  apply (apart_node_own _ _ _ _ _ _ _ ks); [done|].
  rewrite apart_node_unfold in H. apply andb_true_iff in H as [_ H].
  apply forallb_app_true. split; [done|].
  cbn [id_in forallb]. rewrite (fallback_not_label _ _ Hi), andb_true_r.
  by apply fresh_fallback_apart.
Qed.

Lemma appendChild_collect (new : node) (m : node) :
  fresh_fallback c new = true →
  collect_node (label_id c) m = [] →
  collect (label_id c) (appendChild new m) = [].
Proof.
  intros Hnew. destruct m as [t j a h ks]. rewrite collect_node_unfold.
  cbn [appendChild]. rewrite collect_cons, collect_node_unfold.
  destruct (id_in (label_id c) j); [done|]. cbn [app]. intros Hks.
  rewrite collect_app, Hks, collect_cons.
  by rewrite (fresh_fallback_collect _ _ Hnew).
Qed.
End fallback_edits.

Lemma fallback_id_canvas (c : string) : fallback_id c c = true.
Proof. unfold fallback_id. by rewrite bool_decide_eq_true_2. Qed.

Lemma fallback_id_row (c name : string) :
  fallback_id c (c +:+ fallbackTableElId +:+ name) = true.
Proof.
  rewrite fallback_id_append. unfold fallback_suffix.
  rewrite startsWith_app. apply orb_true_r.
Qed.

Lemma fresh_fallback_own (c r : string) t a h ks :
  fallback_suffix r = true → r ≠ "" →
  forallb (fresh_fallback c) ks = true →
  fresh_fallback c (Node t (Some (c +:+ r)) a h ks) = true.
Proof.
  intros Hr Hne Hks. cbn [fresh_fallback].
  rewrite fallback_id_append, Hr, Hks.
  rewrite bool_decide_eq_false_2; [done|].
  by intros ?%append_eq_self.
Qed.

Lemma fresh_p_node (c : string) :
  fresh_fallback c (p_node (c +:+ fallbackDescId)) = true.
Proof. by apply fresh_fallback_own. Qed.

Lemma fresh_fallback_table (c : string) :
  fresh_fallback c (fallback_table c) = true.
Proof. by apply fresh_fallback_own. Qed.

Lemma fresh_fallback_container (c : string) (n : node) :
  fresh_fallback c n = true → fresh_fallback c (fallback_container c n) = true.
Proof.
  intros H. apply fresh_fallback_own; [done | done |].
  cbn [forallb]. by rewrite H.
Qed.

Lemma fresh_tableRow (c name : string) :
  fresh_fallback c (tableRow (c +:+ fallbackTableElId +:+ name)) = true.
Proof.
  apply fresh_fallback_own; [|by destruct name|done].
  unfold fallback_suffix. rewrite startsWith_app. apply orb_true_r.
Qed.

(** ** The visible-label region under calls in the other mode *)

Section keeps_label.
Context (c : string) (v : label_region).

Lemma keeps_setProp (s : string) (x : value) :
  s ≠ "labelDesc" → s ≠ labelContainer → s ≠ labelDescId →
  s ≠ labelTableId →
  preserves (keeps_label c v) (setProp (c +:+ s) x).
Proof.
  intros H1 H2 H3 H4 σ [Ha Hv]. split; [done|].
  rewrite <- Hv. unfold label_region_of. cbn [setProp snd dummy props
    labelElements document].
  rewrite !lookup_insert_ne; [done | intros ?%(inj _); done..].
Qed.

Lemma keeps_setFallbackElement (k inner : string) :
  preserves (keeps_label c v) (setFallbackElement k inner).
Proof. by intros σ [Ha Hv]. Qed.

Lemma keeps_document_edit (i : string) (f : node → list node) :
  fallback_id c i = true →
  (∀ m inF inL, node_id m = Some i → apart_node c inF inL m = true →
                forallb (apart_node c inF inL) (f m) = true) →
  (∀ m, node_id m = Some i → collect_node (label_id c) m = [] →
        collect (label_id c) (f m) = []) →
  preserves (keeps_label c v) (document_edit i f).
Proof.
  intros Hi Hf1 Hf2 σ [Ha Hv]. unfold document_edit.
  destruct (edit_first i f (document σ)) as [d|] eqn:E; [|done].
  split; cbn [snd document dummy].
  - by apply (edit_first_apart c i f Hf1 (document σ)).
  - rewrite <- Hv. unfold label_region_of. cbn [document dummy].
    by rewrite (edit_first_collect c i f Hi Hf2 (document σ) d).
Qed.

Lemma keeps_set_innerHTML (i text : string) :
  fallback_id c i = true →
  preserves (keeps_label c v) (document_edit i (set_innerHTML text)).
Proof.
  intros Hi. apply keeps_document_edit; [done|..].
  - intros. by apply set_innerHTML_apart.
  - intros. by apply set_innerHTML_collect.
Qed.

Lemma keeps_set_children (i : string) (new : list node) :
  fallback_id c i = true → forallb (fresh_fallback c) new = true →
  preserves (keeps_label c v) (document_edit i (set_children new)).
Proof.
  intros Hi Hnew. apply keeps_document_edit; [done|..].
  - intros. by apply (set_children_apart c i).
  - intros. by apply set_children_collect.
Qed.

Lemma keeps_insert_beforebegin (i : string) (new : node) :
  fallback_id c i = true → fresh_fallback c new = true →
  preserves (keeps_label c v) (document_edit i (insert_beforebegin new)).
Proof.
  intros Hi Hnew. apply keeps_document_edit; [done|..].
  - intros m inF inL Hm H.
    by destruct (insert_apart c i Hi new m inF inL Hnew Hm H).
  - intros m Hm H. by destruct (insert_collect c new m Hnew H).
Qed.

Lemma keeps_insert_afterend (i : string) (new : node) :
  fallback_id c i = true → fresh_fallback c new = true →
  preserves (keeps_label c v) (document_edit i (insert_afterend new)).
Proof.
  intros Hi Hnew. apply keeps_document_edit; [done|..].
  - intros m inF inL Hm H.
    by destruct (insert_apart c i Hi new m inF inL Hnew Hm H).
  - intros m Hm H. by destruct (insert_collect c new m Hnew H).
Qed.

Lemma keeps_appendChild (i : string) (new : node) :
  fallback_id c i = true → fresh_fallback c new = true →
  preserves (keeps_label c v) (document_edit i (appendChild new)).
Proof.
  intros Hi Hnew. apply keeps_document_edit; [done|..].
  - intros. by apply (appendChild_apart c i).
  - intros. by apply appendChild_collect.
Qed.
End keeps_label.

Ltac fallback_id_solve :=
  first [ apply fallback_id_canvas
        | apply fallback_id_row
        | rewrite fallback_id_append; reflexivity ].

Ltac fresh_solve :=
  repeat first
    [ apply fresh_p_node | apply fresh_fallback_table | apply fresh_tableRow
    | apply fresh_fallback_container
    | cbn [forallb]; apply andb_true_iff; split; [|reflexivity] ].

Ltac keeps_label_auto :=
  repeat first
    [ preserves_step
    | apply keeps_setFallbackElement
    | apply keeps_setProp; discriminate
    | apply keeps_set_innerHTML; fallback_id_solve
    | apply keeps_set_children; [fallback_id_solve | fresh_solve]
    | apply keeps_insert_beforebegin; [fallback_id_solve | fresh_solve]
    | apply keeps_insert_afterend; [fallback_id_solve | fresh_solve]
    | apply keeps_appendChild; [fallback_id_solve | fresh_solve] ].

Lemma keeps_describe_fallback (c : string) (v : label_region) (text : string) :
  preserves (keeps_label c v) (describe_fallback c text).
Proof.
  unfold describe_fallback, _describeFallbackHTML. keeps_label_auto.
Qed.

Lemma keeps_describeElement_fallback (c : string) (v : label_region)
    (name inner : string) :
  preserves (keeps_label c v) (describeElement_fallback c name inner).
Proof.
  unfold describeElement_fallback, _descElementFallbackHTML.
  keeps_label_auto.
Qed.

Lemma describe_label_other (I : state → Prop) (c text : string)
    (display : jsval) :
  display ≠ LABEL → preserves I (describe_label c text display).
Proof.
  intros Hd. unfold describe_label. apply preserves_bind.
  - apply preserves_getProp.
  - intros ld. rewrite (bool_decide_eq_false_2 _ Hd). apply preserves_ret.
Qed.

Lemma describeElement_label_other (I : state → Prop) (c name inner : string)
    (display : jsval) :
  display ≠ LABEL → preserves I (describeElement_label c name inner display).
Proof.
  intros Hd. unfold describeElement_label. apply preserves_bind.
  - apply preserves_getLabelElement.
  - intros e. rewrite (bool_decide_eq_false_2 _ Hd). apply preserves_ret.
Qed.

Lemma keeps_describe (c : string) (v : label_region) (text display : jsval) :
  display ≠ LABEL → preserves (keeps_label c v) (describe c text display).
Proof.
  intros Hd. unfold describe, _populateDummyDOM.
  repeat first
    [ apply keeps_describe_fallback
    | by apply describe_label_other
    | apply keeps_setProp; discriminate
    | preserves_step ].
Qed.

Lemma keeps_describeElement (c : string) (v : label_region)
    (name text display : jsval) :
  display ≠ LABEL →
  preserves (keeps_label c v) (describeElement c name text display).
Proof.
  intros Hd. unfold describeElement, _populateDummyDOM.
  repeat first
    [ apply keeps_describeElement_fallback
    | by apply describeElement_label_other
    | apply keeps_setProp; discriminate
    | preserves_step ].
Qed.

Section same_label_store.
Context (c : string) (σ0 : state).

Lemma label_store_setProp (s : string) (x : value) :
  s ≠ "labelDesc" → s ≠ labelContainer → s ≠ labelDescId →
  s ≠ labelTableId →
  preserves (same_label_store c σ0) (setProp (c +:+ s) x).
Proof.
  intros H1 H2 H3 H4 σ. unfold same_label_store, label_region_of.
  cbn [setProp snd dummy props labelElements labelText hasLabelContainer
       hasLabelParagraph hasLabelTable labelRows].
  by rewrite !lookup_insert_ne by (intros ?%(inj _); done).
Qed.

Lemma label_store_setFallbackElement (k inner : string) :
  preserves (same_label_store c σ0) (setFallbackElement k inner).
Proof. by intros σ. Qed.

Lemma label_store_document_edit (i : string) (f : node → list node) :
  preserves (same_label_store c σ0) (document_edit i f).
Proof.
  intros σ. unfold document_edit.
  by destruct (edit_first i f (document σ)).
Qed.
End same_label_store.

Lemma label_store_describe (c : string) (σ0 : state) (text display : jsval) :
  display ≠ LABEL →
  preserves (same_label_store c σ0) (describe c text display).
Proof.
  intros Hd. unfold describe, _populateDummyDOM.
  repeat first
    [ by apply describe_label_other
    | progress unfold describe_fallback, _describeFallbackHTML
    | preserves_step
    | apply label_store_document_edit
    | apply label_store_setProp; discriminate ].
Qed.

Lemma label_store_describeElement (c : string) (σ0 : state)
    (name text display : jsval) :
  display ≠ LABEL →
  preserves (same_label_store c σ0) (describeElement c name text display).
Proof.
  intros Hd. unfold describeElement, _populateDummyDOM.
  repeat first
    [ by apply describeElement_label_other
    | progress unfold describeElement_fallback, _descElementFallbackHTML
    | preserves_step
    | apply label_store_document_edit
    | apply label_store_setFallbackElement
    | apply label_store_setProp; discriminate ].
Qed.

(** In the model, [describe] and [describeElement] with a display mode
    other than [LABEL] (omitted, [FALLBACK] or anything else) leave what
    the store keeps for the visible-label region of the surface as it is,
    in every state: the label text, the flags of the label container,
    paragraph and table, and the label rows.  When the two regions of the
    surface are laid out apart in the document, as they are on every page
    of canvases and after every call on the surface or on a surface with
    an unrelated id, the calls also leave every node of the visible-label
    region as it is.  All this also when a label exists from an earlier
    call with [LABEL]. *)
Lemma other_mode_keeps_label_region (cnvId : string)
    (name text display : jsval) (σ : state) :
  display ≠ LABEL →
  same_label_store cnvId σ (after (Describe cnvId text display) σ)
  ∧ same_label_store cnvId σ
      (after (DescribeElement cnvId name text display) σ)
  ∧ (apart cnvId (document σ) = true →
     label_region_of cnvId (after (Describe cnvId text display) σ)
     = label_region_of cnvId σ
     ∧ label_region_of cnvId
         (after (DescribeElement cnvId name text display) σ)
       = label_region_of cnvId σ).
Proof.
  intros Hd. split_and!.
  - by apply (label_store_describe cnvId σ text display Hd σ).
  - by apply (label_store_describeElement cnvId σ name text display Hd σ).
  - intros Ha. split.
    + by apply (keeps_describe cnvId (label_region_of cnvId σ) text display
                  Hd σ).
    + by apply (keeps_describeElement cnvId (label_region_of cnvId σ)
                  name text display Hd σ).
Qed.

(** ** The layout is an invariant of the calls on a surface *)

Lemma label_not_canvas (c : string) : label_id c c = false.
Proof. apply fallback_not_label, fallback_id_canvas. Qed.

Lemma fresh_label_apart (c : string) (inL : bool) (n : node) :
  fresh_label c n = true → apart_node c false inL n = true.
Proof.
  revert inL. induction n as [t j a h ks IH] using node_forall_ind.
  intros inL. rewrite apart_node_unfold. cbn [fresh_label].
  intros [Hj Hks]%andb_true_iff.
  assert (id_in (fallback_id c) j = false) as Hf.
  { destruct j as [i|]; [|done]. by apply regions_disjoint. }
  rewrite Hf, !andb_false_r. cbn [andb negb orb].
  revert IH Hks. generalize (inL || id_in (label_id c) j).
  clear. intros b. induction ks as [|k ks IHks]; [done|].
  intros [Hk Hks]%Forall_cons [H1 H2]%andb_true_iff. cbn [forallb].
  rewrite (Hk _ H1). simpl. auto.
Qed.

Lemma apart_label_context (c i : string) (inF inL : bool) (m : node) :
  label_id c i = true ∨ i = c → node_id m = Some i →
  apart_node c inF inL m = true → inF = false.
Proof.
  intros Hi. destruct m as [t j a h ks]. cbn [node_id]. intros ->.
  rewrite apart_node_unfold. intros H.
  apply andb_true_iff in H as [H _]. apply andb_true_iff in H as [H H3].
  apply andb_true_iff in H as [H1 _]. cbn [id_in] in *.
  destruct Hi as [Hi | ->].
  - rewrite Hi in H1. by destruct inF.
  - rewrite bool_decide_eq_true_2 in H3 by done. by destruct inF.
Qed.

Section label_edits.
Context (c i : string) (Hi : label_id c i = true ∨ i = c).

Lemma label_insert_apart (new : node) (m : node) (inF inL : bool) :
  fresh_label c new = true →
  node_id m = Some i → apart_node c inF inL m = true →
  forallb (apart_node c inF inL) (insert_beforebegin new m) = true
  ∧ forallb (apart_node c inF inL) (insert_afterend new m) = true.
Proof.
  intros Hnew Hm H.
  pose proof (apart_label_context c i inF inL m Hi Hm H) as ->.
  cbn [insert_beforebegin insert_afterend forallb].
  by rewrite H, (fresh_label_apart _ _ _ Hnew).
Qed.

Lemma label_appendChild_apart (new : node) (m : node) (inF inL : bool) :
  label_id c i = true → fresh_label c new = true →
  node_id m = Some i → apart_node c inF inL m = true →
  forallb (apart_node c inF inL) (appendChild new m) = true.
Proof.
  intros Hl Hnew Hm H.
  pose proof (apart_label_context c i inF inL m Hi Hm H) as ->.
  destruct m as [t j a h ks]. cbn [node_id] in Hm. subst j.
  cbn [appendChild forallb]. rewrite andb_true_r.
  apply (apart_node_own _ _ _ _ _ _ _ ks); [done|].
  rewrite apart_node_unfold in H. apply andb_true_iff in H as [_ H].
  apply forallb_app_true. split; [done|].
  cbn [id_in forallb]. rewrite (regions_disjoint _ _ Hl), andb_true_r.
  by apply fresh_label_apart.
Qed.
End label_edits.

Lemma fresh_label_own (c r : string) t a h ks :
  label_suffix r = true → forallb (fresh_label c) ks = true →
  fresh_label c (Node t (Some (c +:+ r)) a h ks) = true.
Proof.
  intros Hr Hks. cbn [fresh_label]. by rewrite label_id_append, Hr, Hks.
Qed.

Lemma label_id_row (c name : string) :
  label_id c (c +:+ labelTableElId +:+ name) = true.
Proof.
  rewrite label_id_append. unfold label_suffix.
  rewrite startsWith_app. apply orb_true_r.
Qed.

Section laid_apart.
Context (c : string).

Lemma laid_apart_same_document (f : state → state) :
  (∀ σ, document (f σ) = document σ) →
  preserves (laid_apart c) (λ σ, (Return (), f σ)).
Proof. intros Hf σ Hσ. unfold laid_apart. cbn [snd]. by rewrite Hf. Qed.

Lemma laid_apart_document_edit (i : string) (f : node → list node) :
  (∀ m inF inL, node_id m = Some i → apart_node c inF inL m = true →
                forallb (apart_node c inF inL) (f m) = true) →
  preserves (laid_apart c) (document_edit i f).
Proof.
  intros Hf σ Hσ. unfold document_edit.
  destruct (edit_first i f (document σ)) as [d|] eqn:E; [|done].
  by apply (edit_first_apart c i f Hf (document σ)).
Qed.

Lemma laid_apart_set_innerHTML (i text : string) :
  preserves (laid_apart c) (document_edit i (set_innerHTML text)).
Proof.
  apply laid_apart_document_edit. intros. by apply set_innerHTML_apart.
Qed.

Lemma laid_apart_of_keeps {A : Type} (m : M A) :
  (∀ v, preserves (keeps_label c v) m) → preserves (laid_apart c) m.
Proof. intros H σ Hσ. by apply (H (label_region_of c σ) σ). Qed.

Lemma laid_apart_label_insert (i : string) (new : node) :
  label_id c i = true ∨ i = c → fresh_label c new = true →
  preserves (laid_apart c) (document_edit i (insert_beforebegin new))
  ∧ preserves (laid_apart c) (document_edit i (insert_afterend new)).
Proof.
  intros Hi Hnew. split; apply laid_apart_document_edit;
    intros m inF inL Hm H;
    by destruct (label_insert_apart c i Hi new m inF inL Hnew Hm H).
Qed.

Lemma laid_apart_label_appendChild (i : string) (new : node) :
  label_id c i = true → fresh_label c new = true →
  preserves (laid_apart c) (document_edit i (appendChild new)).
Proof.
  intros Hi Hnew. apply laid_apart_document_edit.
  intros m inF inL Hm H. apply (label_appendChild_apart c i); auto.
Qed.
End laid_apart.

Ltac label_id_solve :=
  first [ left; apply label_id_row
        | left; rewrite label_id_append; reflexivity
        | right; reflexivity
        | apply label_id_row
        | rewrite label_id_append; reflexivity ].

Ltac fresh_label_solve :=
  repeat first
    [ apply fresh_label_own;
      [ first [reflexivity
              | unfold label_suffix; rewrite startsWith_app; apply orb_true_r]
      | cbn [forallb] ]
    | apply andb_true_iff; split
    | reflexivity ].

Ltac laid_apart_auto :=
  repeat first
    [ preserves_step
    | apply laid_apart_set_innerHTML
    | by apply laid_apart_same_document
    | apply laid_apart_label_insert; [label_id_solve | fresh_label_solve]
    | apply laid_apart_label_appendChild;
        [label_id_solve | fresh_label_solve] ].

Lemma laid_apart_describe_label (c text : string) (display : jsval) :
  preserves (laid_apart c) (describe_label c text display).
Proof.
  unfold describe_label, _describeLabelHTML, label_container, p_node.
  laid_apart_auto.
Qed.

Lemma laid_apart_describeElement_label (c name inner : string)
    (display : jsval) :
  preserves (laid_apart c) (describeElement_label c name inner display).
Proof.
  unfold describeElement_label, _descElementLabelHTML, label_container,
    label_table, tableRow, setLabelElement.
  laid_apart_auto.
Qed.

Lemma laid_apart_describe (c : string) (text display : jsval) :
  preserves (laid_apart c) (describe c text display).
Proof.
  unfold describe, _populateDummyDOM.
  repeat first
    [ apply laid_apart_describe_label
    | apply laid_apart_of_keeps; intros ?; apply keeps_describe_fallback
    | by apply laid_apart_same_document
    | preserves_step ].
Qed.

Lemma laid_apart_describeElement (c : string) (name text display : jsval) :
  preserves (laid_apart c) (describeElement c name text display).
Proof.
  unfold describeElement, _populateDummyDOM.
  repeat first
    [ apply laid_apart_describeElement_label
    | apply laid_apart_of_keeps; intros ?;
      apply keeps_describeElement_fallback
    | by apply laid_apart_same_document
    | preserves_step ].
Qed.

Lemma apart_page (c : string) (ids : list string) : apart c (page ids) = true.
Proof.
  unfold apart, page. induction ids as [|i ids IH]; [done|].
  cbn [map forallb]. rewrite IH, andb_true_r.
  unfold canvas. rewrite apart_node_unfold. by rewrite !andb_false_r.
Qed.

Lemma startsWith_nil (s : string) : startsWith s "" = true.
Proof. by destruct s. Qed.

Lemma startsWith_append_inv (c' s c : string) :
  startsWith (c' +:+ s) c = true →
  startsWith c' c = true ∨ startsWith c c' = true.
Proof.
  revert c. induction c' as [|a c' IH]; intros c.
  - intros _. right. apply startsWith_nil.
  - destruct c as [|b c]; [by left|].
    cbn [String.append startsWith].
    intros [Hb H]%andb_true_iff. apply bool_decide_eq_true in Hb as ->.
    rewrite !bool_decide_eq_true_2 by done. cbn [andb]. by apply IH.
Qed.

Lemma unrelated_startsWith (c c' s : string) :
  unrelated c c' = true → startsWith (c' +:+ s) c = false.
Proof.
  intros [H1 H2]%andb_true_iff.
  destruct (startsWith (c' +:+ s) c) eqn:E; [|done].
  apply startsWith_append_inv in E as [E | E]; rewrite E in *; done.
Qed.

Lemma foreign_ids (c i : string) :
  startsWith i c = false →
  fallback_id c i = false ∧ label_id c i = false ∧ i ≠ c.
Proof.
  intros H. split_and!.
  - destruct (fallback_id c i) eqn:E; [|done].
    apply fallback_id_inv in E as (r & -> & _).
    by rewrite startsWith_app in H.
  - destruct (label_id c i) eqn:E; [|done].
    apply label_id_inv in E as (r & -> & _).
    by rewrite startsWith_app in H.
  - intros ->. rewrite <- (append_nil_r c) in H at 1.
    by rewrite startsWith_app in H.
Qed.

Lemma foreign_apart (c : string) (inF inL : bool) (n : node) :
  foreign c n = true → apart_node c inF inL n = true.
Proof.
  revert inF inL. induction n as [t j a h ks IH] using node_forall_ind.
  intros inF inL. rewrite apart_node_unfold. cbn [foreign].
  intros [Hj Hks]%andb_true_iff.
  assert (id_in (fallback_id c) j = false ∧ id_in (label_id c) j = false
          ∧ bool_decide (j = Some c) = false) as (Hf & Hl & Hc).
  { destruct j as [i|]; [|by rewrite bool_decide_eq_false_2].
    apply negb_true_iff, foreign_ids in Hj as (? & ? & ?).
    split_and!; [done..|]. rewrite bool_decide_eq_false_2; congruence. }
  rewrite Hf, Hl, Hc, !orb_false_r. cbn [andb negb].
  revert IH Hks. clear. induction ks as [|k ks IHks]; [done|].
  intros [Hk Hks]%Forall_cons [H1 H2]%andb_true_iff. cbn [forallb].
  rewrite (Hk _ _ H1). simpl. auto.
Qed.

Lemma foreign_forest_apart (c : string) (inF inL : bool) (ns : list node) :
  forallb (foreign c) ns = true → forallb (apart_node c inF inL) ns = true.
Proof.
  induction ns as [|n ns IH]; [done|]. cbn [forallb].
  intros [H1 H2]%andb_true_iff. by rewrite (foreign_apart _ _ _ _ H1), IH.
Qed.

Section foreign_edits.
Context (c : string).

Lemma laid_apart_foreign_children (i : string) (new : list node) :
  forallb (foreign c) new = true →
  preserves (laid_apart c) (document_edit i (set_children new)).
Proof.
  intros Hnew. apply laid_apart_document_edit.
  intros [t j a h ks] inF inL _ H. cbn [set_children forallb].
  rewrite andb_true_r. apply (apart_node_own _ _ _ _ _ _ _ ks); [done|].
  by apply foreign_forest_apart.
Qed.

Lemma laid_apart_foreign_insert (i : string) (new : node) :
  foreign c new = true →
  preserves (laid_apart c) (document_edit i (insert_beforebegin new))
  ∧ preserves (laid_apart c) (document_edit i (insert_afterend new)).
Proof.
  intros Hnew. split; apply laid_apart_document_edit;
    intros m inF inL _ H;
    cbn [insert_beforebegin insert_afterend forallb];
    by rewrite H, (foreign_apart _ _ _ _ Hnew).
Qed.

Lemma laid_apart_foreign_appendChild (i : string) (new : node) :
  foreign c new = true →
  preserves (laid_apart c) (document_edit i (appendChild new)).
Proof.
  intros Hnew. apply laid_apart_document_edit.
  intros [t j a h ks] inF inL _ H. cbn [appendChild forallb].
  rewrite andb_true_r. apply (apart_node_own _ _ _ _ _ _ _ ks); [done|].
  rewrite apart_node_unfold in H. apply andb_true_iff in H as [_ H].
  apply forallb_app_true. split; [done|]. cbn [forallb].
  by rewrite (foreign_apart _ _ _ _ Hnew).
Qed.
End foreign_edits.

Lemma foreign_own (c c' s : string) t a h ks :
  unrelated c c' = true → forallb (foreign c) ks = true →
  foreign c (Node t (Some (c' +:+ s)) a h ks) = true.
Proof.
  intros Hu Hks. cbn [foreign]. by rewrite (unrelated_startsWith _ _ _ Hu), Hks.
Qed.

Ltac foreign_solve Hu :=
  unfold fallback_container, label_container, fallback_table, label_table,
    p_node, tableRow;
  repeat first
    [ apply (foreign_own _ _ _ _ _ _ _ Hu)
    | cbn [forallb foreign]; reflexivity
    | cbn [forallb]; apply andb_true_iff; split ].

Ltac laid_apart_foreign_auto Hu :=
  repeat first
    [ preserves_step
    | apply laid_apart_set_innerHTML
    | by apply laid_apart_same_document
    | apply laid_apart_foreign_children; foreign_solve Hu
    | apply laid_apart_foreign_insert; foreign_solve Hu
    | apply laid_apart_foreign_appendChild; foreign_solve Hu ].

Lemma laid_apart_describe_unrelated (c c' : string) (text display : jsval) :
  unrelated c c' = true →
  preserves (laid_apart c) (describe c' text display).
Proof.
  intros Hu. unfold describe, describe_fallback, describe_label,
    _describeFallbackHTML, _describeLabelHTML, _populateDummyDOM.
  laid_apart_foreign_auto Hu.
Qed.

Lemma laid_apart_describeElement_unrelated (c c' : string)
    (name text display : jsval) :
  unrelated c c' = true →
  preserves (laid_apart c) (describeElement c' name text display).
Proof.
  intros Hu. unfold describeElement, describeElement_fallback,
    describeElement_label, _descElementFallbackHTML, _descElementLabelHTML,
    _populateDummyDOM, setFallbackElement, setLabelElement.
  laid_apart_foreign_auto Hu.
Qed.

(** In the model, from a document in which the two regions of a surface
    are apart, a page of canvases for one, every sequence of resets and of
    calls on the surface or on surfaces with unrelated ids leads to a
    document in which they are apart: no node of the visible-label region
    ever lies inside the canvas or the accessible-only region, or the
    other way round. *)
Lemma laid_apart_run (c : string) (doc : list node) (cs : list call) :
  apart c doc = true → forallb (on_surface_or_unrelated c) cs = true →
  apart c (document (run cs (initial doc))) = true.
Proof.
  intros Hdoc Hcs. apply (run_invariant (laid_apart c)); [|done].
  intros k Hk.
  assert (on_surface_or_unrelated c k = true) as Hon.
  { rewrite forallb_forall in Hcs. apply Hcs. by apply list_elem_of_In. }
  destruct k as [c' t d | c' n t d |]; cbn [on_surface_or_unrelated] in Hon;
    cbn [run_call]; [..|by intros σ Hσ];
    apply orb_true_iff in Hon as [->%bool_decide_eq_true | Hu].
  - apply laid_apart_describe.
  - by apply laid_apart_describe_unrelated.
  - apply laid_apart_describeElement.
  - by apply laid_apart_describeElement_unrelated.
Qed.

(** ** Repeating a call *)

Lemma has_id_node_unfold (i : string) t j a h ks :
  has_id_node i (Node t j a h ks) = bool_decide (j = Some i) || has_id i ks.
Proof. reflexivity. Qed.

Lemma has_id_cons (i : string) (n : node) (ns : list node) :
  has_id i (n :: ns) = has_id_node i n || has_id i ns.
Proof. reflexivity. Qed.

Lemma has_id_app (i : string) (l1 l2 : list node) :
  has_id i (l1 ++ l2) = has_id i l1 || has_id i l2.
Proof. apply existsb_app. Qed.

(** An edit finds its element exactly when some element has the id. *)
Lemma edit_node_found (i : string) (f : node → list node) (n : node) :
  (if edit_node i f n is Some _ then true else false) = has_id_node i n.
Proof.
  induction n as [t j a h ks IH] using node_forall_ind.
  rewrite edit_node_unfold, has_id_node_unfold.
  destruct (decide (j = Some i)) as [-> | Hj].
  - by rewrite bool_decide_eq_true_2.
  - rewrite bool_decide_eq_false_2 by done. cbn [orb].
    assert ((if edit_first i f ks is Some _ then true else false)
            = has_id i ks) as <-.
    { induction ks as [|k ks IHks]; [done|].
      apply Forall_cons in IH as [Hk Hks]. specialize (IHks Hks).
      rewrite has_id_cons, <- Hk, <- IHks. cbn [edit_first].
      destruct (edit_node i f k); [done|].
      by destruct (edit_first i f ks). }
    by destruct (edit_first i f ks).
Qed.

Lemma edit_first_found (i : string) (f : node → list node) (ns : list node) :
  (if edit_first i f ns is Some _ then true else false) = has_id i ns.
Proof.
  induction ns as [|n ns IH]; [done|].
  rewrite has_id_cons, <- edit_node_found with (f := f), <- IH.
  cbn [edit_first]. destruct (edit_node i f n); [done|].
  by destruct (edit_first i f ns).
Qed.

Lemma edit_first_Some (i : string) (f : node → list node) (ns : list node) :
  has_id i ns = true → ∃ r, edit_first i f ns = Some r.
Proof.
  rewrite <- (edit_first_found i f). destruct (edit_first i f ns); [|done].
  by eexists.
Qed.

Lemma edit_first_has_target (i : string) (f : node → list node)
    (ns r : list node) :
  edit_first i f ns = Some r → has_id i ns = true.
Proof. rewrite <- (edit_first_found i f). by intros ->. Qed.

(** After an edit an id is there when the edit puts it there, and absent
    when it was absent and the edit does not bring it. *)
Lemma edit_node_has_id (i x : string) (f : node → list node) :
  (∀ m, node_id m = Some i → has_id x (f m) = true) →
  ∀ n r, edit_node i f n = Some r → has_id x r = true.
Proof.
  intros Hf. induction n as [t j a h ks IH] using node_forall_ind.
  intros r. rewrite edit_node_unfold.
  destruct (decide (j = Some i)) as [-> | Hj].
  - rewrite bool_decide_eq_true_2 by done. intros [= <-]. by apply Hf.
  - rewrite bool_decide_eq_false_2 by done.
    destruct (edit_first i f ks) as [ks'|] eqn:E; [|done]. intros [= <-].
    rewrite has_id_cons, has_id_node_unfold.
    apply edit_first_cases in E as (l1 & m & l2 & r' & -> & Hm & -> & _).
    apply Forall_app in IH as [_ [IHm _]%Forall_cons].
    rewrite !has_id_app, (IHm _ Hm). by rewrite !orb_true_r.
Qed.

Lemma edit_first_has_id (i x : string) (f : node → list node) :
  (∀ m, node_id m = Some i → has_id x (f m) = true) →
  ∀ ns r, edit_first i f ns = Some r → has_id x r = true.
Proof.
  intros Hf ns r (l1 & m & l2 & r' & -> & Hm & -> & _)%edit_first_cases.
  rewrite !has_id_app, (edit_node_has_id i x f Hf m r' Hm).
  by rewrite !orb_true_r.
Qed.

Lemma edit_node_no_id (i x : string) (f : node → list node) :
  (∀ m, has_id_node x m = false → has_id x (f m) = false) →
  ∀ n r, edit_node i f n = Some r → has_id_node x n = false →
         has_id x r = false.
Proof.
  intros Hf. induction n as [t j a h ks IH] using node_forall_ind.
  intros r. rewrite edit_node_unfold.
  destruct (decide (j = Some i)) as [-> | Hj].
  - rewrite bool_decide_eq_true_2 by done. intros [= <-]. by apply Hf.
  - rewrite bool_decide_eq_false_2 by done.
    destruct (edit_first i f ks) as [ks'|] eqn:E; [|done]. intros [= <-].
    rewrite has_id_cons, !has_id_node_unfold, orb_false_r.
    intros [Hx Hks]%orb_false_iff. rewrite Hx. cbn [orb].
    apply edit_first_cases in E as (l1 & m & l2 & r' & -> & Hm & -> & _).
    apply Forall_app in IH as [_ [IHm _]%Forall_cons].
    rewrite has_id_app, has_id_cons in Hks.
    apply orb_false_iff in Hks as [H1 [H2 H3]%orb_false_iff].
    by rewrite !has_id_app, H1, H3, (IHm _ Hm H2).
Qed.

Lemma edit_first_no_id (i x : string) (f : node → list node) :
  (∀ m, has_id_node x m = false → has_id x (f m) = false) →
  ∀ ns r, edit_first i f ns = Some r → has_id x ns = false →
          has_id x r = false.
Proof.
  intros Hf ns r (l1 & m & l2 & r' & -> & Hm & -> & _)%edit_first_cases.
  rewrite has_id_app, has_id_cons.
  intros [H1 [H2 H3]%orb_false_iff]%orb_false_iff.
  by rewrite !has_id_app, H1, H3, (edit_node_no_id i x f Hf m r' Hm H2).
Qed.

Ltac key_ne := intros ?%(inj _); discriminate.

(** One step of running a call on a state: unfold a bind or a primitive,
    read through the writes, use what is known of the state. *)
Ltac mstep :=
  first
    [ rewrite bind_unfold
    | progress unfold document_edit
    | progress cbn [getProp setProp getFallbackElement setFallbackElement
                    getLabelElement setLabelElement mret M_ret throw lift
                    document_has getElementById_found
                    dummy props fallbackElements labelElements document
                    fst snd negb andb orb]
    | rewrite lookup_insert_eq
    | rewrite lookup_insert_ne by key_ne
    | progress change (truthy (Some VTrue)) with true
    | match goal with
      | H : ?m !! ?k = _ |- context [?m !! ?k] => rewrite H
      | H : truthy ?x = _ |- context [truthy ?x] => rewrite H
      | H : truthy_row ?x = _ |- context [truthy_row ?x] => rewrite H
      | H : has_id ?i ?d = _ |- context [has_id ?i ?d] => rewrite H
      | H : edit_first ?i ?f ?d = _ |- context [edit_first ?i ?f ?d] =>
          rewrite H
      end ].
Ltac mrun := repeat mstep.

(** The element an edit is aimed at is found. *)
Ltac edit_found E :=
  lazymatch goal with
  | |- context [edit_first ?i ?f ?d] =>
      let r := fresh "d" in
      destruct (edit_first_Some i f d) as [r E]; [|rewrite E]
  end.

(** Either outcome of an edit. *)
Ltac edit_cases d E :=
  lazymatch goal with
  | |- context [edit_first ?i ?f ?doc] =>
      destruct (edit_first i f doc) as [d|] eqn:E
  end.

Lemma has_id_p_node (x : string) (ns : list node) :
  has_id x (p_node x :: ns) = true.
Proof. rewrite has_id_cons. cbn. by rewrite bool_decide_eq_true_2. Qed.

(** The accessible-only part of [describe] either throws and leaves the
    state as it was, or returns in a state in which it has nothing more to
    do. *)
Lemma describe_fallback_result (c t : string) (σ : state) :
  match describe_fallback c t σ with
  | (Throw _, σ') => σ' = σ
  | (Return _, σ') => fallback_settled c t σ'
  end.
Proof.
  destruct σ as [[pr fe le] doc]. unfold describe_fallback, fallback_settled.
  mrun. case_bool_decide as Hd; mrun.
  2:{ left. by destruct (decide (pr !! (c +:+ "fallbackDesc")
                                 = Some (VString t))). }
  destruct (truthy (pr !! (c +:+ "updateFallbackDesc"))) eqn:Hu.
  { unfold querySelector_edit, theDOM. mrun.
    destruct (pr !! (c +:+ "DOM")) as [[]|] eqn:HD; mrun; try done.
    edit_cases d E; mrun; [|done]. by left. }
  unfold _describeFallbackHTML, querySelector_edit, querySelector_found,
    theDOM. mrun.
  destruct (truthy (pr !! (c +:+ descContainer))) eqn:Hc; mrun.
  - destruct (truthy (pr !! (c +:+ fallbackTableId))) eqn:Htb; mrun.
    + destruct (pr !! (c +:+ "DOM")) as [[]|] eqn:HD; mrun; try done.
      edit_cases d E; mrun; [|done].
      assert (has_id (c +:+ fallbackDescId) d = true) as Hp.
      { apply (edit_first_has_id _ _ _ (λ m _, has_id_p_node _ _) _ _ E). }
      mrun. edit_found E'; [done|]. mrun. by left.
    + destruct (pr !! (c +:+ "DOM")) as [[]|] eqn:HD; mrun; try done.
      destruct (has_id (c +:+ fallbackDescId) doc) eqn:Hp; mrun.
      * edit_found E'; [done|]. mrun. by left.
      * by right.
  - destruct (pr !! (c +:+ "DOM")) as [[]|] eqn:HD; mrun; try done.
    edit_cases d E; mrun; [|done].
    assert (has_id (c +:+ fallbackDescId) d = true) as Hp.
    { eapply edit_first_has_id; [|exact E].
      intros [t' j a h ks] _. unfold set_children, fallback_container.
      rewrite has_id_cons, has_id_node_unfold, has_id_cons,
        has_id_node_unfold, has_id_p_node. by rewrite !orb_true_r. }
    mrun. edit_found E'; [done|]. mrun. by left.
Qed.

(** In such a state it returns and changes nothing. *)
Lemma fallback_settled_no_op (c t : string) (σ : state) :
  fallback_settled c t σ → describe_fallback c t σ = (Return (), σ).
Proof.
  destruct σ as [[pr fe le] doc]. unfold fallback_settled.
  cbn [dummy props document].
  intros [H | (H1 & H2 & H3 & H4 & H5)]; unfold describe_fallback; mrun.
  - by rewrite bool_decide_eq_false_2 by (by intros []).
  - case_bool_decide; [|done].
    unfold _describeFallbackHTML, querySelector_found, theDOM. by mrun.
Qed.

Lemma has_id_label_container_p (c : string) (ns : list node) :
  has_id (c +:+ labelDescId)
    (label_container c (p_node (c +:+ labelDescId)) :: ns) = true.
Proof.
  unfold label_container.
  rewrite has_id_cons, has_id_node_unfold, has_id_p_node.
  by rewrite !orb_true_r.
Qed.

(** The same for the visible-label part of [describe]. *)
Lemma describe_label_result (c t : string) (display : jsval) (σ : state) :
  match describe_label c t display σ with
  | (Throw _, σ') => σ' = σ
  | (Return _, σ') => label_settled c t display σ'
  end.
Proof.
  destruct σ as [[pr fe le] doc]. unfold describe_label, label_settled.
  mrun. destruct (decide (display = LABEL)) as [-> | Hd].
  2:{ rewrite (bool_decide_eq_false_2 _ Hd). mrun. by left. }
  rewrite (bool_decide_eq_true_2 _ eq_refl). mrun.
  case_bool_decide as Hl; mrun.
  2:{ right. by destruct (decide (pr !! (c +:+ "labelDesc")
                                  = Some (VString t))). }
  destruct (truthy (pr !! (c +:+ labelDescId))) eqn:Hp.
  { unfold querySelector_edit, theDOM. mrun.
    destruct (pr !! (c +:+ "DOM")) as [[]|] eqn:HD; mrun; try done.
    edit_cases d E; mrun; [|done]. by right. }
  unfold _describeLabelHTML, querySelector_edit, theDOM. mrun.
  destruct (truthy (pr !! (c +:+ labelContainer))) eqn:Hc; mrun.
  - destruct (truthy (pr !! (c +:+ labelTableId))) eqn:Htb; mrun.
    + destruct (pr !! (c +:+ "DOM")) as [[]|] eqn:HD; mrun; try done.
      edit_cases d E; mrun; [|done].
      edit_found E'; [|mrun; by right].
      apply (edit_first_has_id _ _ _ (λ m _, has_id_p_node _ _) _ _ E).
    + destruct (pr !! (c +:+ "DOM")) as [[]|] eqn:HD; mrun; try done.
      edit_cases d E; mrun; [|done]. by right.
  - destruct (pr !! (c +:+ "DOM")) as [[]|] eqn:HD; mrun; try done.
    edit_cases d E; mrun; [|done].
    edit_found E'; [|mrun; by right].
    eapply edit_first_has_id; [|exact E].
    intros m _. unfold insert_afterend. rewrite has_id_cons.
    by rewrite has_id_label_container_p, orb_true_r.
Qed.

Lemma label_settled_no_op (c t : string) (display : jsval) (σ : state) :
  label_settled c t display σ →
  describe_label c t display σ = (Return (), σ).
Proof.
  destruct σ as [[pr fe le] doc]. unfold label_settled, describe_label.
  cbn [dummy props]. intros [H | H]; mrun.
  - by rewrite (bool_decide_eq_false_2 _ H).
  - rewrite (bool_decide_eq_false_2 (_ ≠ _)) by (by intros []).
    by rewrite andb_false_r.
Qed.

Lemma bool_decide_id_append (c r s : string) :
  bool_decide (Some (c +:+ r) = Some (c +:+ s)) = bool_decide (r = s).
Proof.
  apply bool_decide_ext. split; [intros [= H]; by apply (inj _) in H|].
  by intros ->.
Qed.

Lemma set_innerHTML_no_id (x text : string) (m : node) :
  has_id_node x m = false → has_id x (set_innerHTML text m) = false.
Proof.
  destruct m as [t j a h ks]. rewrite has_id_node_unfold.
  intros [H _]%orb_false_iff. unfold set_innerHTML.
  by rewrite has_id_cons, has_id_node_unfold, H.
Qed.

Lemma insert_no_id (x : string) (new m : node) :
  has_id_node x new = false → has_id_node x m = false →
  has_id x (insert_beforebegin new m) = false
  ∧ has_id x (insert_afterend new m) = false.
Proof.
  intros H1 H2. unfold insert_beforebegin, insert_afterend.
  by rewrite !has_id_cons, H1, H2.
Qed.

Lemma appendChild_no_id (x : string) (new m : node) :
  has_id_node x new = false → has_id_node x m = false →
  has_id x (appendChild new m) = false.
Proof.
  destruct m as [t j a h ks]. rewrite has_id_node_unfold.
  intros H1 [H2 H3]%orb_false_iff. unfold appendChild.
  rewrite has_id_cons, has_id_node_unfold, has_id_app, has_id_cons.
  by rewrite H1, H2, H3.
Qed.

Section settled.
Context (c t : string).

Lemma settled_setProp (s : string) (v : value) :
  s ≠ "fallbackDesc" → s ≠ "updateFallbackDesc" → s ≠ descContainer →
  s ≠ fallbackTableId → s ≠ "DOM" →
  preserves (fallback_settled c t) (setProp (c +:+ s) v).
Proof.
  intros H1 H2 H3 H4 H5 σ. unfold fallback_settled.
  cbn [setProp snd dummy props document].
  by rewrite !lookup_insert_ne by (intros ?%(inj _); done).
Qed.

Lemma settled_setLabelElement (k inner : string) :
  preserves (fallback_settled c t) (setLabelElement k inner).
Proof. by intros σ. Qed.

Lemma settled_document_edit (i : string) (f : node → list node) :
  (∀ m, has_id_node (c +:+ fallbackDescId) m = false →
        has_id (c +:+ fallbackDescId) (f m) = false) →
  preserves (fallback_settled c t) (document_edit i f).
Proof.
  intros Hf σ. unfold fallback_settled, document_edit.
  destruct (edit_first i f (document σ)) as [d|] eqn:E; [|done].
  cbn [snd dummy document].
  intros [H | (H1 & H2 & H3 & H4 & H5)]; [by left | right].
  by rewrite (edit_first_no_id _ _ _ Hf _ _ E H5).
Qed.

Lemma settled_set_innerHTML (i text : string) :
  preserves (fallback_settled c t) (document_edit i (set_innerHTML text)).
Proof.
  apply settled_document_edit. intros m. apply set_innerHTML_no_id.
Qed.

Lemma settled_insert (i : string) (new : node) :
  has_id_node (c +:+ fallbackDescId) new = false →
  preserves (fallback_settled c t) (document_edit i (insert_beforebegin new))
  ∧ preserves (fallback_settled c t)
      (document_edit i (insert_afterend new)).
Proof.
  intros Hnew. split; apply settled_document_edit; intros m Hm;
    by destruct (insert_no_id _ new m Hnew Hm).
Qed.

Lemma settled_appendChild (i : string) (new : node) :
  has_id_node (c +:+ fallbackDescId) new = false →
  preserves (fallback_settled c t) (document_edit i (appendChild new)).
Proof.
  intros Hnew. apply settled_document_edit. intros m.
  by apply appendChild_no_id.
Qed.
End settled.

Ltac no_id_solve :=
  unfold label_container, label_table, p_node, tableRow;
  cbn [has_id_node existsb orb];
  rewrite ?bool_decide_id_append; reflexivity.

Ltac settled_auto :=
  repeat first
    [ preserves_step
    | apply settled_set_innerHTML
    | apply settled_setLabelElement
    | apply settled_setProp; discriminate
    | apply settled_insert; no_id_solve
    | apply settled_appendChild; no_id_solve ].

(** The visible-label part does not give the accessible-only part
    anything to do again. *)
Lemma settled_describe_label (c t t' : string) (display : jsval) :
  preserves (fallback_settled c t) (describe_label c t' display).
Proof. unfold describe_label, _describeLabelHTML. settled_auto. Qed.

Lemma populated_setProp (c s : string) (v : value) :
  s ≠ "DOM" → truthy (Some v) = true →
  preserves (populated c) (setProp (c +:+ s) v).
Proof.
  intros Hs Hv σ. unfold populated. cbn [setProp snd dummy props].
  rewrite (lookup_insert_ne _ (c +:+ s) (c +:+ "DOM"))
    by (intros ?%(inj _); done).
  intros [H | [H1 H2]]; [by left | right].
  rewrite !lookup_insert. split; case_decide; done.
Qed.

Lemma populated_document_edit (c i : string) (f : node → list node) :
  preserves (populated c) (document_edit i f).
Proof.
  intros σ. unfold document_edit.
  by destruct (edit_first i f (document σ)).
Qed.

Lemma truthy_text (t : string) : t ≠ "" → truthy (Some (VString t)) = true.
Proof. intros H. cbn. by rewrite bool_decide_eq_false_2. Qed.

Ltac populated_auto :=
  repeat first
    [ preserves_step
    | apply populated_document_edit
    | apply populated_setProp; [discriminate | first [reflexivity | by apply truthy_text]] ].

Lemma populated_describe_fallback (c t : string) :
  t ≠ "" → preserves (populated c) (describe_fallback c t).
Proof.
  intros Ht. unfold describe_fallback, _describeFallbackHTML. populated_auto.
Qed.

Lemma populated_describe_label (c t : string) (display : jsval) :
  t ≠ "" → preserves (populated c) (describe_label c t display).
Proof.
  intros Ht. unfold describe_label, _describeLabelHTML. populated_auto.
Qed.

(** [describe] on a string, as its three steps. *)
Lemma describe_body (c text : string) (display : jsval) (σ : state) :
  describe c (JString text) display σ
  = match _descriptionText text with
    | Return t =>
        match describe_fallback c t (populate_if_needed c σ) with
        | (Return _, σ1) => describe_label c t display σ1
        | (Throw e, σ1) => (Throw e, σ1)
        end
    | Throw e => (Throw e, σ)
    end.
Proof.
  rewrite describe_string. destruct (_descriptionText text) as [t|e]; [|done].
  unfold populate_if_needed. mrun.
  destruct (negb _ || negb _); unfold _populateDummyDOM; by mrun.
Qed.

Lemma populate_if_needed_populated (c : string) (σ : state) :
  populated c (populate_if_needed c σ).
Proof.
  unfold populate_if_needed, populated.
  destruct (truthy (props (dummy σ) !! (c +:+ "fallbackDesc"))) eqn:H1,
    (truthy (props (dummy σ) !! (c +:+ "labelDesc"))) eqn:H2;
    cbn [negb orb]; [by right | left..];
    unfold _populateDummyDOM; cbn [setProp snd dummy props];
    apply lookup_insert_eq.
Qed.

Lemma populated_no_op (c : string) (σ : state) :
  populated c σ → populate_if_needed c σ = σ.
Proof.
  destruct σ as [[pr fe le] doc]. unfold populated, populate_if_needed.
  cbn [dummy props]. intros [H | [-> ->]]; [|done].
  destruct (negb _ || negb _); [|done].
  unfold _populateDummyDOM. cbn [setProp snd dummy props fallbackElements
    labelElements document].
  by rewrite insert_id.
Qed.

Lemma descriptionText_nonempty (text t : string) :
  _descriptionText text = Return t → t ≠ "".
Proof. intros H%descriptionText_ends_sentence ->. done. Qed.

(** In the model, publishing a description twice in a row: whatever the
    state, the surfaces in it and the arguments, and whether the first
    call returns or throws, the second call leaves the store and the
    document as the first left them. *)
Lemma describe_twice (c : string) (text display : jsval) (σ : state) :
  after (Describe c text display) (after (Describe c text display) σ)
  = after (Describe c text display) σ.
Proof.
  unfold after. cbn [run_call].
  destruct text as [| | | |text|]; try done.
  rewrite !describe_body.
  destruct (_descriptionText text) as [t|e] eqn:Et; [|done].
  pose proof (descriptionText_nonempty _ _ Et) as Ht.
  pose proof (populate_if_needed_populated c σ) as Hp.
  set (σ0 := populate_if_needed c σ) in *.
  pose proof (describe_fallback_result c t σ0) as Hf.
  pose proof (populated_describe_fallback c t Ht σ0 Hp) as Hp1.
  destruct (describe_fallback c t σ0) as [[[]|e] σ1] eqn:Ef;
    cbn [snd] in *.
  - pose proof (describe_label_result c t display σ1) as Hl.
    pose proof (populated_describe_label c t display Ht σ1 Hp1) as Hp2.
    pose proof (settled_describe_label c t t display σ1 Hf) as Hf2.
    destruct (describe_label c t display σ1) as [[[]|e] σ2] eqn:El;
      cbn [snd] in *.
    + rewrite (populated_no_op _ _ Hp2), (fallback_settled_no_op _ _ _ Hf2).
      by rewrite (label_settled_no_op _ _ _ _ Hl).
    + subst σ2.
      rewrite (populated_no_op _ _ Hp1), (fallback_settled_no_op _ _ _ Hf).
      by rewrite El.
  - subst σ1. rewrite (populated_no_op _ _ Hp). by rewrite Ef.
Qed.

Lemma has_id_node_own (x : string) t a h ks :
  has_id_node x (Node t (Some x) a h ks) = true.
Proof. rewrite has_id_node_unfold. by rewrite bool_decide_eq_true_2. Qed.

Lemma has_id_appendChild (x : string) (m : node) :
  has_id x (appendChild (tableRow x) m) = true.
Proof.
  destruct m as [t j a h ks]. unfold appendChild, tableRow.
  rewrite has_id_cons, has_id_node_unfold, has_id_app, has_id_cons.
  by rewrite has_id_node_own, !orb_true_r.
Qed.

(** The accessible-only part of [describeElement], when it returns, ends in
    a state in which it has nothing more to do.  (It can throw after it has
    replaced the stored row, at the update in place of a row that is not
    in the document.) *)
Lemma describeElement_fallback_result (c k inner : string) (σ : state) :
  match describeElement_fallback c k inner σ with
  | (Return _, σ') => fallbackRow_settled c k inner σ'
  | (Throw _, _) => True
  end.
Proof.
  destruct σ as [[pr fe le] doc].
  unfold describeElement_fallback, fallbackRow_settled.
  mrun. case_bool_decide as Hd; mrun.
  2:{ left. by destruct (decide (fe !! (c +:+ k) = Some inner)). }
  destruct (truthy_row (fe !! (c +:+ k))) eqn:He; mrun.
  { unfold querySelector_edit, theDOM. mrun.
    destruct (pr !! (c +:+ "DOM")) as [[]|] eqn:HD; mrun; try done.
    edit_cases d E; mrun; [|done]. by left. }
  unfold _descElementFallbackHTML, querySelector_edit, theDOM. mrun.
  destruct (truthy (pr !! (c +:+ descContainer))) eqn:Hc; mrun.
  - destruct (has_id (c +:+ fallbackDescId) doc) eqn:Hp; mrun.
    + destruct (pr !! (c +:+ "DOM")) as [[]|] eqn:HD; mrun; try done.
      edit_cases d E; mrun; [|done].
      edit_found E1.
      { eapply edit_first_has_id; [|exact E]. intros m _.
        unfold insert_afterend, fallback_table.
        by rewrite !has_id_cons, has_id_node_own, orb_true_r. }
      mrun. edit_found E2.
      { eapply edit_first_has_id; [|exact E1]. intros m _.
        apply has_id_appendChild. }
      mrun. by left.
    + destruct (truthy (pr !! (c +:+ fallbackTableId))) eqn:Htb; mrun.
      * destruct (pr !! (c +:+ "DOM")) as [[]|] eqn:HD; mrun; try done.
        edit_cases d E; mrun; [|done].
        edit_found E2.
        { eapply edit_first_has_id; [|exact E]. intros m _.
          apply has_id_appendChild. }
        mrun. by left.
      * by right.
  - destruct (pr !! (c +:+ "DOM")) as [[]|] eqn:HD; mrun; try done.
    edit_cases d E; mrun; [|done].
    edit_found E1.
    { eapply edit_first_has_id; [|exact E]. intros [t' j a h ks] _.
      unfold set_children, fallback_container, fallback_table.
      rewrite has_id_cons, has_id_node_unfold, has_id_cons,
        has_id_node_unfold, has_id_cons, has_id_node_own.
      by rewrite !orb_true_r. }
    mrun. edit_found E2.
    { eapply edit_first_has_id; [|exact E1]. intros m _.
      apply has_id_appendChild. }
    mrun. by left.
Qed.

(** The same for the visible-label part of [describeElement]. *)
Lemma describeElement_label_result (c k inner : string) (display : jsval)
    (σ : state) :
  match describeElement_label c k inner display σ with
  | (Return _, σ') => labelRow_settled c k inner display σ'
  | (Throw _, _) => True
  end.
Proof.
  destruct σ as [[pr fe le] doc].
  unfold describeElement_label, labelRow_settled.
  mrun. destruct (decide (display = LABEL)) as [-> | Hd].
  2:{ rewrite (bool_decide_eq_false_2 _ Hd). mrun. by left. }
  rewrite (bool_decide_eq_true_2 _ eq_refl). mrun.
  case_bool_decide as Hl; mrun.
  2:{ right. left. by destruct (decide (le !! (c +:+ k) = Some inner)). }
  destruct (truthy_row (le !! (c +:+ k))) eqn:He; mrun.
  { unfold querySelector_edit, theDOM. mrun.
    destruct (pr !! (c +:+ "DOM")) as [[]|] eqn:HD; mrun; try done.
    edit_cases d E; mrun; [|done]. right. by left. }
  unfold _descElementLabelHTML, querySelector_edit, querySelector_found,
    theDOM. mrun.
  destruct (truthy (pr !! (c +:+ labelContainer))) eqn:Hc; mrun.
  - destruct (pr !! (c +:+ "DOM")) as [[]|] eqn:HD; mrun; try done.
    destruct (has_id (c +:+ labelDescId) doc) eqn:Hp; mrun.
    + edit_cases d E; mrun; [|done].
      edit_found E1.
      { eapply edit_first_has_id; [|exact E]. intros m _.
        unfold insert_afterend, label_table.
        by rewrite !has_id_cons, has_id_node_own, orb_true_r. }
      mrun. edit_found E2.
      { eapply edit_first_has_id; [|exact E1]. intros m _.
        apply has_id_appendChild. }
      mrun. right. by left.
    + destruct (truthy (pr !! (c +:+ labelTableId))) eqn:Htb; mrun.
      * edit_cases d E; mrun; [|done].
        edit_found E2.
        { eapply edit_first_has_id; [|exact E]. intros m _.
          apply has_id_appendChild. }
        mrun. right. by left.
      * right. by right.
  - destruct (pr !! (c +:+ "DOM")) as [[]|] eqn:HD; mrun; try done.
    edit_cases d E; mrun; [|done].
    edit_found E1.
    { eapply edit_first_has_id; [|exact E]. intros m _.
      unfold insert_afterend, label_container, label_table.
      rewrite has_id_cons, has_id_cons, has_id_node_unfold, has_id_cons,
        has_id_node_own.
      by rewrite !orb_true_r. }
    mrun. edit_found E2.
    { eapply edit_first_has_id; [|exact E1]. intros m _.
      apply has_id_appendChild. }
    mrun. right. by left.
Qed.

(** In such states the parts return and change nothing. *)
Lemma fallbackRow_settled_no_op (c k inner : string) (σ : state) :
  fallbackRow_settled c k inner σ →
  describeElement_fallback c k inner σ = (Return (), σ).
Proof.
  destruct σ as [[pr fe le] doc]. unfold fallbackRow_settled.
  cbn [dummy props fallbackElements document].
  intros [H | (H1 & H2 & H3 & H4)]; unfold describeElement_fallback; mrun.
  - by rewrite bool_decide_eq_false_2 by (by intros []).
  - case_bool_decide; [|done]. mrun.
    unfold _descElementFallbackHTML. by mrun.
Qed.

Lemma labelRow_settled_no_op (c k inner : string) (display : jsval)
    (σ : state) :
  labelRow_settled c k inner display σ →
  describeElement_label c k inner display σ = (Return (), σ).
Proof.
  destruct σ as [[pr fe le] doc]. unfold labelRow_settled.
  cbn [dummy props labelElements document].
  intros [H | [H | (H1 & H2 & H3 & H4 & H5)]];
    unfold describeElement_label; mrun.
  - by rewrite (bool_decide_eq_false_2 _ H).
  - rewrite (bool_decide_eq_false_2 (_ ≠ _)) by (by intros []).
    by rewrite andb_false_r.
  - destruct (bool_decide (display = LABEL) && bool_decide _); [|done].
    mrun. unfold _descElementLabelHTML, querySelector_found, theDOM.
    by mrun.
Qed.

Lemma rowSettled_setProp (c k inner s : string) (v : value) :
  s ≠ descContainer → s ≠ fallbackTableId →
  preserves (fallbackRow_settled c k inner) (setProp (c +:+ s) v).
Proof.
  intros H1 H2 σ. unfold fallbackRow_settled.
  cbn [setProp snd dummy props fallbackElements document].
  by rewrite !lookup_insert_ne by (intros ?%(inj _); done).
Qed.

Lemma rowSettled_setLabelElement (c k inner k' inner' : string) :
  preserves (fallbackRow_settled c k inner) (setLabelElement k' inner').
Proof. by intros σ. Qed.

Lemma rowSettled_document_edit (c k inner i : string) (f : node → list node) :
  (∀ m, has_id_node (c +:+ fallbackDescId) m = false →
        has_id (c +:+ fallbackDescId) (f m) = false) →
  preserves (fallbackRow_settled c k inner) (document_edit i f).
Proof.
  intros Hf σ. unfold fallbackRow_settled, document_edit.
  destruct (edit_first i f (document σ)) as [d|] eqn:E; [|done].
  cbn [snd dummy document].
  intros [H | (H1 & H2 & H3 & H4)]; [by left | right].
  by rewrite (edit_first_no_id _ _ _ Hf _ _ E H3).
Qed.

Lemma row_not_paragraph (c k : string) :
  has_id_node (c +:+ fallbackDescId) (tableRow (c +:+ labelTableElId +:+ k))
  = false.
Proof.
  unfold tableRow. rewrite has_id_node_unfold, bool_decide_id_append.
  by rewrite bool_decide_eq_false_2.
Qed.

Ltac rowSettled_auto :=
  repeat first
    [ preserves_step
    | apply rowSettled_setLabelElement
    | apply rowSettled_setProp; discriminate
    | apply rowSettled_document_edit; intros ?;
      first [ apply set_innerHTML_no_id
            | apply insert_no_id; no_id_solve
            | apply appendChild_no_id; apply row_not_paragraph ] ].

Lemma rowSettled_describeElement_label (c k inner inner' : string)
    (display : jsval) :
  preserves (fallbackRow_settled c k inner)
    (describeElement_label c k inner' display).
Proof.
  unfold describeElement_label, _descElementLabelHTML. rowSettled_auto.
Qed.

Section rows_populated.
Context (c k inner : string) (Hinner : inner ≠ "").

Lemma rows_populated_setProp (s : string) (v : value) :
  s ≠ "DOM" → preserves (rows_populated c k) (setProp (c +:+ s) v).
Proof.
  intros Hs σ. unfold rows_populated.
  cbn [setProp snd dummy props fallbackElements labelElements].
  by rewrite lookup_insert_ne by (intros ?%(inj _); done).
Qed.

Lemma truthy_row_insert (m : gmap string string) (k' j : string) :
  truthy_row (m !! j) = true → truthy_row (<[k' := inner]> m !! j) = true.
Proof.
  rewrite lookup_insert. case_decide; [|done]. intros _. cbn.
  by rewrite bool_decide_eq_false_2.
Qed.

Lemma rows_populated_setFallbackElement (k' : string) :
  preserves (rows_populated c k) (setFallbackElement k' inner).
Proof.
  intros σ. unfold rows_populated.
  cbn [setFallbackElement snd dummy props fallbackElements labelElements].
  intros [H | [H1 H2]]; [by left | right]. split; [|done].
  by apply truthy_row_insert.
Qed.

Lemma rows_populated_setLabelElement (k' : string) :
  preserves (rows_populated c k) (setLabelElement k' inner).
Proof.
  intros σ. unfold rows_populated.
  cbn [setLabelElement snd dummy props fallbackElements labelElements].
  intros [H | [H1 H2]]; [by left | right]. split; [done|].
  by apply truthy_row_insert.
Qed.

Lemma rows_populated_document_edit (i : string) (f : node → list node) :
  preserves (rows_populated c k) (document_edit i f).
Proof.
  intros σ. unfold document_edit.
  by destruct (edit_first i f (document σ)).
Qed.
End rows_populated.

Ltac rows_populated_auto H :=
  repeat first
    [ preserves_step
    | apply rows_populated_document_edit
    | apply rows_populated_setProp; discriminate
    | apply rows_populated_setFallbackElement; exact H
    | apply rows_populated_setLabelElement; exact H ].

Lemma rows_populated_fallback (c k inner : string) :
  inner ≠ "" →
  preserves (rows_populated c k) (describeElement_fallback c k inner).
Proof.
  intros H. unfold describeElement_fallback, _descElementFallbackHTML.
  rows_populated_auto H.
Qed.

Lemma rows_populated_label (c k inner : string) (display : jsval) :
  inner ≠ "" →
  preserves (rows_populated c k) (describeElement_label c k inner display).
Proof.
  intros H. unfold describeElement_label, _descElementLabelHTML.
  rows_populated_auto H.
Qed.

(** [describeElement] on strings, as its steps. *)
Lemma describeElement_body (c name text : string) (display : jsval)
    (σ : state) :
  describeElement c (JString name) (JString text) display σ
  = match _descriptionText text with
    | Return t =>
        match _elementName name with
        | Return elementName =>
            let k := _nameForID name in
            let inner := row_markup elementName t in
            match describeElement_fallback c k inner
                    (populate_rows_if_needed c k σ) with
            | (Return _, σ1) => describeElement_label c k inner display σ1
            | (Throw e, σ1) => (Throw e, σ1)
            end
        | Throw e => (Throw e, σ)
        end
    | Throw e => (Throw e, σ)
    end.
Proof.
  rewrite describeElement_string.
  destruct (_descriptionText text) as [t|e]; [|done].
  destruct (_elementName name) as [en|e]; [|done].
  unfold populate_rows_if_needed. mrun.
  destruct (negb _ || negb _); unfold _populateDummyDOM; by mrun.
Qed.

Lemma populate_rows_populated (c k : string) (σ : state) :
  rows_populated c k (populate_rows_if_needed c k σ).
Proof.
  unfold populate_rows_if_needed, rows_populated.
  destruct (truthy_row (fallbackElements (dummy σ) !! (c +:+ k))) eqn:H1,
    (truthy_row (labelElements (dummy σ) !! (c +:+ k))) eqn:H2;
    cbn [negb orb]; [by right | left..];
    unfold _populateDummyDOM; cbn [setProp snd dummy props];
    apply lookup_insert_eq.
Qed.

Lemma rows_populated_no_op (c k : string) (σ : state) :
  rows_populated c k σ → populate_rows_if_needed c k σ = σ.
Proof.
  destruct σ as [[pr fe le] doc].
  unfold rows_populated, populate_rows_if_needed.
  cbn [dummy props fallbackElements labelElements].
  intros [H | [-> ->]]; [|done].
  destruct (negb _ || negb _); [|done].
  unfold _populateDummyDOM. cbn [setProp snd dummy props fallbackElements
    labelElements document].
  by rewrite insert_id.
Qed.

Lemma row_markup_nonempty (elementName text : string) :
  row_markup elementName text ≠ "".
Proof. done. Qed.

(** In the model, publishing an element description twice in a row:
    whatever the state, when the first call returns, the second call
    returns too and leaves the store and the document as the first left
    them. *)
Lemma describeElement_twice (c : string) (name text display : jsval)
    (σ σ' : state) :
  describeElement c name text display σ = (Return (), σ') →
  describeElement c name text display σ' = (Return (), σ').
Proof.
  destruct text as [| | | |text|]; try (by intros [= <-]).
  destruct name as [| | | |name|]; try (by intros [= <-]).
  rewrite !describeElement_body.
  destruct (_descriptionText text) as [t|e]; [|done].
  destruct (_elementName name) as [en|e]; [|done]. cbv zeta.
  set (k := _nameForID name). set (inner := row_markup en t).
  pose proof (row_markup_nonempty en t) as Hi. fold inner in Hi.
  pose proof (populate_rows_populated c k σ) as Hp.
  set (σ0 := populate_rows_if_needed c k σ) in *.
  pose proof (describeElement_fallback_result c k inner σ0) as Hf.
  pose proof (rows_populated_fallback c k inner Hi σ0 Hp) as Hp1.
  destruct (describeElement_fallback c k inner σ0) as [[[]|e] σ1]; [|done].
  cbn [snd] in *.
  pose proof (describeElement_label_result c k inner display σ1) as Hl.
  pose proof (rows_populated_label c k inner display Hi σ1 Hp1) as Hp2.
  pose proof (rowSettled_describeElement_label c k inner inner display
                σ1 Hf) as Hf2.
  intros El. rewrite El in Hl, Hp2, Hf2. cbn [snd] in *.
  rewrite (rows_populated_no_op _ _ _ Hp2).
  rewrite (fallbackRow_settled_no_op _ _ _ _ Hf2).
  by apply labelRow_settled_no_op.
Qed.

(** C2: two canvases with the ids p5 gives them; an element ['x'] is
    described on [defaultCanvas10].  Then the call on [defaultCanvas1]
    is made twice with the same arguments.  The first call replaces the
    stored row and throws before it reaches the visible-label region; the
    second finds the stored row equal, goes on, and creates the label
    container, table and row: it changes both the store and the
    document. *)
Theorem repeated_call_mutates :
  let σ0 := after element_on_canvas10 (initial two_canvases) in
  let σ1 := after element_on_canvas1 σ0 in
  let σ2 := after element_on_canvas1 σ1 in
  (run_call element_on_canvas1 σ0).1 = Throw TypeError
  ∧ (run_call element_on_canvas1 σ1).1 = Return ()
  ∧ has_id ("defaultCanvas1" +:+ labelContainer) (document σ1) = false
  ∧ has_id ("defaultCanvas1" +:+ labelContainer) (document σ2) = true
  ∧ labelElements (dummy σ1) !! ("defaultCanvas1" +:+ "0x") = None
  ∧ labelElements (dummy σ2) !! ("defaultCanvas1" +:+ "0x")
    = Some (row_markup "0x:" "u.")
  ∧ σ2 ≠ σ1.
Proof.
  cbv zeta. split_and!; try (vm_compute; reflexivity).
  intros H. apply (f_equal (λ σ, has_id "defaultCanvas1_Label" (document σ)))
    in H. vm_compute in H. discriminate.
Qed.

(** ** Keys of a surface *)

Section same_outside.
Context (c : string) (σ0 : state).

Lemma own_key (s k : string) : startsWith k c = false → c +:+ s ≠ k.
Proof. intros H <-. by rewrite startsWith_app in H. Qed.

Lemma same_outside_setProp (s : string) (v : value) :
  preserves (same_outside c σ0) (setProp (c +:+ s) v).
Proof.
  intros σ Hσ k Hk. cbn [setProp snd dummy props fallbackElements
    labelElements].
  rewrite lookup_insert_ne by by apply own_key. by apply Hσ.
Qed.

Lemma same_outside_setFallbackElement (s inner : string) :
  preserves (same_outside c σ0) (setFallbackElement (c +:+ s) inner).
Proof.
  intros σ Hσ k Hk. cbn [setFallbackElement snd dummy props fallbackElements
    labelElements].
  rewrite lookup_insert_ne by by apply own_key. by apply Hσ.
Qed.

Lemma same_outside_setLabelElement (s inner : string) :
  preserves (same_outside c σ0) (setLabelElement (c +:+ s) inner).
Proof.
  intros σ Hσ k Hk. cbn [setLabelElement snd dummy props fallbackElements
    labelElements].
  rewrite lookup_insert_ne by by apply own_key. by apply Hσ.
Qed.

Lemma same_outside_document_edit (i : string) (f : node → list node) :
  preserves (same_outside c σ0) (document_edit i f).
Proof.
  intros σ Hσ. unfold document_edit.
  by destruct (edit_first i f (document σ)).
Qed.
End same_outside.

Ltac same_outside_auto :=
  repeat first
    [ preserves_step
    | apply same_outside_document_edit
    | apply same_outside_setProp
    | apply same_outside_setFallbackElement
    | apply same_outside_setLabelElement ].

Lemma same_outside_describe (c : string) (σ0 : state)
    (text display : jsval) :
  preserves (same_outside c σ0) (describe c text display).
Proof.
  unfold describe, describe_fallback, describe_label,
    _describeFallbackHTML, _describeLabelHTML, _populateDummyDOM.
  same_outside_auto.
Qed.

Lemma same_outside_describeElement (c : string) (σ0 : state)
    (name text display : jsval) :
  preserves (same_outside c σ0) (describeElement c name text display).
Proof.
  unfold describeElement, describeElement_fallback, describeElement_label,
    _descElementFallbackHTML, _descElementLabelHTML, _populateDummyDOM.
  same_outside_auto.
Qed.

(** X9: a call on a surface writes only under keys that start with its
    canvas id: every other key of the store keeps its value.  So a surface
    whose keys do not start with the id of another is out of its reach, as
    when neither id is the beginning of the other. *)
Lemma call_writes_own_keys (c : string) (name text display : jsval)
    (σ : state) :
  same_outside c σ (after (Describe c text display) σ)
  ∧ same_outside c σ (after (DescribeElement c name text display) σ).
Proof.
  split.
  - by apply (same_outside_describe c σ text display σ).
  - by apply (same_outside_describeElement c σ name text display σ).
Qed.

(** C4: two canvases with the ids p5 gives them.  An element ['x'] is
    described on [defaultCanvas10]; then an element ['0x'] is described on
    [defaultCanvas1].  Both spell the key [defaultCanvas10x], so the call
    on the second surface finds the row of the first, replaces it in the
    store, looks for a row node that was never made and throws. *)
Theorem surfaces_share_keys :
  let σ0 := after element_on_canvas10 (initial two_canvases) in
  let σ1 := after element_on_canvas1 σ0 in
  "defaultCanvas1" +:+ _nameForID "0x" = "defaultCanvas10" +:+ _nameForID "x"
  ∧ fallbackElements (dummy σ0) !! ("defaultCanvas10" +:+ "x")
    = Some (row_markup "x:" "t.")
  ∧ fallbackElements (dummy σ1) !! ("defaultCanvas10" +:+ "x")
    = Some (row_markup "0x:" "u.")
  ∧ (run_call element_on_canvas1 σ0).1 = Throw TypeError
  ∧ document σ1 = document σ0.
Proof. cbv zeta. split_and!; vm_compute; reflexivity. Qed.

(** ** The paragraph of the accessible-only region *)

(** C1: on one surface, a description, then an element, then a new
    description.  Before the third call the container, the paragraph and
    the table of the accessible-only region all exist, with one paragraph;
    the third call inserts a second paragraph with the same id before the
    table and writes the new text into the first. *)
Theorem fallback_paragraph_inserted_twice :
  let σ := run (take 2 describe_after_element) (initial (page ["c"])) in
  let σ' := after (Describe "c" (JString "b") JUndefined) σ in
  truthy (props (dummy σ) !! ("c" +:+ descContainer)) = true
  ∧ truthy (props (dummy σ) !! ("c" +:+ fallbackDescId)) = true
  ∧ truthy (props (dummy σ) !! ("c" +:+ fallbackTableId)) = true
  ∧ count_id ("c" +:+ fallbackDescId) (document σ) = 1
  ∧ σ' = run describe_after_element (initial (page ["c"]))
  ∧ count_id ("c" +:+ fallbackDescId) (document σ') = 2
  ∧ document σ'
    = [Node "canvas" (Some "c") [] ""
         [Node "div" (Some "c_Description")
            [("role", "region"); ("aria-label", "Canvas Description")] ""
            [Node "p" (Some "c_fallbackDesc") [] "b." [];
             Node "p" (Some "c_fallbackDesc") [] "" [];
             Node "table" (Some "c_fallbackTable") [] ""
               [Node "caption" None []
                  "Canvas elements and their descriptions" [];
                Node "tr" (Some "c_fte_x") [] (row_markup "x:" "y.") []]]]].
Proof. cbv zeta. split_and!; vm_compute; reflexivity. Qed.

(** ** How the normalisers compose *)

Lemma reserved_not_punctuated (s : string) (a : ascii) :
  a = "."%char ∨ a = ";"%char ∨ a = ","%char ∨ a = ":"%char
  ∨ a = "!"%char ∨ a = "?"%char →
  s +:+ String a "" ≠ "label" ∧ s +:+ String a "" ≠ "fallback".
Proof.
  intros Ha. split; intros H.
  - apply (f_equal (λ x, endsWith x (String a ""))) in H.
    rewrite endsWith_app in H.
    destruct Ha as [-> | [-> | [-> | [-> | [-> | ->]]]]]; discriminate.
  - apply (f_equal (λ x, endsWith x (String a ""))) in H.
    rewrite endsWith_app in H.
    destruct Ha as [-> | [-> | [-> | [-> | [-> | ->]]]]]; discriminate.
Qed.

(** The name shown is the key followed by a colon. *)
Lemma elementName_key (name : string) :
  name ≠ "label" → name ≠ "fallback" →
  _elementName name = Return (_nameForID name +:+ ":").
Proof.
  intros H1 H2. rewrite (elementName_unreserved name H1 H2).
  unfold _nameForID.
  destruct (endsWith name ".") eqn:E1.
  { apply endsWith_inv in E1 as [p ->]. cbn [orb].
    rewrite !replace_last_snoc by reflexivity. by rewrite append_nil_r. }
  destruct (endsWith name ";") eqn:E2.
  { apply endsWith_inv in E2 as [p ->]. cbn [orb].
    rewrite !replace_last_snoc by reflexivity. by rewrite append_nil_r. }
  destruct (endsWith name ",") eqn:E3.
  { apply endsWith_inv in E3 as [p ->]. cbn [orb].
    rewrite !replace_last_snoc by reflexivity. by rewrite append_nil_r. }
  cbn [orb]. destruct (endsWith name ":") eqn:E4; [|done].
  apply endsWith_inv in E4 as [p ->].
  rewrite replace_last_snoc by reflexivity. by rewrite append_nil_r.
Qed.

(** X1: on a name that is no reserved token, what [_elementName] shows is
    what [_nameForID] keeps followed by one colon: the row header and the
    row key never drift apart. *)
Theorem elementName_is_key_colon (name : string) :
  name ≠ "label" → name ≠ "fallback" →
  _elementName name = Return (_nameForID name +:+ ":").
Proof. apply elementName_key. Qed.

Lemma elementName_is_key_colon_witness :
  _elementName "Heart." = Return (_nameForID "Heart." +:+ ":").
Proof. apply elementName_is_key_colon; done. Defined.

(** X2: both normalisers are idempotent: what [_descriptionText] returns
    it returns unchanged when given it again, and so does [_elementName],
    whose result always ends with a colon; neither result is a reserved
    token. *)
Theorem normalisers_idempotent (s r : string) :
  (_descriptionText s = Return r → _descriptionText r = Return r)
  ∧ (_elementName s = Return r →
     endsWith r ":" = true ∧ _elementName r = Return r).
Proof.
  split.
  - intros H. pose proof (descriptionText_ends_sentence _ _ H) as He.
    assert (r ≠ "label" ∧ r ≠ "fallback") as [H1 H2].
    { unfold ends_sentence in He.
      apply orb_true_iff in He as [[He | He]%orb_true_iff | He];
        apply endsWith_inv in He as [p ->];
        apply reserved_not_punctuated; auto 10. }
    by rewrite (descriptionText_unreserved r H1 H2), He.
  - intros H.
    assert (s ≠ "label" ∧ s ≠ "fallback") as [H1 H2].
    { unfold _elementName in H. split; intros ->; done. }
    rewrite (elementName_key s H1 H2) in H. injection H as <-.
    split; [apply endsWith_app|].
    destruct (reserved_not_punctuated (_nameForID s) ":"%char) as [H3 H4];
      [auto 10|].
    rewrite (elementName_unreserved _ H3 H4).
    by rewrite !endsWith_snoc.
Qed.

Lemma normalisers_idempotent_witness :
  _descriptionText "ok." = Return "ok."
  ∧ _elementName "Circle:" = Return "Circle:".
Proof.
  destruct (normalisers_idempotent "ok" "ok.") as [H _].
  destruct (normalisers_idempotent "Circle," "Circle:") as [_ H'].
  split; [by apply H | by apply H'].
Defined.

(** X3: [describeElement] looks at the name only through its key: two
    names that are no reserved tokens and have the same key, such as one
    name with and without a trailing full stop, comma, semicolon or colon,
    give the same call, in every state. *)
Theorem describeElement_by_key (cnvId n1 n2 : string) (text display : jsval)
    (σ : state) :
  n1 ≠ "label" → n1 ≠ "fallback" → n2 ≠ "label" → n2 ≠ "fallback" →
  _nameForID n1 = _nameForID n2 →
  describeElement cnvId (JString n1) text display σ
  = describeElement cnvId (JString n2) text display σ.
Proof.
  intros H1 H2 H3 H4 Hk. destruct text as [| | | |text|]; try done.
  rewrite !describeElement_string.
  by rewrite (elementName_key n1 H1 H2), (elementName_key n2 H3 H4), Hk.
Qed.

Lemma describeElement_by_key_witness :
  describeElement "c" (JString "Circle.") (JString "round") LABEL
    (initial (page ["c"]))
  = describeElement "c" (JString "Circle") (JString "round") LABEL
      (initial (page ["c"])).
Proof. apply describeElement_by_key; done. Defined.

(** ** What is set stays set *)

Section still_set.
Context (σ0 : state).

Lemma still_set_setProp (k : string) (v : value) :
  truthy (Some v) = true → preserves (still_set σ0) (setProp k v).
Proof.
  intros Hv σ (H1 & H2 & H3). split_and!; [|done..].
  intros k' Hk'. cbn [setProp snd dummy props]. rewrite lookup_insert.
  case_decide; [done | by apply H1].
Qed.

Lemma truthy_row_insert_any (m : gmap string string) (k inner j : string) :
  inner ≠ "" → truthy_row (m !! j) = true →
  truthy_row (<[k := inner]> m !! j) = true.
Proof.
  intros Hi. rewrite lookup_insert. case_decide; [|done]. intros _. cbn.
  by rewrite bool_decide_eq_false_2.
Qed.

Lemma still_set_setFallbackElement (k inner : string) :
  inner ≠ "" → preserves (still_set σ0) (setFallbackElement k inner).
Proof.
  intros Hi σ (H1 & H2 & H3). split_and!; [done| |done].
  intros k' Hk'. cbn [setFallbackElement snd dummy fallbackElements].
  by apply truthy_row_insert_any, H2.
Qed.

Lemma still_set_setLabelElement (k inner : string) :
  inner ≠ "" → preserves (still_set σ0) (setLabelElement k inner).
Proof.
  intros Hi σ (H1 & H2 & H3). split_and!; [done..|].
  intros k' Hk'. cbn [setLabelElement snd dummy labelElements].
  by apply truthy_row_insert_any, H3.
Qed.

Lemma still_set_document_edit (i : string) (f : node → list node) :
  preserves (still_set σ0) (document_edit i f).
Proof.
  intros σ. unfold document_edit.
  by destruct (edit_first i f (document σ)).
Qed.
End still_set.

Lemma ends_sentence_nonempty (t : string) : ends_sentence t = true → t ≠ "".
Proof. by intros H ->. Qed.

Ltac still_set_auto :=
  repeat first
    [ apply still_set_document_edit
    | apply still_set_setProp;
      first [reflexivity | apply truthy_text; by apply ends_sentence_nonempty]
    | apply still_set_setFallbackElement; apply row_markup_nonempty
    | apply still_set_setLabelElement; apply row_markup_nonempty
    | apply preserves_bind_lift; intros ? ?%descriptionText_ends_sentence
    | preserves_step ].

Lemma still_set_describe (σ0 : state) (c : string) (text display : jsval) :
  preserves (still_set σ0) (describe c text display).
Proof.
  unfold describe. apply preserves_bind; [apply preserves_ret|]. intros _.
  destruct text; try apply preserves_ret.
  unfold describe_fallback, describe_label, _describeFallbackHTML,
    _describeLabelHTML, _populateDummyDOM.
  still_set_auto.
Qed.

Lemma still_set_describeElement (σ0 : state) (c : string)
    (name text display : jsval) :
  preserves (still_set σ0) (describeElement c name text display).
Proof.
  unfold describeElement. apply preserves_bind; [apply preserves_ret|].
  intros _. destruct text; try apply preserves_ret.
  destruct name; try apply preserves_ret.
  apply preserves_bind_lift. intros t Ht.
  apply preserves_bind_lift. intros en Hen. cbv zeta.
  unfold describeElement_fallback, describeElement_label,
    _descElementFallbackHTML, _descElementLabelHTML, _populateDummyDOM.
  still_set_auto.
Qed.

(** X4: no call of [describe] or [describeElement], on any surface and in
    any state, returning or throwing, unsets what is set: a flag, a text or
    a row that is truthy before the call is truthy after it.  Only
    [_clearDummy] takes anything back. *)
Theorem publish_keeps_what_is_set (c : string) (name text display : jsval)
    (σ : state) :
  still_set σ (after (Describe c text display) σ)
  ∧ still_set σ (after (DescribeElement c name text display) σ).
Proof.
  assert (still_set σ σ) as H0 by done. split.
  - by apply (still_set_describe σ c text display σ).
  - by apply (still_set_describeElement σ c name text display σ).
Qed.

(** ** The two operations keep out of each other's data *)

Section same_rows.
Context (σ0 : state).

Lemma same_rows_setProp (k : string) (v : value) :
  preserves (same_rows σ0) (setProp k v).
Proof. by intros σ Hσ. Qed.

Lemma same_rows_document_edit (i : string) (f : node → list node) :
  preserves (same_rows σ0) (document_edit i f).
Proof.
  intros σ Hσ. unfold document_edit.
  by destruct (edit_first i f (document σ)).
Qed.

Lemma same_texts_setProp (c s : string) (v : value) :
  endsWith s "Desc" || endsWith "Desc" s = false →
  preserves (same_texts σ0) (setProp (c +:+ s) v).
Proof.
  intros Hs σ Hσ k Hk. cbn [setProp snd dummy props].
  rewrite lookup_insert_ne; [by apply Hσ|].
  apply endsWith_inv in Hk as [p ->]. by apply append_ne_suffix.
Qed.

Lemma same_texts_rows (f : state → state) :
  (∀ σ, props (dummy (f σ)) = props (dummy σ)) →
  preserves (same_texts σ0) (λ σ, (Return (), f σ)).
Proof. intros Hf σ Hσ k Hk. cbn [snd]. rewrite Hf. by apply Hσ. Qed.

Lemma same_texts_document_edit (i : string) (f : node → list node) :
  preserves (same_texts σ0) (document_edit i f).
Proof.
  intros σ Hσ. unfold document_edit.
  by destruct (edit_first i f (document σ)).
Qed.
End same_rows.

Lemma same_rows_describe (σ0 : state) (c : string) (text display : jsval) :
  preserves (same_rows σ0) (describe c text display).
Proof.
  unfold describe, describe_fallback, describe_label,
    _describeFallbackHTML, _describeLabelHTML, _populateDummyDOM.
  repeat first
    [ preserves_step | apply same_rows_document_edit
    | apply same_rows_setProp ].
Qed.

Lemma same_texts_describeElement (σ0 : state) (c : string)
    (name text display : jsval) :
  preserves (same_texts σ0) (describeElement c name text display).
Proof.
  unfold describeElement, describeElement_fallback, describeElement_label,
    _descElementFallbackHTML, _descElementLabelHTML, _populateDummyDOM.
  repeat first
    [ preserves_step | apply same_texts_document_edit
    | apply same_texts_setProp; reflexivity
    | by apply same_texts_rows ].
Qed.

(** X18: the two operations keep out of each other's data, on every
    surface and in every state, whether the call returns or throws.
    [describe] leaves the two maps of element rows as they are.
    [describeElement] leaves the value of every key that ends in [Desc] as
    it is: the stored descriptions and the paragraph flags of every
    surface, since none of the keys it writes ends that way, whatever the
    canvas id. *)
Theorem operations_keep_apart (c : string) (name text display : jsval)
    (σ : state) :
  same_rows σ (after (Describe c text display) σ)
  ∧ same_texts σ (after (DescribeElement c name text display) σ).
Proof.
  split.
  - by apply (same_rows_describe σ c text display σ).
  - by apply (same_texts_describeElement σ c name text display σ).
Qed.

(** ** How [describe] fails *)

Lemma throws_bind {A B : Type} (m : M A) (k : A → M B) :
  throws_TypeError m → (∀ a, throws_TypeError (k a)) →
  throws_TypeError (m ≫= k).
Proof.
  intros Hm Hk σ e σ'. rewrite bind_unfold.
  destruct (m σ) as [[a|e1] σ1] eqn:E.
  - apply Hk.
  - intros [= <- <-]. by apply (Hm _ _ _ E).
Qed.

Lemma throws_total {A : Type} (m : M A) :
  (∀ σ, ∃ a σ', m σ = (Return a, σ')) → throws_TypeError m.
Proof. intros H σ e σ' E. destruct (H σ) as (a & σ1 & E1). congruence. Qed.

Lemma throws_throw {A : Type} : throws_TypeError (@throw A TypeError).
Proof. by intros σ e σ' [= <- <-]. Qed.

Lemma throws_document_edit (i : string) (f : node → list node) :
  throws_TypeError (document_edit i f).
Proof.
  intros σ e σ'. unfold document_edit.
  destruct (edit_first i f (document σ)); by intros [= <- <-].
Qed.

Ltac throws_step :=
  lazymatch goal with
  | |- throws_TypeError (_ ≫= _) => apply throws_bind; [|intros ?]
  | |- throws_TypeError (throw TypeError) => apply throws_throw
  | |- throws_TypeError (document_edit _ _) => apply throws_document_edit
  | |- throws_TypeError (if ?b then _ else _) => destruct b
  | |- throws_TypeError (match ?x with _ => _ end) => destruct x
  | |- throws_TypeError _ => apply throws_total; intros ?; by eexists _, _
  end.

Lemma throws_describe_fallback (c t : string) :
  throws_TypeError (describe_fallback c t).
Proof.
  unfold describe_fallback, _describeFallbackHTML, querySelector_edit,
    querySelector_found, theDOM.
  repeat throws_step.
Qed.

Lemma throws_describe_label (c t : string) (display : jsval) :
  throws_TypeError (describe_label c t display).
Proof.
  unfold describe_label, _describeLabelHTML, querySelector_edit, theDOM.
  repeat throws_step.
Qed.

(** In the model, [describe] fails in three ways only.  With a reserved
    text it throws the error of the description and nothing has changed.
    Otherwise it throws a TypeError, either from its accessible-only part,
    and then nothing has changed but the [body] element it may have
    fetched, or from its visible-label part, and then the state is the one
    its accessible-only part had reached: each part either does all of its
    work or none. *)
Lemma describe_throw_cases (c : string) (text display : jsval)
    (e : error) (σ σ' : state) :
  describe c text display σ = (Throw e, σ') →
  (e = Error "description should not be LABEL or FALLBACK" ∧ σ' = σ)
  ∨ (e = TypeError
     ∧ ∃ s t, text = JString s ∧ _descriptionText s = Return t
       ∧ (σ' = populate_if_needed c σ
          ∨ (display = LABEL
             ∧ describe_fallback c t (populate_if_needed c σ)
               = (Return (), σ')))).
Proof.
  destruct text as [| | | |s|]; try done.
  rewrite describe_body.
  destruct (_descriptionText s) as [t|e0] eqn:Et.
  2:{ intros [= <- <-]. left. split; [|done].
      unfold _descriptionText in Et. repeat case_match; congruence. }
  pose proof (describe_fallback_result c t (populate_if_needed c σ)) as Hf.
  destruct (describe_fallback c t (populate_if_needed c σ))
    as [[[]|e1] σ1] eqn:Ef.
  - intros El. right.
    pose proof (describe_label_result c t display σ1) as Hl.
    rewrite El in Hl. subst σ1.
    split; [by apply (throws_describe_label _ _ _ _ _ _ El)|].
    exists s, t. split_and!; [done..|]. right. split; [|done].
    destruct (decide (display = LABEL)) as [|Hd]; [done|].
    by rewrite (label_settled_no_op c t display σ') in El by by left.
  - intros [= <- <-]. right. subst σ1.
    split; [by apply (throws_describe_fallback _ _ _ _ _ Ef)|].
    exists s, t. split_and!; [done..|]. by left.
Qed.

(** ** How [describeElement] fails *)

(** The accessible-only part of [describeElement] throws nothing but a
    TypeError, and then the document is as it was; the store is as it was
    too, unless the row was there to be updated: then its new content is
    already stored. *)
Lemma describeElement_fallback_throws (c k inner : string) (e : error)
    (σ σ' : state) :
  describeElement_fallback c k inner σ = (Throw e, σ') →
  e = TypeError
  ∧ (σ' = σ
     ∨ (truthy_row (fallbackElements (dummy σ) !! (c +:+ k)) = true
        ∧ σ' = (setFallbackElement (c +:+ k) inner σ).2)).
Proof.
  destruct σ as [[pr fe le] doc]. unfold describeElement_fallback.
  mrun. case_bool_decide as Hd; mrun; [|done].
  destruct (truthy_row (fe !! (c +:+ k))) eqn:He; mrun.
  { unfold querySelector_edit, theDOM. mrun.
    destruct (pr !! (c +:+ "DOM")) as [[]|] eqn:HD; mrun;
      try (intros [= <- <-]; split; [done|]; right; by split).
    edit_cases d E; mrun; [done|].
    intros [= <- <-]. split; [done|]. right. by split. }
  unfold _descElementFallbackHTML, querySelector_edit, theDOM. mrun.
  destruct (truthy (pr !! (c +:+ descContainer))) eqn:Hc; mrun.
  - destruct (has_id (c +:+ fallbackDescId) doc) eqn:Hp; mrun.
    + destruct (pr !! (c +:+ "DOM")) as [[]|] eqn:HD; mrun;
        try (intros [= <- <-]; split; [done|]; by left).
      edit_cases d E; mrun; [|intros [= <- <-]; split; [done|]; by left].
      edit_found E1.
      { eapply edit_first_has_id; [|exact E]. intros m _.
        unfold insert_afterend, fallback_table.
        by rewrite !has_id_cons, has_id_node_own, orb_true_r. }
      mrun. edit_found E2.
      { eapply edit_first_has_id; [|exact E1]. intros m _.
        apply has_id_appendChild. }
      by mrun.
    + destruct (truthy (pr !! (c +:+ fallbackTableId))) eqn:Htb; mrun;
        [|done].
      destruct (pr !! (c +:+ "DOM")) as [[]|] eqn:HD; mrun;
        try (intros [= <- <-]; split; [done|]; by left).
      edit_cases d E; mrun; [|intros [= <- <-]; split; [done|]; by left].
      edit_found E2.
      { eapply edit_first_has_id; [|exact E]. intros m _.
        apply has_id_appendChild. }
      by mrun.
  - destruct (pr !! (c +:+ "DOM")) as [[]|] eqn:HD; mrun;
      try (intros [= <- <-]; split; [done|]; by left).
    edit_cases d E; mrun; [|intros [= <- <-]; split; [done|]; by left].
    edit_found E1.
    { eapply edit_first_has_id; [|exact E]. intros [t' j a h ks] _.
      unfold set_children, fallback_container, fallback_table.
      rewrite has_id_cons, has_id_node_unfold, has_id_cons,
        has_id_node_unfold, has_id_cons, has_id_node_own.
      by rewrite !orb_true_r. }
    mrun. edit_found E2.
    { eapply edit_first_has_id; [|exact E1]. intros m _.
      apply has_id_appendChild. }
    by mrun.
Qed.

(** The same for its visible-label part. *)
Lemma describeElement_label_throws (c k inner : string) (display : jsval)
    (e : error) (σ σ' : state) :
  describeElement_label c k inner display σ = (Throw e, σ') →
  e = TypeError ∧ display = LABEL
  ∧ (σ' = σ
     ∨ (truthy_row (labelElements (dummy σ) !! (c +:+ k)) = true
        ∧ σ' = (setLabelElement (c +:+ k) inner σ).2)).
Proof.
  destruct σ as [[pr fe le] doc]. unfold describeElement_label.
  mrun. destruct (decide (display = LABEL)) as [-> | Hdis].
  2:{ rewrite (bool_decide_eq_false_2 _ Hdis). by mrun. }
  rewrite (bool_decide_eq_true_2 _ eq_refl). mrun.
  case_bool_decide as Hd; mrun; [|done].
  destruct (truthy_row (le !! (c +:+ k))) eqn:He; mrun.
  { unfold querySelector_edit, theDOM. mrun.
    destruct (pr !! (c +:+ "DOM")) as [[]|] eqn:HD; mrun;
      try (intros [= <- <-]; split_and!; [done..|]; right; by split).
    edit_cases d E; mrun; [done|].
    intros [= <- <-]. split_and!; [done..|]. right. by split. }
  unfold _descElementLabelHTML, querySelector_edit, querySelector_found,
    theDOM. mrun.
  destruct (truthy (pr !! (c +:+ labelContainer))) eqn:Hc; mrun.
  - destruct (pr !! (c +:+ "DOM")) as [[]|] eqn:HD; mrun;
      try (intros [= <- <-]; split_and!; [done..|]; by left).
    destruct (has_id (c +:+ labelDescId) doc) eqn:Hp; mrun.
    + edit_cases d E; mrun; [|intros [= <- <-]; split_and!; [done..|]; by left].
      edit_found E1.
      { eapply edit_first_has_id; [|exact E]. intros m _.
        unfold insert_afterend, label_table.
        by rewrite !has_id_cons, has_id_node_own, orb_true_r. }
      mrun. edit_found E2.
      { eapply edit_first_has_id; [|exact E1]. intros m _.
        apply has_id_appendChild. }
      by mrun.
    + destruct (truthy (pr !! (c +:+ labelTableId))) eqn:Htb; mrun; [|done].
      edit_cases d E; mrun; [|intros [= <- <-]; split_and!; [done..|]; by left].
      edit_found E2.
      { eapply edit_first_has_id; [|exact E]. intros m _.
        apply has_id_appendChild. }
      by mrun.
  - destruct (pr !! (c +:+ "DOM")) as [[]|] eqn:HD; mrun;
      try (intros [= <- <-]; split_and!; [done..|]; by left).
    edit_cases d E; mrun; [|intros [= <- <-]; split_and!; [done..|]; by left].
    edit_found E1.
    { eapply edit_first_has_id; [|exact E]. intros m _.
      unfold insert_afterend, label_container, label_table.
      rewrite has_id_cons, has_id_cons, has_id_node_unfold, has_id_cons,
        has_id_node_own.
      by rewrite !orb_true_r. }
    mrun. edit_found E2.
    { eapply edit_first_has_id; [|exact E1]. intros m _.
      apply has_id_appendChild. }
    by mrun.
Qed.

(** How [describeElement] fails in the model.  With a reserved text or
    name it throws the error of that word and nothing has changed.
    Otherwise it throws a TypeError from one of its two parts, and the
    document is as that part found it; but the part may have written
    already: when the row of the element was there to be updated, its new
    content is stored before the row is looked up in the document, so the
    store is left ahead of the document. *)
Lemma describeElement_throw_cases (c name s : string) (display : jsval)
    (e : error) (σ σ' : state) :
  describeElement c (JString name) (JString s) display σ = (Throw e, σ') →
  (ReservedNameError e ∧ σ' = σ)
  ∨ (e = TypeError
     ∧ ∃ en t, _elementName name = Return en ∧ _descriptionText s = Return t
       ∧ let k := _nameForID name in
         let inner := row_markup en t in
         let σ0 := populate_rows_if_needed c k σ in
         σ' = σ0
         ∨ (truthy_row (fallbackElements (dummy σ0) !! (c +:+ k)) = true
            ∧ σ' = (setFallbackElement (c +:+ k) inner σ0).2)
         ∨ (display = LABEL
            ∧ ∃ σ1, describeElement_fallback c k inner σ0 = (Return (), σ1)
              ∧ (σ' = σ1
                 ∨ (truthy_row (labelElements (dummy σ1) !! (c +:+ k)) = true
                    ∧ σ' = (setLabelElement (c +:+ k) inner σ1).2)))).
Proof.
  rewrite describeElement_body.
  destruct (_descriptionText s) as [t|e0] eqn:Et.
  2:{ intros [= <- <-]. left. split; [|done].
      unfold _descriptionText in Et. repeat case_match; try done.
      injection Et as <-. by left. }
  destruct (_elementName name) as [en|e0] eqn:En.
  2:{ intros [= <- <-]. left. split; [|done].
      unfold _elementName in En. repeat case_match; try done.
      injection En as <-. by right. }
  cbv zeta.
  destruct (describeElement_fallback c (_nameForID name) (row_markup en t)
              (populate_rows_if_needed c (_nameForID name) σ))
    as [[[]|e1] σ1] eqn:Ef.
  - intros El. right.
    apply describeElement_label_throws in El as (-> & -> & Hl).
    split; [done|]. exists en, t. split_and!; [done..|].
    right. right. split; [done|]. by exists σ1.
  - intros [= <- <-]. right.
    apply describeElement_fallback_throws in Ef as (-> & Hf).
    split; [done|]. exists en, t. split_and!; [done..|].
    destruct Hf as [-> | Hf]; [by left | by right; left].
Qed.

(** ** One canvas *)

Lemma leafy_node_unfold (c : string) t j a h ks :
  leafy_node c (Node t j a h ks)
  = (negb (id_in (leaf_id c) j) || is_nil ks) && forallb (leafy_node c) ks.
Proof. reflexivity. Qed.

Lemma edit_first_nil (i : string) (f : node → list node) :
  edit_first i f [] = None.
Proof. reflexivity. Qed.

(** An edit keeps the paragraphs and rows childless when what it puts in
    place of the element does. *)
Lemma edit_node_leafy (c i : string) (f : node → list node) :
  (∀ m, node_id m = Some i → leafy_node c m = true →
        forallb (leafy_node c) (f m) = true) →
  ∀ n r, leafy_node c n = true → edit_node i f n = Some r →
         forallb (leafy_node c) r = true.
Proof.
  intros Hf. induction n as [t j a h ks IH] using node_forall_ind.
  intros r Hn. rewrite edit_node_unfold.
  destruct (decide (j = Some i)) as [-> | Hj].
  - rewrite bool_decide_eq_true_2 by done. intros [= <-]. by apply Hf.
  - rewrite bool_decide_eq_false_2 by done.
    destruct (edit_first i f ks) as [ks'|] eqn:E; [|done]. intros [= <-].
    cbn [forallb]. rewrite andb_true_r, leafy_node_unfold.
    rewrite leafy_node_unfold in Hn. apply andb_true_iff in Hn as [Hj' Hks].
    assert (negb (id_in (leaf_id c) j) = true) as ->.
    { destruct ks; [done|]. by rewrite orb_false_r in Hj'. }
    cbn [orb andb].
    apply edit_first_cases in E as (l1 & m & l2 & r' & -> & Hm & -> & _).
    apply forallb_app_true in Hks as [H1 H2]. cbn [forallb] in H2.
    apply andb_true_iff in H2 as [H2 H3].
    apply Forall_app in IH as [_ [IHm _]%Forall_cons].
    apply forallb_app_true. split; [done|].
    apply forallb_app_true. split; [|done]. by apply (IHm _ H2).
Qed.

Lemma edit_first_leafy (c i : string) (f : node → list node) :
  (∀ m, node_id m = Some i → leafy_node c m = true →
        forallb (leafy_node c) (f m) = true) →
  ∀ ns r, leafy c ns = true → edit_first i f ns = Some r → leafy c r = true.
Proof.
  intros Hf ns r Hns (l1 & m & l2 & r' & -> & Hm & -> & _)%edit_first_cases.
  unfold leafy in *.
  apply forallb_app_true in Hns as [H1 H2]. cbn [forallb] in H2.
  apply andb_true_iff in H2 as [H2 H3].
  apply forallb_app_true. split; [done|].
  apply forallb_app_true. split; [|done].
  by apply (edit_node_leafy c i f Hf m).
Qed.

Lemma set_innerHTML_leafy (c text : string) (m : node) :
  forallb (leafy_node c) (set_innerHTML text m) = true.
Proof.
  destruct m as [t j a h ks]. cbn [set_innerHTML forallb leafy_node is_nil].
  by rewrite orb_true_r.
Qed.

Lemma leafy_node_own (c : string) (t : string) j a h (ks' : list node) :
  id_in (leaf_id c) j = false → forallb (leafy_node c) ks' = true →
  leafy_node c (Node t j a h ks') = true.
Proof. intros Hj Hks. rewrite leafy_node_unfold. by rewrite Hj, Hks. Qed.

Lemma set_children_leafy (c i : string) (new : list node) (m : node) :
  leaf_id c i = false → forallb (leafy_node c) new = true →
  node_id m = Some i → forallb (leafy_node c) (set_children new m) = true.
Proof.
  intros Hi Hnew. destruct m as [t j a h ks]. cbn [node_id]. intros ->.
  cbn [set_children forallb]. rewrite andb_true_r.
  by apply leafy_node_own.
Qed.

Lemma insert_leafy (c : string) (new m : node) :
  leafy_node c new = true → leafy_node c m = true →
  forallb (leafy_node c) (insert_beforebegin new m) = true
  ∧ forallb (leafy_node c) (insert_afterend new m) = true.
Proof.
  intros H1 H2. cbn [insert_beforebegin insert_afterend forallb].
  by rewrite H1, H2.
Qed.

Lemma appendChild_leafy (c i : string) (new m : node) :
  leaf_id c i = false → leafy_node c new = true →
  node_id m = Some i → leafy_node c m = true →
  forallb (leafy_node c) (appendChild new m) = true.
Proof.
  intros Hi Hnew. destruct m as [t j a h ks]. cbn [node_id]. intros ->.
  rewrite leafy_node_unfold. intros [_ Hks]%andb_true_iff.
  cbn [appendChild forallb]. rewrite andb_true_r.
  apply leafy_node_own; [done|].
  apply forallb_app_true. split; [done|]. cbn [forallb]. by rewrite Hnew.
Qed.

(** Writing into a childless element loses no id. *)
Lemma edit_node_set_innerHTML_ids (c i x text : string) :
  leaf_id c i = true →
  ∀ n r, leafy_node c n = true →
         edit_node i (set_innerHTML text) n = Some r →
         has_id x r = has_id_node x n.
Proof.
  intros Hi. induction n as [t j a h ks IH] using node_forall_ind.
  intros r Hn. rewrite edit_node_unfold.
  rewrite leafy_node_unfold in Hn. apply andb_true_iff in Hn as [Hj Hks].
  destruct (decide (j = Some i)) as [-> | Hj'].
  - rewrite bool_decide_eq_true_2 by done. intros [= <-].
    cbn [id_in] in Hj. rewrite Hi in Hj. cbn [negb orb] in Hj. destruct ks; [|done].
    rewrite has_id_cons, !has_id_node_unfold. cbn [has_id existsb].
    by rewrite !orb_false_r.
  - rewrite bool_decide_eq_false_2 by done.
    destruct (edit_first i (set_innerHTML text) ks) as [ks'|] eqn:E; [|done].
    intros [= <-]. rewrite has_id_cons, !has_id_node_unfold.
    cbn [has_id existsb]. rewrite orb_false_r. f_equal.
    apply edit_first_cases in E as (l1 & m & l2 & r' & -> & Hm & -> & _).
    apply forallb_app_true in Hks as [H1 H2]. cbn [forallb] in H2.
    apply andb_true_iff in H2 as [H2 H3].
    apply Forall_app in IH as [_ [IHm _]%Forall_cons].
    rewrite !has_id_app, has_id_cons. by rewrite (IHm _ H2 Hm).
Qed.

Lemma edit_first_set_innerHTML_ids (c i x text : string) (ns r : list node) :
  leaf_id c i = true → leafy c ns = true →
  edit_first i (set_innerHTML text) ns = Some r →
  has_id x r = has_id x ns.
Proof.
  intros Hi Hns (l1 & m & l2 & r' & -> & Hm & -> & _)%edit_first_cases.
  unfold leafy in Hns.
  apply forallb_app_true in Hns as [H1 H2]. cbn [forallb] in H2.
  apply andb_true_iff in H2 as [H2 H3].
  rewrite !has_id_app, has_id_cons.
  by rewrite (edit_node_set_innerHTML_ids c i x text Hi m r' H2 Hm).
Qed.

(** An edit that keeps what the element holds loses no id. *)
Lemma edit_node_keeps_id (i x : string) (f : node → list node) :
  (∀ m, has_id_node x m = true → has_id x (f m) = true) →
  ∀ n r, edit_node i f n = Some r → has_id_node x n = true →
         has_id x r = true.
Proof.
  intros Hf. induction n as [t j a h ks IH] using node_forall_ind.
  intros r. rewrite edit_node_unfold.
  destruct (decide (j = Some i)) as [-> | Hj].
  - rewrite bool_decide_eq_true_2 by done. intros [= <-]. by apply Hf.
  - rewrite bool_decide_eq_false_2 by done.
    destruct (edit_first i f ks) as [ks'|] eqn:E; [|done]. intros [= <-].
    rewrite has_id_cons, !has_id_node_unfold.
    cbn [has_id existsb]. rewrite orb_false_r.
    intros [Hx | Hx]%orb_true_iff; [by rewrite Hx|].
    apply orb_true_iff. right.
    apply edit_first_cases in E as (l1 & m & l2 & r' & -> & Hm & -> & _).
    apply Forall_app in IH as [_ [IHm _]%Forall_cons].
    rewrite has_id_app, has_id_cons in Hx. rewrite !has_id_app.
    apply orb_true_iff in Hx as [Hx | [Hx | Hx]%orb_true_iff].
    + by rewrite Hx.
    + by rewrite (IHm _ Hm Hx), orb_true_r.
    + by rewrite Hx, !orb_true_r.
Qed.

Lemma edit_first_keeps_id (i x : string) (f : node → list node) :
  (∀ m, has_id_node x m = true → has_id x (f m) = true) →
  ∀ ns r, edit_first i f ns = Some r → has_id x ns = true →
          has_id x r = true.
Proof.
  intros Hf ns r (l1 & m & l2 & r' & -> & Hm & -> & _)%edit_first_cases.
  rewrite has_id_app, has_id_cons. rewrite !has_id_app.
  intros [Hx | [Hx | Hx]%orb_true_iff]%orb_true_iff.
  - by rewrite Hx.
  - by rewrite (edit_node_keeps_id i x f Hf m r' Hm Hx), orb_true_r.
  - by rewrite Hx, !orb_true_r.
Qed.

Lemma insert_keeps_id (x : string) (new m : node) :
  has_id_node x m = true →
  has_id x (insert_beforebegin new m) = true
  ∧ has_id x (insert_afterend new m) = true.
Proof.
  intros H. unfold insert_beforebegin, insert_afterend.
  rewrite !has_id_cons, H. by rewrite !orb_true_r.
Qed.

Lemma appendChild_keeps_id (x : string) (new m : node) :
  has_id_node x m = true → has_id x (appendChild new m) = true.
Proof.
  destruct m as [t j a h ks]. rewrite has_id_node_unfold. intros H.
  unfold appendChild. rewrite has_id_cons, has_id_node_unfold, has_id_app.
  apply orb_true_iff in H as [-> | ->]; [done|]. by rewrite !orb_true_r.
Qed.


Lemma find_node_unfold (x : string) t j a h ks :
  find_node x (Node t j a h ks)
  = if bool_decide (j = Some x) then Some (Node t j a h ks)
    else find_first x ks.
Proof.
  cbn [find_node]. destruct (bool_decide (j = Some x)); [done|].
  induction ks as [|k ks IH]; [done|]. cbn [find_first].
  destruct (find_node x k); [done|]. apply IH.
Qed.

Lemma html_at_cons (x : string) (n : node) (ns : list node) :
  html_at x (n :: ns)
  = match html_at x [n] with Some h => Some h | None => html_at x ns end.
Proof.
  unfold html_at. cbn [find_first]. by destruct (find_node x n).
Qed.

Lemma html_at_app (x : string) (l1 l2 : list node) :
  html_at x (l1 ++ l2)
  = match html_at x l1 with Some h => Some h | None => html_at x l2 end.
Proof.
  induction l1 as [|n l1 IH]; [done|].
  rewrite <- app_comm_cons, html_at_cons, (html_at_cons x n l1), IH.
  by destruct (html_at x [n]).
Qed.

Lemma html_at_node (x : string) t j a h ks :
  html_at x [Node t j a h ks]
  = if bool_decide (j = Some x) then Some h else html_at x ks.
Proof.
  unfold html_at. cbn [find_first]. rewrite find_node_unfold.
  destruct (bool_decide (j = Some x)); [done|].
  by destruct (find_first x ks).
Qed.

(** An element with the id shows something, and only then. *)
Lemma html_at_has_id (x : string) (ns : list node) :
  (if html_at x ns is Some _ then true else false) = has_id x ns.
Proof.
  assert (∀ n, (if html_at x [n] is Some _ then true else false)
               = has_id_node x n) as Hnode.
  { induction n as [t j a h ks IH] using node_forall_ind.
    rewrite html_at_node, has_id_node_unfold.
    destruct (bool_decide (j = Some x)); [done|]. cbn [orb].
    induction IH as [|k ks Hk _ IH]; [done|].
    rewrite html_at_cons, has_id_cons, <- Hk, <- IH.
    by destruct (html_at x [k]). }
  induction ns as [|n ns IH]; [done|].
  rewrite html_at_cons, has_id_cons, <- Hnode, <- IH.
  by destruct (html_at x [n]).
Qed.

Lemma html_at_Some_has_id (x h : string) (ns : list node) :
  html_at x ns = Some h → has_id x ns = true.
Proof. intros H. by rewrite <- html_at_has_id, H. Qed.

Lemma html_at_no_id (x : string) (ns : list node) :
  has_id x ns = false → html_at x ns = None.
Proof. rewrite <- html_at_has_id. by destruct (html_at x ns). Qed.

(** An edit changes what the first element with an id shows only through
    what it puts in place of the element it is aimed at. *)
Lemma edit_node_html_at (Q : node → Prop) (i x : string)
    (f : node → list node) :
  (∀ t j a h ks, Q (Node t j a h ks) → Forall Q ks) →
  (∀ m, node_id m = Some i → Q m → html_at x (f m) = html_at x [m]) →
  ∀ n r, Q n → edit_node i f n = Some r → html_at x r = html_at x [n].
Proof.
  intros HQ Hf. induction n as [t j a h ks IH] using node_forall_ind.
  intros r Hn. rewrite edit_node_unfold.
  destruct (decide (j = Some i)) as [-> | Hj].
  - rewrite bool_decide_eq_true_2 by done. intros [= <-]. by apply Hf.
  - rewrite bool_decide_eq_false_2 by done.
    destruct (edit_first i f ks) as [ks'|] eqn:E; [|done]. intros [= <-].
    rewrite !html_at_node. destruct (bool_decide (j = Some x)); [done|].
    apply edit_first_cases in E as (l1 & m & l2 & r' & -> & Hm & -> & _).
    apply HQ in Hn. apply Forall_app in Hn as [_ [Hn _]%Forall_cons].
    apply Forall_app in IH as [_ [IHm _]%Forall_cons].
    rewrite !html_at_app, (html_at_cons x m l2), (IHm _ Hn Hm).
    done.
Qed.

Lemma edit_first_html_at (Q : node → Prop) (i x : string)
    (f : node → list node) :
  (∀ t j a h ks, Q (Node t j a h ks) → Forall Q ks) →
  (∀ m, node_id m = Some i → Q m → html_at x (f m) = html_at x [m]) →
  ∀ ns r, Forall Q ns → edit_first i f ns = Some r →
          html_at x r = html_at x ns.
Proof.
  intros HQ Hf ns r Hns (l1 & m & l2 & r' & -> & Hm & -> & _)%edit_first_cases.
  apply Forall_app in Hns as [_ [Hn _]%Forall_cons].
  rewrite !html_at_app, (html_at_cons x m l2).
  by rewrite (edit_node_html_at Q i x f HQ Hf m r' Hn Hm).
Qed.

Lemma html_at_before_target (i : string) (f : node → list node)
    (l : list node) :
  Forall (λ k, edit_node i f k = None) l → html_at i l = None.
Proof.
  intros Hl. apply html_at_no_id. rewrite <- (edit_first_found i f).
  induction Hl as [|k l Hk _ IH]; [done|].
  cbn [edit_first]. rewrite Hk. by destruct (edit_first i f l).
Qed.

(** What the edited element shows afterwards. *)
Lemma edit_node_html_at_target (i t : string) (f : node → list node) :
  (∀ m, node_id m = Some i → html_at i (f m) = Some t) →
  ∀ n r, edit_node i f n = Some r → html_at i r = Some t.
Proof.
  intros Hf. induction n as [tg j a h ks IH] using node_forall_ind.
  intros r. rewrite edit_node_unfold.
  destruct (decide (j = Some i)) as [-> | Hj].
  - rewrite bool_decide_eq_true_2 by done. intros [= <-]. by apply Hf.
  - rewrite bool_decide_eq_false_2 by done.
    destruct (edit_first i f ks) as [ks'|] eqn:E; [|done]. intros [= <-].
    rewrite html_at_node, bool_decide_eq_false_2 by done.
    apply edit_first_cases in E as (l1 & m & l2 & r' & -> & Hm & -> & Hl1).
    apply Forall_app in IH as [_ [IHm _]%Forall_cons].
    by rewrite !html_at_app, (html_at_before_target i f l1 Hl1), (IHm _ Hm).
Qed.

Lemma edit_first_html_at_target (i t : string) (f : node → list node) :
  (∀ m, node_id m = Some i → html_at i (f m) = Some t) →
  ∀ ns r, edit_first i f ns = Some r → html_at i r = Some t.
Proof.
  intros Hf ns r (l1 & m & l2 & r' & -> & Hm & -> & Hl1)%edit_first_cases.
  rewrite !html_at_app, (html_at_before_target i f l1 Hl1).
  by rewrite (edit_node_html_at_target i t f Hf m r' Hm).
Qed.

(** The elements of the visible-label region show what they show in the
    document. *)
Lemma html_at_collect (P : string → bool) (x : string) (ns : list node) :
  P x = true → html_at x (collect P ns) = html_at x ns.
Proof.
  intros Hx.
  assert (∀ n, html_at x (collect_node P n) = html_at x [n]) as Hnode.
  { induction n as [t j a h ks IH] using node_forall_ind.
    rewrite collect_node_unfold, html_at_app.
    assert (html_at x (flat_map (collect_node P) ks) = html_at x ks) as Hks.
    { induction IH as [|k ks Hk _ IH]; [done|].
      cbn [flat_map]. by rewrite html_at_app, Hk, IH, (html_at_cons x k ks). }
    destruct (id_in P j) eqn:Hj.
    - rewrite html_at_node. destruct (bool_decide (j = Some x)); [done|].
      unfold collect. rewrite Hks. by destruct (html_at x ks).
    - unfold collect. rewrite Hks, html_at_node. change (html_at x []) with (@None string).
      rewrite bool_decide_eq_false_2; [done|]. intros ->.
      cbn [id_in] in Hj. congruence. }
  induction ns as [|n ns IH]; [done|].
  unfold collect in *. cbn [flat_map].
  by rewrite html_at_app, Hnode, IH, (html_at_cons x n ns).
Qed.

Lemma leafy_Forall (c : string) (ns : list node) :
  leafy c ns = true → Forall (λ n, leafy_node c n = true) ns.
Proof.
  unfold leafy. induction ns as [|n ns IH]; [done|]. cbn [forallb].
  intros [H1 H2]%andb_true_iff. constructor; auto.
Qed.

Lemma leafy_hereditary (c : string) t j a h ks :
  leafy_node c (Node t j a h ks) = true →
  Forall (λ n, leafy_node c n = true) ks.
Proof.
  rewrite leafy_node_unfold. intros [_ H]%andb_true_iff.
  by apply leafy_Forall.
Qed.

Lemma has_id_of_html_at (x : string) (d d' : list node) :
  (∀ o, html_at x d = o → html_at x d' = o) →
  has_id x d = true → has_id x d' = true.
Proof.
  intros H. rewrite <- !html_at_has_id. by rewrite (H _ eq_refl).
Qed.

(** What each kind of edit leaves of a document whose regions are apart
    and whose paragraphs and rows are childless. *)
Section steps.
Context (c : string).

Lemma step_set_innerHTML (i t : string) (d d' : list node) :
  edit_first i (set_innerHTML t) d = Some d' →
  leafy c d = true → apart c d = true → leaf_id c i = true →
  leafy c d' = true ∧ apart c d' = true
  ∧ (∀ x, has_id x d = true → has_id x d' = true)
  ∧ html_at i d' = Some t
  ∧ (∀ x o, x ≠ i → html_at x d = o → html_at x d' = o).
Proof.
  intros E Hl Ha Hi. split_and!.
  - apply (edit_first_leafy c i _ (λ m _ _, set_innerHTML_leafy c t m) d);
      done.
  - apply (edit_first_apart c i _
             (λ m inF inL _ H, set_innerHTML_apart c t m inF inL H) d); done.
  - intros x. by rewrite (edit_first_set_innerHTML_ids c i x t d d').
  - eapply (edit_first_html_at_target i t (set_innerHTML t)); [|exact E].
    intros [tg j a h ks]. cbn [node_id]. intros ->.
    cbn [set_innerHTML]. by rewrite html_at_node, bool_decide_eq_true_2.
  - intros x o Hx <-.
    eapply (edit_first_html_at (λ n, leafy_node c n = true) i x
              (set_innerHTML t) (leafy_hereditary c));
      [|by apply leafy_Forall|exact E].
    intros [tg j a h ks]. cbn [node_id]. intros ->.
    rewrite leafy_node_unfold. cbn [id_in]. rewrite Hi. cbn [negb orb].
    intros [Hks _]%andb_true_iff. destruct ks; [|done].
    cbn [set_innerHTML]. rewrite !html_at_node.
    by rewrite bool_decide_eq_false_2 by congruence.
Qed.

Lemma insert_shows (x : string) (new m : node) :
  has_id_node x new = false →
  html_at x (insert_beforebegin new m) = html_at x [m]
  ∧ html_at x (insert_afterend new m) = html_at x [m].
Proof.
  intros H. assert (html_at x [new] = None) as Hn.
  { apply html_at_no_id. rewrite has_id_cons, H. done. }
  unfold insert_beforebegin, insert_afterend.
  rewrite (html_at_cons x new), (html_at_cons x m [new]), Hn.
  by destruct (html_at x [m]).
Qed.

Lemma appendChild_shows (x : string) (new m : node) :
  has_id_node x new = false →
  html_at x (appendChild new m) = html_at x [m].
Proof.
  intros H. assert (html_at x [new] = None) as Hn.
  { apply html_at_no_id. rewrite has_id_cons, H. done. }
  destruct m as [t j a h ks]. cbn [appendChild]. rewrite !html_at_node.
  destruct (bool_decide (j = Some x)); [done|].
  rewrite html_at_app, Hn. by destruct (html_at x ks).
Qed.

Lemma has_id_insert_new (x : string) (new m : node) :
  has_id_node x new = true →
  has_id x (insert_beforebegin new m) = true
  ∧ has_id x (insert_afterend new m) = true.
Proof.
  intros H. unfold insert_beforebegin, insert_afterend.
  rewrite !has_id_cons, H. by rewrite !orb_true_r.
Qed.

Lemma has_id_appendChild_new (x : string) (new m : node) :
  has_id_node x new = true → has_id x (appendChild new m) = true.
Proof.
  intros H. destruct m as [t j a h ks]. unfold appendChild.
  rewrite has_id_cons, has_id_node_unfold, has_id_app, has_id_cons, H.
  by rewrite !orb_true_r.
Qed.

(** Inserting markup next to an element, without the layout. *)
Lemma step_insert_core (i : string) (new : node) (d d' : list node) :
  edit_first i (insert_beforebegin new) d = Some d'
  ∨ edit_first i (insert_afterend new) d = Some d' →
  leafy c d = true → leafy_node c new = true →
  leafy c d' = true
  ∧ (∀ x, has_id x d = true → has_id x d' = true)
  ∧ (∀ x, has_id_node x new = true → has_id x d' = true)
  ∧ (∀ x o, has_id_node x new = false → html_at x d = o → html_at x d' = o).
Proof.
  intros E Hl Hnew. split_and!.
  - destruct E as [E | E];
      (eapply edit_first_leafy; [|exact Hl|exact E]);
      intros m _ Hm; by destruct (insert_leafy c new m Hnew Hm).
  - intros x Hx. destruct E as [E | E];
      (eapply edit_first_keeps_id; [|exact E|exact Hx]);
      intros m Hm; by destruct (insert_keeps_id x new m Hm).
  - intros x Hx. destruct E as [E | E];
      (eapply edit_first_has_id; [|exact E]);
      intros m _; by destruct (has_id_insert_new x new m Hx).
  - intros x o Hx <-. destruct E as [E | E];
      (eapply (edit_first_html_at (λ _, True)); [| |by apply Forall_true|exact E]);
      try (intros; by apply Forall_true);
      intros m _ _; by destruct (insert_shows x new m Hx).
Qed.

Lemma step_insert (i : string) (new : node) (d d' : list node) :
  edit_first i (insert_beforebegin new) d = Some d'
  ∨ edit_first i (insert_afterend new) d = Some d' →
  leafy c d = true → apart c d = true →
  fallback_id c i = true → fresh_fallback c new = true →
  leafy_node c new = true →
  leafy c d' = true ∧ apart c d' = true
  ∧ (∀ x, has_id x d = true → has_id x d' = true)
  ∧ (∀ x, has_id_node x new = true → has_id x d' = true)
  ∧ (∀ x o, has_id_node x new = false → html_at x d = o → html_at x d' = o).
Proof.
  intros E Hl Ha Hi Hf Hnew.
  destruct (step_insert_core i new d d' E Hl Hnew) as (H1 & H2 & H3 & H4).
  split_and!; try done.
  destruct E as [E | E];
    (eapply edit_first_apart; [|exact Ha|exact E]);
    intros m inF inL Hm H;
    by destruct (insert_apart c i Hi new m inF inL Hf Hm H).
Qed.

Lemma step_label_insert (i : string) (new : node) (d d' : list node) :
  edit_first i (insert_beforebegin new) d = Some d'
  ∨ edit_first i (insert_afterend new) d = Some d' →
  leafy c d = true → apart c d = true →
  label_id c i = true ∨ i = c → fresh_label c new = true →
  leafy_node c new = true →
  leafy c d' = true ∧ apart c d' = true
  ∧ (∀ x, has_id x d = true → has_id x d' = true)
  ∧ (∀ x, has_id_node x new = true → has_id x d' = true)
  ∧ (∀ x o, has_id_node x new = false → html_at x d = o → html_at x d' = o).
Proof.
  intros E Hl Ha Hi Hf Hnew.
  destruct (step_insert_core i new d d' E Hl Hnew) as (H1 & H2 & H3 & H4).
  split_and!; try done.
  destruct E as [E | E];
    (eapply edit_first_apart; [|exact Ha|exact E]);
    intros m inF inL Hm H;
    by destruct (label_insert_apart c i Hi new m inF inL Hf Hm H).
Qed.

Lemma step_appendChild_core (i : string) (new : node) (d d' : list node) :
  edit_first i (appendChild new) d = Some d' →
  leafy c d = true → leaf_id c i = false → leafy_node c new = true →
  leafy c d' = true
  ∧ (∀ x, has_id x d = true → has_id x d' = true)
  ∧ (∀ x, has_id_node x new = true → has_id x d' = true)
  ∧ (∀ x o, has_id_node x new = false → html_at x d = o → html_at x d' = o).
Proof.
  intros E Hl Hi Hnew. split_and!.
  - eapply edit_first_leafy; [|exact Hl|exact E].
    intros m Hm1 Hm2. by apply (appendChild_leafy c i).
  - intros x Hx. eapply edit_first_keeps_id; [|exact E|exact Hx].
    intros m Hm. by apply appendChild_keeps_id.
  - intros x Hx. eapply edit_first_has_id; [|exact E].
    intros m _. by apply has_id_appendChild_new.
  - intros x o Hx <-.
    eapply (edit_first_html_at (λ _, True)); [| |by apply Forall_true|exact E].
    + intros. by apply Forall_true.
    + intros m _ _. by apply appendChild_shows.
Qed.

Lemma step_appendChild (i : string) (new : node) (d d' : list node) :
  edit_first i (appendChild new) d = Some d' →
  leafy c d = true → apart c d = true →
  fallback_id c i = true → fresh_fallback c new = true →
  leaf_id c i = false → leafy_node c new = true →
  leafy c d' = true ∧ apart c d' = true
  ∧ (∀ x, has_id x d = true → has_id x d' = true)
  ∧ (∀ x, has_id_node x new = true → has_id x d' = true)
  ∧ (∀ x o, has_id_node x new = false → html_at x d = o → html_at x d' = o).
Proof.
  intros E Hl Ha Hi Hf Hleaf Hnew.
  destruct (step_appendChild_core i new d d' E Hl Hleaf Hnew)
    as (H1 & H2 & H3 & H4).
  split_and!; try done.
  eapply edit_first_apart; [|exact Ha|exact E].
  intros m inF inL Hm H. by apply (appendChild_apart c i).
Qed.

Lemma step_label_appendChild (i : string) (new : node) (d d' : list node) :
  edit_first i (appendChild new) d = Some d' →
  leafy c d = true → apart c d = true →
  label_id c i = true → fresh_label c new = true →
  leaf_id c i = false → leafy_node c new = true →
  leafy c d' = true ∧ apart c d' = true
  ∧ (∀ x, has_id x d = true → has_id x d' = true)
  ∧ (∀ x, has_id_node x new = true → has_id x d' = true)
  ∧ (∀ x o, has_id_node x new = false → html_at x d = o → html_at x d' = o).
Proof.
  intros E Hl Ha Hi Hf Hleaf Hnew.
  destruct (step_appendChild_core i new d d' E Hl Hleaf Hnew)
    as (H1 & H2 & H3 & H4).
  split_and!; try done.
  eapply edit_first_apart; [|exact Ha|exact E].
  intros m inF inL Hm H. apply (label_appendChild_apart c i); auto.
Qed.

Lemma leaf_id_canvas : leaf_id c c = false.
Proof.
  unfold leaf_id.
  rewrite !(bool_decide_eq_false_2 (c = _))
    by (intros H; symmetry in H; by apply append_eq_self in H).
  cbn [orb].
  assert (∀ s, s ≠ "" → startsWith c (c +:+ s) = false) as Hs.
  { intros s Hne. destruct (startsWith c (c +:+ s)) eqn:E; [|done].
    apply startsWith_inv in E as [q E]. rewrite append_assoc in E.
    symmetry in E. apply append_eq_self in E. by destruct s. }
  by rewrite !Hs.
Qed.

(** Replacing what the canvas holds. *)
Lemma step_set_children (new : list node) (d d' : list node) :
  edit_first c (set_children new) d = Some d' →
  leafy c d = true → apart c d = true →
  forallb (fresh_fallback c) new = true →
  forallb (leafy_node c) new = true →
  leafy c d' = true ∧ apart c d' = true
  ∧ has_id c d' = true
  ∧ (∀ x, label_id c x = true → has_id x d = true → has_id x d' = true)
  ∧ (∀ x, has_id x new = true → has_id x d' = true)
  ∧ (∀ x o, label_id c x = true → html_at x d = o → html_at x d' = o).
Proof.
  intros E Hl Ha Hf Hnew.
  assert (∀ x o, label_id c x = true → html_at x d = o → html_at x d' = o)
    as Hshow.
  { intros x o Hx <-.
    rewrite <- (html_at_collect (label_id c) x d' Hx).
    rewrite <- (html_at_collect (label_id c) x d Hx). f_equal.
    apply (edit_first_collect c c (set_children new) (fallback_id_canvas c));
      [|done..].
    intros m _ Hm. by apply set_children_collect. }
  split_and!; [..|done].
  - eapply edit_first_leafy; [|exact Hl|exact E].
    intros m Hm _. apply (set_children_leafy c c); [apply leaf_id_canvas|done..].
  - eapply edit_first_apart; [|exact Ha|exact E].
    intros m inF inL Hm H.
    by apply (set_children_apart c c (fallback_id_canvas c)).
  - eapply edit_first_has_id; [|exact E].
    intros [t j a h ks]. cbn [node_id]. intros ->.
    cbn [set_children]. by rewrite has_id_cons, has_id_node_own.
  - intros x Hx. apply has_id_of_html_at. intros o. by apply Hshow.
  - intros x Hx. eapply edit_first_has_id; [|exact E].
    intros [t j a h ks] _. cbn [set_children].
    rewrite has_id_cons, has_id_node_unfold, Hx. by rewrite orb_true_r.
Qed.
End steps.

Lemma leaf_id_append (c r : string) : leaf_id c (c +:+ r) = leaf_suffix r.
Proof.
  unfold leaf_id, leaf_suffix.
  by rewrite !bool_decide_append, !startsWith_append.
Qed.

Lemma leafy_childless (c : string) t j a h :
  leafy_node c (Node t j a h []) = true.
Proof. rewrite leafy_node_unfold. cbn [is_nil forallb]. by rewrite orb_true_r. Qed.

Lemma leafy_fallback_table (c : string) : leafy_node c (fallback_table c) = true.
Proof.
  unfold fallback_table. apply leafy_node_own.
  - cbn [id_in]. by rewrite leaf_id_append.
  - cbn [forallb]. by rewrite leafy_childless.
Qed.

Lemma leafy_label_table (c : string) : leafy_node c (label_table c) = true.
Proof. apply leafy_childless. Qed.

Lemma leafy_fallback_container (c : string) (n : node) :
  leafy_node c n = true → leafy_node c (fallback_container c n) = true.
Proof.
  intros H. unfold fallback_container. apply leafy_node_own.
  - cbn [id_in]. by rewrite leaf_id_append.
  - cbn [forallb]. by rewrite H.
Qed.

Lemma leafy_label_container (c : string) (n : node) :
  leafy_node c n = true → leafy_node c (label_container c n) = true.
Proof.
  intros H. unfold label_container. apply leafy_node_own.
  - cbn [id_in]. by rewrite leaf_id_append.
  - cbn [forallb]. by rewrite H.
Qed.

Lemma leaf_id_row (c k : string) :
  leaf_id c (c +:+ fallbackTableElId +:+ k) = true
  ∧ leaf_id c (c +:+ labelTableElId +:+ k) = true.
Proof.
  rewrite !leaf_id_append. unfold leaf_suffix.
  rewrite !startsWith_app. by rewrite !orb_true_r.
Qed.

Ltac leafy_solve :=
  repeat first
    [ apply leafy_childless | apply leafy_fallback_table
    | apply leafy_label_table | apply leafy_fallback_container
    | apply leafy_label_container
    | cbn [forallb]; apply andb_true_iff; split; [|reflexivity] ].

Ltac leaf_id_solve :=
  first [ apply leaf_id_row | rewrite leaf_id_append; reflexivity ].

(** Two ids of a surface differ when their suffixes do. *)
Ltac id_ne :=
  let H := fresh in
  intros H; repeat apply (inj (String.append _)) in H;
  first [ discriminate H | cbn in H; discriminate H | congruence ].

Ltac no_new_id :=
  unfold label_container, fallback_container, label_table, fallback_table,
    p_node, tableRow;
  cbn [has_id_node existsb orb];
  rewrite ?bool_decide_eq_false_2
    by (let H := fresh in intros [= H]; revert H; id_ne);
  reflexivity.


Ltac coh_destruct H :=
  destruct H as [Hcanvas Hleafy Hapart Hupd Hftext Hfcont Hftable Hfrow
                 Hltext Hlcont Hlpara Hltable Hlrow];
  cbn [dummy props fallbackElements labelElements document] in *.

Ltac lookups :=
  repeat first
    [ rewrite lookup_insert_eq
    | rewrite lookup_insert_ne by key_ne
    | progress change (truthy (Some VTrue)) with true ].

Create HintDb coh.
#[local] Hint Extern 2 (html_at _ ?d = _) =>
  match goal with
  | H : ∀ x o, @?P x → html_at x _ = o → html_at x d = o |- _ =>
      apply H; [solve [id_ne | no_new_id | label_id_solve] |]
  end : coh.
#[local] Hint Extern 1 (has_id_node ?x _ = true) =>
  solve [ unfold label_container, fallback_container, label_table,
            fallback_table, p_node, tableRow;
          cbn [has_id_node existsb];
          rewrite (bool_decide_eq_true_2 (Some x = Some x) eq_refl);
          cbn [orb]; rewrite ?orb_false_r, ?orb_true_r; reflexivity ] : coh.
#[local] Hint Extern 1 (has_id ?x ?d = true) =>
  match goal with
  | H : html_at x d = Some _ |- _ => exact (html_at_Some_has_id _ _ _ H)
  end : coh.
#[local] Hint Extern 1 (label_id _ _ = true) => solve [label_id_solve] : coh.

(** Bring what is known of the state before the call to bear. *)
Ltac coh_use :=
  repeat match goal with
         | H : true = true → _ |- _ => specialize (H eq_refl)
         | H : false = true → _ |- _ => clear H
         | H : truthy ?x = true → _, H' : truthy ?x = true |- _ =>
             specialize (H H')
         | H : ∀ v, ?m !! ?k = Some v → _, H' : ?m !! ?k = Some _ |- _ =>
             specialize (H _ H')
         | H : ∀ k inner, ?m !! (?c +:+ k) = Some inner → _,
           H' : ?m !! (?c +:+ _) = Some _ |- _ =>
             specialize (H _ _ H')
         | H : ∃ _, _ |- _ => destruct H
         | H : _ ∧ _ |- _ => destruct H
         end.

(** An element is still there after the edits, or is shown unchanged. *)
Ltac has_id_chain :=
  repeat first
    [ assumption
    | match goal with
      | H : html_at ?x ?d = Some _ |- has_id ?x ?d = true =>
          exact (html_at_Some_has_id _ _ _ H)
      | H : ∀ x, has_id x ?d0 = true → has_id x ?d = true
        |- has_id _ ?d = true => apply H
      | H : ∀ x, label_id _ x = true → has_id x ?d0 = true
                 → has_id x ?d = true
        |- has_id _ ?d = true => apply H; [solve [label_id_solve] |]
      end ].

Ltac html_at_chain :=
  repeat first
    [ assumption
    | match goal with
      | H : ∀ x o, @?P x → html_at x _ = o → html_at x ?d = o
        |- html_at _ ?d = _ =>
          apply H; [solve [id_ne | no_new_id | label_id_solve] |]
      end ].

Ltac coh_direct :=
  first [ assumption | reflexivity | solve [has_id_chain]
        | solve [html_at_chain] | done ].

Ltac coh_atom :=
  first [ coh_direct | left; coh_direct | right; coh_direct
        | solve [eauto 6 with coh] ].

Ltac coh_solve :=
  repeat match goal with
         | H : truthy ?x = _ |- context [truthy ?x] => rewrite H
         end;
  try done;
  intros;
  repeat match goal with
         | H : <[?c +:+ ?k0 := _]> _ !! (?c +:+ ?k) = _ |- _ =>
             first [ rewrite lookup_insert_eq in H
                   | destruct (decide (k = k0)) as [-> | ?];
                     [ rewrite lookup_insert_eq in H
                     | rewrite lookup_insert_ne in H by id_ne ] ]
         end;
  simplify_eq; coh_use; simplify_eq;
  repeat match goal with H : _ ∨ _ |- _ => destruct H end;
  repeat match goal with
         | |- ∃ _, _ => eexists
         | |- _ ∧ _ => split
         end;
  coh_atom.

Ltac coh_finish :=
  eexists; split; [reflexivity|];
  split_and!; cbn [dummy props fallbackElements labelElements document];
  lookups; try done;
  try (constructor;
       cbn [dummy props fallbackElements labelElements document];
       lookups; coh_solve).

(** The steps of a call, with what each is known to keep. *)
Ltac step_innerHTML E Hl Ha :=
  let Hl' := fresh "Hl" in
  let Ha' := fresh "Ha" in
  let Hid := fresh "Hid" in
  let Htgt := fresh "Htgt" in
  let Hsh := fresh "Hsh" in
  destruct (step_set_innerHTML _ _ _ _ _ E Hl Ha)
    as (Hl' & Ha' & Hid & Htgt & Hsh); [leaf_id_solve|].

Lemma coherent_describe_fallback (c t : string) (σ : state) :
  coherent c σ → props (dummy σ) !! (c +:+ "DOM") = Some VBody → t ≠ "" →
  ∃ σ', describe_fallback c t σ = (Return (), σ')
        ∧ coherent c σ'
        ∧ props (dummy σ') !! (c +:+ "DOM") = Some VBody
        ∧ props (dummy σ') !! (c +:+ "fallbackDesc") = Some (VString t).
Proof.
  destruct σ as [[pr fe le] doc]. intros Hcoh HD Ht.
  pose proof Hcoh as Hcoh'. coh_destruct Hcoh'.
  unfold describe_fallback. mrun. case_bool_decide as Hd; mrun.
  2:{ eexists. split; [done|]. split_and!; [done..|].
      cbn [dummy props].
      by destruct (decide (pr !! (c +:+ "fallbackDesc") = Some (VString t))). }
  change (truthy None) with false. cbn match.
  unfold _describeFallbackHTML, querySelector_edit, querySelector_found,
    theDOM. mrun.
  destruct (truthy (pr !! (c +:+ descContainer))) eqn:Hc; mrun.
  - destruct (truthy (pr !! (c +:+ fallbackTableId))) eqn:Htb; mrun.
    + destruct (Hftable eq_refl) as [_ Htab].
      edit_found E1; [done|]. mrun.
      destruct (step_insert c _ _ _ _ (or_introl E1) Hleafy Hapart)
        as (Hl1 & Ha1 & Hid1 & Hnew1 & Hsh1);
        [fallback_id_solve | fresh_solve | leafy_solve |].
      assert (has_id (c +:+ fallbackDescId) d = true) as Hp.
      { apply Hnew1. apply has_id_node_own. }
      mrun. edit_found E2; [done|]. mrun.
      step_innerHTML E2 Hl1 Ha1. coh_finish.
    + destruct (Hfcont eq_refl) as [? | Hp]; [done|]. mrun.
      edit_found E2; [done|]. mrun.
      step_innerHTML E2 Hleafy Hapart. coh_finish.
  - edit_found E1; [done|]. mrun.
    destruct (step_set_children c _ _ _ E1 Hleafy Hapart)
      as (Hl1 & Ha1 & Hc1 & Hid1 & Hnew1 & Hsh1); [fresh_solve | leafy_solve |].
    assert (has_id (c +:+ fallbackDescId) d = true) as Hp.
    { apply Hnew1. unfold fallback_container.
      rewrite has_id_cons, has_id_node_unfold, has_id_p_node.
      by rewrite !orb_true_r. }
    mrun. edit_found E2; [done|]. mrun.
    step_innerHTML E2 Hl1 Ha1. coh_finish.
Qed.

Ltac step_label_ins E Hl Ha :=
  let Hl' := fresh "Hl" in
  let Ha' := fresh "Ha" in
  let Hid := fresh "Hid" in
  let Hnew := fresh "Hnew" in
  let Hsh := fresh "Hsh" in
  first [ destruct (step_label_insert _ _ _ _ _ (or_introl E) Hl Ha)
            as (Hl' & Ha' & Hid & Hnew & Hsh)
        | destruct (step_label_insert _ _ _ _ _ (or_intror E) Hl Ha)
            as (Hl' & Ha' & Hid & Hnew & Hsh) ];
    [label_id_solve | fresh_label_solve | leafy_solve |].

Ltac step_ins E Hl Ha :=
  let Hl' := fresh "Hl" in
  let Ha' := fresh "Ha" in
  let Hid := fresh "Hid" in
  let Hnew := fresh "Hnew" in
  let Hsh := fresh "Hsh" in
  first [ destruct (step_insert _ _ _ _ _ (or_introl E) Hl Ha)
            as (Hl' & Ha' & Hid & Hnew & Hsh)
        | destruct (step_insert _ _ _ _ _ (or_intror E) Hl Ha)
            as (Hl' & Ha' & Hid & Hnew & Hsh) ];
    [fallback_id_solve | fresh_solve | leafy_solve |].

Ltac step_children E Hl Ha :=
  let Hl' := fresh "Hl" in
  let Ha' := fresh "Ha" in
  let Hc := fresh "Hc" in
  let Hid := fresh "Hid" in
  let Hnew := fresh "Hnew" in
  let Hsh := fresh "Hsh" in
  destruct (step_set_children _ _ _ _ E Hl Ha)
    as (Hl' & Ha' & Hc & Hid & Hnew & Hsh); [fresh_solve | leafy_solve |].

Ltac step_append E Hl Ha :=
  let Hl' := fresh "Hl" in
  let Ha' := fresh "Ha" in
  let Hid := fresh "Hid" in
  let Hnew := fresh "Hnew" in
  let Hsh := fresh "Hsh" in
  destruct (step_appendChild _ _ _ _ _ E Hl Ha)
    as (Hl' & Ha' & Hid & Hnew & Hsh);
    [fallback_id_solve | fresh_solve | leaf_id_solve | leafy_solve |].

Ltac step_label_append E Hl Ha :=
  let Hl' := fresh "Hl" in
  let Ha' := fresh "Ha" in
  let Hid := fresh "Hid" in
  let Hnew := fresh "Hnew" in
  let Hsh := fresh "Hsh" in
  destruct (step_label_appendChild _ _ _ _ _ E Hl Ha)
    as (Hl' & Ha' & Hid & Hnew & Hsh);
    [label_id_solve | fresh_label_solve | leaf_id_solve | leafy_solve |].

Lemma coherent_describe_label (c t : string) (display : jsval) (σ : state) :
  coherent c σ → props (dummy σ) !! (c +:+ "DOM") = Some VBody → t ≠ "" →
  ∃ σ', describe_label c t display σ = (Return (), σ')
        ∧ coherent c σ'
        ∧ props (dummy σ') !! (c +:+ "fallbackDesc")
          = props (dummy σ) !! (c +:+ "fallbackDesc")
        ∧ (display = LABEL →
           props (dummy σ') !! (c +:+ "labelDesc") = Some (VString t)).
Proof.
  destruct σ as [[pr fe le] doc]. intros Hcoh HD Ht.
  pose proof Hcoh as Hcoh'. coh_destruct Hcoh'.
  unfold describe_label. mrun.
  destruct (decide (display = LABEL)) as [-> | Hdis].
  2:{ rewrite (bool_decide_eq_false_2 _ Hdis). mrun.
      eexists. by split_and!. }
  rewrite (bool_decide_eq_true_2 _ eq_refl). mrun.
  case_bool_decide as Hd; mrun.
  2:{ eexists. split; [done|]. split_and!; [done..|]. intros _.
      cbn [dummy props].
      by destruct (decide (pr !! (c +:+ "labelDesc") = Some (VString t))). }
  destruct (truthy (pr !! (c +:+ labelDescId))) eqn:Hp.
  { unfold querySelector_edit, theDOM. mrun.
    destruct (Hlpara eq_refl) as [_ Hpl].
    edit_found E1; [done|]. mrun.
    step_innerHTML E1 Hleafy Hapart. coh_finish. }
  unfold _describeLabelHTML, querySelector_edit, theDOM. mrun.
  destruct (truthy (pr !! (c +:+ labelContainer))) eqn:Hc; mrun.
  - destruct (truthy (pr !! (c +:+ labelTableId))) eqn:Htb; mrun.
    2:{ by destruct (Hlcont eq_refl). }
    destruct (Hltable eq_refl) as [_ Htab].
    edit_found E1; [done|]. mrun.
    step_label_ins E1 Hleafy Hapart.
    edit_found E2; [by apply Hnew; apply has_id_node_own|]. mrun.
    step_innerHTML E2 Hl Ha. coh_finish.
  - edit_found E1; [done|]. mrun.
    step_label_ins E1 Hleafy Hapart.
    edit_found E2.
    { apply Hnew. unfold label_container.
      rewrite has_id_node_unfold, has_id_p_node. by rewrite orb_true_r. }
    mrun. step_innerHTML E2 Hl Ha. coh_finish.
Qed.

Ltac erun :=
  repeat first [ mstep | progress change (truthy_row None) with false ].

Lemma truthy_row_Some (inner : string) :
  inner ≠ "" → truthy_row (Some inner) = true.
Proof. intros H. cbn. by rewrite bool_decide_eq_false_2. Qed.

Lemma coherent_describeElement_fallback (c k inner : string) (σ : state) :
  coherent c σ → props (dummy σ) !! (c +:+ "DOM") = Some VBody →
  inner ≠ "" →
  ∃ σ', describeElement_fallback c k inner σ = (Return (), σ')
        ∧ coherent c σ'
        ∧ props (dummy σ') !! (c +:+ "DOM") = Some VBody
        ∧ fallbackElements (dummy σ') !! (c +:+ k) = Some inner.
Proof.
  destruct σ as [[pr fe le] doc]. intros Hcoh HD Hin.
  pose proof Hcoh as Hcoh'. coh_destruct Hcoh'.
  unfold describeElement_fallback. erun. case_bool_decide as Hd; erun.
  2:{ eexists. split; [done|]. split_and!; [done..|].
      cbn [dummy fallbackElements].
      by destruct (decide (fe !! (c +:+ k) = Some inner)). }
  destruct (fe !! (c +:+ k)) as [old|] eqn:He.
  { destruct (Hfrow _ _ He) as (Hold & _ & Htb & Hrow).
    rewrite (truthy_row_Some _ Hold). erun.
    unfold querySelector_edit, theDOM. erun.
    edit_found E1; [by apply html_at_Some_has_id in Hrow|]. erun.
    step_innerHTML E1 Hleafy Hapart. coh_finish. }
  change (truthy_row None) with false. erun.
  unfold _descElementFallbackHTML, querySelector_edit, theDOM. erun.
  destruct (truthy (pr !! (c +:+ descContainer))) eqn:Hc; erun.
  - destruct (has_id (c +:+ fallbackDescId) doc) eqn:Hp; erun.
    + edit_found E1; [done|]. erun.
      step_ins E1 Hleafy Hapart.
      edit_found E2; [by apply Hnew; apply has_id_node_own|]. erun.
      step_append E2 Hl Ha.
      edit_found E3; [by apply Hnew0; apply has_id_node_own|]. erun.
      step_innerHTML E3 Hl0 Ha0. coh_finish.
    + destruct (Hfcont eq_refl) as [Htb | ?]; [|done].
      destruct (Hftable Htb) as [_ Htab]. erun.
      edit_found E2; [done|]. erun.
      step_append E2 Hleafy Hapart.
      edit_found E3; [by apply Hnew; apply has_id_node_own|]. erun.
      step_innerHTML E3 Hl Ha. coh_finish.
  - edit_found E1; [done|]. erun.
    step_children E1 Hleafy Hapart.
    assert (has_id (c +:+ fallbackTableId) d = true) as Htab.
    { apply Hnew. unfold fallback_container, fallback_table.
      rewrite has_id_cons, has_id_node_unfold, has_id_cons, has_id_node_own.
      by rewrite !orb_true_r. }
    edit_found E2; [done|]. erun. step_append E2 Hl Ha.
    edit_found E3; [by apply Hnew0; apply has_id_node_own|]. erun.
    step_innerHTML E3 Hl0 Ha0. coh_finish.
Qed.

Lemma coherent_describeElement_label (c k inner : string) (display : jsval)
    (σ : state) :
  coherent c σ → props (dummy σ) !! (c +:+ "DOM") = Some VBody →
  inner ≠ "" →
  ∃ σ', describeElement_label c k inner display σ = (Return (), σ')
        ∧ coherent c σ'
        ∧ fallbackElements (dummy σ') = fallbackElements (dummy σ)
        ∧ (display = LABEL →
           labelElements (dummy σ') !! (c +:+ k) = Some inner).
Proof.
  destruct σ as [[pr fe le] doc]. intros Hcoh HD Hin.
  pose proof Hcoh as Hcoh'. coh_destruct Hcoh'.
  unfold describeElement_label. erun.
  destruct (decide (display = LABEL)) as [-> | Hdis].
  2:{ rewrite (bool_decide_eq_false_2 _ Hdis). erun.
      eexists. by split_and!. }
  rewrite (bool_decide_eq_true_2 _ eq_refl). erun.
  case_bool_decide as Hd; erun.
  2:{ eexists. split; [done|]. split_and!; [done..|]. intros _.
      cbn [dummy labelElements].
      by destruct (decide (le !! (c +:+ k) = Some inner)). }
  destruct (le !! (c +:+ k)) as [old|] eqn:He.
  { destruct (Hlrow _ _ He) as (Hold & Htb & Hrow).
    rewrite (truthy_row_Some _ Hold). erun.
    unfold querySelector_edit, theDOM. erun.
    edit_found E1; [by apply html_at_Some_has_id in Hrow|]. erun.
    step_innerHTML E1 Hleafy Hapart. coh_finish. }
  change (truthy_row None) with false. erun.
  unfold _descElementLabelHTML, querySelector_edit, querySelector_found,
    theDOM. erun.
  destruct (truthy (pr !! (c +:+ labelContainer))) eqn:Hc; erun.
  - destruct (has_id (c +:+ labelDescId) doc) eqn:Hp; erun.
    + edit_found E1; [done|]. erun.
      step_label_ins E1 Hleafy Hapart.
      edit_found E2; [by apply Hnew; apply has_id_node_own|]. erun.
      step_label_append E2 Hl Ha.
      edit_found E3; [by apply Hnew0; apply has_id_node_own|]. erun.
      step_innerHTML E3 Hl0 Ha0. coh_finish.
    + destruct (truthy (pr !! (c +:+ labelDescId))) eqn:Hpf.
      { destruct (Hlpara eq_refl) as [_ ?]. congruence. }
      destruct (Hlcont eq_refl) as [? | Htb]; [done|].
      destruct (Hltable Htb) as [_ Htab]. erun.
      edit_found E2; [done|]. erun.
      step_label_append E2 Hleafy Hapart.
      edit_found E3; [by apply Hnew; apply has_id_node_own|]. erun.
      step_innerHTML E3 Hl Ha. coh_finish.
  - edit_found E1; [done|]. erun.
    step_label_ins E1 Hleafy Hapart.
    assert (has_id (c +:+ labelTableId) d = true) as Htab.
    { apply Hnew. unfold label_container, label_table.
      rewrite has_id_node_unfold, has_id_cons, has_id_node_own.
      by rewrite !orb_true_r. }
    edit_found E2; [done|]. erun. step_label_append E2 Hl Ha.
    edit_found E3; [by apply Hnew0; apply has_id_node_own|]. erun.
    step_innerHTML E3 Hl0 Ha0. coh_finish.
Qed.

Lemma coherent_populate (c : string) (σ : state) :
  coherent c σ → coherent c (_populateDummyDOM c σ).2.
Proof.
  destruct σ as [[pr fe le] doc]. intros Hcoh. coh_destruct Hcoh.
  unfold _populateDummyDOM.
  constructor; cbn [setProp snd dummy props fallbackElements labelElements
                    document]; lookups; try done.
  - intros v Hv. destruct (Hftext v Hv) as (t & ? & ? & ? & ?). eauto.
  - intros k inner Hk. destruct (Hfrow k inner Hk) as (? & ? & ? & ?). eauto.
Qed.

Lemma truthy_Some (o : option value) : truthy o = true → ∃ v, o = Some v.
Proof. destruct o; [eauto | done]. Qed.

Lemma truthy_row_is_Some (o : option string) :
  truthy_row o = true → ∃ v, o = Some v.
Proof. destruct o; [eauto | done]. Qed.

Lemma coherent_populate_if_needed (c : string) (σ : state) :
  coherent c σ →
  coherent c (populate_if_needed c σ)
  ∧ props (dummy (populate_if_needed c σ)) !! (c +:+ "DOM") = Some VBody.
Proof.
  intros Hcoh. unfold populate_if_needed.
  destruct (truthy (props (dummy σ) !! (c +:+ "fallbackDesc"))) eqn:Hf.
  - destruct (truthy (props (dummy σ) !! (c +:+ "labelDesc")));
      cbn [negb orb].
    + split; [done|]. apply truthy_Some in Hf as [v Hv].
      by destruct (coh_ftext c σ Hcoh v Hv) as (t & _ & _ & ? & _).
    + split; [by apply coherent_populate|].
      unfold _populateDummyDOM. cbn [setProp snd dummy props].
      by rewrite lookup_insert_eq.
  - cbn [negb orb]. split; [by apply coherent_populate|].
    unfold _populateDummyDOM. cbn [setProp snd dummy props].
    by rewrite lookup_insert_eq.
Qed.

Lemma coherent_populate_rows_if_needed (c k : string) (σ : state) :
  coherent c σ →
  coherent c (populate_rows_if_needed c k σ)
  ∧ props (dummy (populate_rows_if_needed c k σ)) !! (c +:+ "DOM")
    = Some VBody.
Proof.
  intros Hcoh. unfold populate_rows_if_needed.
  destruct (truthy_row (fallbackElements (dummy σ) !! (c +:+ k))) eqn:Hf.
  - destruct (truthy_row (labelElements (dummy σ) !! (c +:+ k)));
      cbn [negb orb].
    + split; [done|]. apply truthy_row_is_Some in Hf as [v Hv].
      by destruct (coh_frow c σ Hcoh k v Hv) as (_ & ? & _).
    + split; [by apply coherent_populate|].
      unfold _populateDummyDOM. cbn [setProp snd dummy props].
      by rewrite lookup_insert_eq.
  - cbn [negb orb]. split; [by apply coherent_populate|].
    unfold _populateDummyDOM. cbn [setProp snd dummy props].
    by rewrite lookup_insert_eq.
Qed.

(** On a coherent state [describe] returns, and the state it leaves is
    coherent and holds the text. *)
Lemma coherent_describe (c s t : string) (display : jsval) (σ : state) :
  coherent c σ → _descriptionText s = Return t →
  ∃ σ', describe c (JString s) display σ = (Return (), σ')
        ∧ coherent c σ'
        ∧ props (dummy σ') !! (c +:+ "fallbackDesc") = Some (VString t)
        ∧ (display = LABEL →
           props (dummy σ') !! (c +:+ "labelDesc") = Some (VString t)).
Proof.
  intros Hcoh Hs. rewrite describe_body, Hs.
  pose proof (descriptionText_nonempty _ _ Hs) as Ht.
  destruct (coherent_populate_if_needed c σ Hcoh) as [H0 HD0].
  destruct (coherent_describe_fallback c t _ H0 HD0 Ht)
    as (σ1 & -> & H1 & HD1 & Hf1).
  destruct (coherent_describe_label c t display _ H1 HD1 Ht)
    as (σ2 & -> & H2 & Hf2 & Hl2).
  exists σ2. split_and!; [done | done | congruence | done].
Qed.

Lemma coherent_describeElement (c name s en t : string) (display : jsval)
    (σ : state) :
  coherent c σ → _elementName name = Return en →
  _descriptionText s = Return t →
  ∃ σ', describeElement c (JString name) (JString s) display σ
        = (Return (), σ')
        ∧ coherent c σ'
        ∧ fallbackElements (dummy σ') !! (c +:+ _nameForID name)
          = Some (row_markup en t)
        ∧ (display = LABEL →
           labelElements (dummy σ') !! (c +:+ _nameForID name)
           = Some (row_markup en t)).
Proof.
  intros Hcoh Hn Hs. rewrite describeElement_body, Hs, Hn. cbn zeta.
  pose proof (row_markup_nonempty en t) as Hin.
  destruct (coherent_populate_rows_if_needed c (_nameForID name) σ Hcoh)
    as [H0 HD0].
  destruct (coherent_describeElement_fallback c (_nameForID name) _ _
              H0 HD0 Hin) as (σ1 & -> & H1 & HD1 & Hf1).
  destruct (coherent_describeElement_label c (_nameForID name) _ display _
              H1 HD1 Hin) as (σ2 & -> & H2 & Hf2 & Hl2).
  exists σ2. split_and!; [done | done | congruence | done].
Qed.

(** A call either returns or refuses a reserved word and leaves the state
    as it was; the state stays coherent. *)
Lemma coherent_call (c : string) (k : call) (σ : state) :
  on_surface c k = true → coherent c σ →
  coherent c (after k σ)
  ∧ (∀ e σ', run_call k σ = (Throw e, σ') → ReservedNameError e ∧ σ' = σ).
Proof.
  intros Hk Hcoh. unfold after.
  destruct k as [c' text display | c' name text display |];
    cbn [on_surface run_call] in *.
  - apply bool_decide_eq_true in Hk as ->.
    destruct text as [| | | |s|]; try (split; [done | by intros ??]).
    destruct (_descriptionText s) as [t|e] eqn:Hs.
    + destruct (coherent_describe c s t display σ Hcoh Hs)
        as (σ1 & -> & H1 & _). split; [done | by intros ??].
    + rewrite describe_body, Hs. split; [done|].
      intros e' σ' [= <- <-]. split; [|done].
      unfold _descriptionText in Hs. repeat case_match; try done.
      injection Hs as <-. by left.
  - apply bool_decide_eq_true in Hk as ->.
    destruct text as [| | | |s|];
      try (split; [by destruct name | intros ??; by destruct name]).
    destruct name as [| | | |n|]; try (split; [done | by intros ??]).
    destruct (_descriptionText s) as [t|e] eqn:Hs.
    + destruct (_elementName n) as [en|e] eqn:Hn.
      * destruct (coherent_describeElement c n s en t display σ Hcoh Hn Hs)
          as (σ1 & -> & H1 & _). split; [done | by intros ??].
      * rewrite describeElement_body, Hs, Hn. split; [done|].
        intros e' σ' [= <- <-]. split; [|done].
        unfold _elementName in Hn. repeat case_match; try done.
        injection Hn as <-. by right.
    + rewrite describeElement_body, Hs. split; [done|].
      intros e' σ' [= <- <-]. split; [|done].
      unfold _descriptionText in Hs. repeat case_match; try done.
      injection Hs as <-. by left.
  - split; [|by intros ??]. destruct Hcoh.
    by constructor.
Qed.

Lemma coherent_initial (c : string) (doc : list node) :
  has_id c doc = true → leafy c doc = true → apart c doc = true →
  coherent c (initial doc).
Proof. intros. by constructor. Qed.

Lemma coherent_run (c : string) (doc : list node) (cs : list call) :
  has_id c doc = true → leafy c doc = true → apart c doc = true →
  forallb (on_surface c) cs = true →
  coherent c (run cs (initial doc)).
Proof.
  intros H1 H2 H3. unfold run.
  generalize (coherent_initial c doc H1 H2 H3). generalize (initial doc).
  induction cs as [|k cs IH]; intros σ Hσ; cbn [foldl forallb]; [done|].
  intros [Hk Hcs]%andb_true_iff. apply IH; [|done].
  by apply coherent_call.
Qed.

(** A page of canvases is such a document, for each of its canvases. *)
Lemma leafy_page (c : string) (ids : list string) :
  leafy c (page ids) = true.
Proof.
  unfold leafy, page. induction ids as [|i ids IH]; [done|].
  cbn [map forallb]. unfold canvas at 1. by rewrite leafy_childless, IH.
Qed.

Lemma has_id_page (c : string) (ids : list string) :
  c ∈ ids → has_id c (page ids) = true.
Proof.
  unfold page. induction 1 as [c ids | c i ids _ IH].
  - cbn [map]. unfold canvas at 1. by rewrite has_id_cons, has_id_node_own.
  - cbn [map]. by rewrite has_id_cons, IH, orb_true_r.
Qed.

(** In the model: one canvas, in a document where its two regions are
    apart and its paragraphs and rows have no children; every page of
    canvases is one (lemmas [apart_page], [leafy_page] and [has_id_page]).
    After any sequence of resets and calls on that canvas, [describe] with
    a text that is not reserved returns; the store then holds the
    normalised text and the first paragraph of the accessible-only region
    shows it, and with LABEL the same holds of the visible-label region. *)
Lemma describe_publishes_from (c : string) (doc : list node) (cs : list call)
    (s t : string) (display : jsval) :
  has_id c doc = true → leafy c doc = true → apart c doc = true →
  forallb (on_surface c) cs = true →
  _descriptionText s = Return t →
  ∃ σ', describe c (JString s) display (run cs (initial doc))
        = (Return (), σ')
        ∧ props (dummy σ') !! (c +:+ "fallbackDesc") = Some (VString t)
        ∧ html_at (c +:+ fallbackDescId) (document σ') = Some t
        ∧ (display = LABEL →
           props (dummy σ') !! (c +:+ "labelDesc") = Some (VString t)
           ∧ html_at (c +:+ labelDescId) (document σ') = Some t).
Proof.
  intros H1 H2 H3 Hcs Hs.
  pose proof (coherent_run c doc cs H1 H2 H3 Hcs) as Hcoh.
  destruct (coherent_describe c s t display _ Hcoh Hs)
    as (σ' & E & Hcoh' & Hf & Hl).
  exists σ'. split_and!; [done | done | |].
  - destruct (coh_ftext c σ' Hcoh' _ Hf) as (t' & [= <-] & _ & _ & _ & ?).
    done.
  - intros Hd. specialize (Hl Hd). split; [done|].
    by destruct (coh_ltext c σ' Hcoh' _ Hl) as (t' & [= <-] & _ & ?).
Qed.

(** In the model, the same for [describeElement]: with a name and a text
    that are not reserved it returns; the store then holds the row under
    the key of the name, and the first row with the id of that key shows
    it, in the accessible-only region and, with LABEL, in the
    visible-label region. *)
Lemma describeElement_publishes_from (c : string) (doc : list node)
    (cs : list call) (name s en t : string) (display : jsval) :
  has_id c doc = true → leafy c doc = true → apart c doc = true →
  forallb (on_surface c) cs = true →
  _elementName name = Return en → _descriptionText s = Return t →
  ∃ σ', describeElement c (JString name) (JString s) display
          (run cs (initial doc))
        = (Return (), σ')
        ∧ fallbackElements (dummy σ') !! (c +:+ _nameForID name)
          = Some (row_markup en t)
        ∧ html_at (c +:+ fallbackTableElId +:+ _nameForID name) (document σ')
          = Some (row_markup en t)
        ∧ (display = LABEL →
           labelElements (dummy σ') !! (c +:+ _nameForID name)
           = Some (row_markup en t)
           ∧ html_at (c +:+ labelTableElId +:+ _nameForID name)
               (document σ')
             = Some (row_markup en t)).
Proof.
  intros H1 H2 H3 Hcs Hn Hs.
  pose proof (coherent_run c doc cs H1 H2 H3 Hcs) as Hcoh.
  destruct (coherent_describeElement c name s en t display _ Hcoh Hn Hs)
    as (σ' & E & Hcoh' & Hf & Hl).
  exists σ'. split_and!; [done | done | |].
  - by destruct (coh_frow c σ' Hcoh' _ _ Hf) as (_ & _ & _ & ?).
  - intros Hd. specialize (Hl Hd). split; [done|].
    by destruct (coh_lrow c σ' Hcoh' _ _ Hl) as (_ & _ & ?).
Qed.

(** In the model, on one canvas, in such a document, a call fails only by
    refusing a reserved word: after any sequence of resets and calls on
    the canvas, a call that throws throws one of the two reserved-word
    errors and leaves the store and the document as they were.  No
    selector comes back empty, so no TypeError is thrown. *)
Lemma call_fails_only_by_refusal_from (c : string) (doc : list node)
    (cs : list call) (k : call) (e : error) (σ' : state) :
  has_id c doc = true → leafy c doc = true → apart c doc = true →
  forallb (on_surface c) cs = true → on_surface c k = true →
  run_call k (run cs (initial doc)) = (Throw e, σ') →
  ReservedNameError e ∧ σ' = run cs (initial doc).
Proof.
  intros H1 H2 H3 Hcs Hk E.
  pose proof (coherent_run c doc cs H1 H2 H3 Hcs) as Hcoh.
  destruct (coherent_call c k _ Hk Hcoh) as [_ H]. by apply H.
Qed.

(** In the model, on one canvas, in such a document, the store and the
    document agree after every sequence of resets and calls on the canvas,
    those that threw included: a stored description is what the first
    paragraph of its region shows, and a stored row is what the first row
    with the id of its key shows. *)
Lemma store_is_shown_from (c : string) (doc : list node) (cs : list call) :
  has_id c doc = true → leafy c doc = true → apart c doc = true →
  forallb (on_surface c) cs = true →
  let σ := run cs (initial doc) in
  (∀ t, props (dummy σ) !! (c +:+ "fallbackDesc") = Some (VString t) →
        html_at (c +:+ fallbackDescId) (document σ) = Some t)
  ∧ (∀ t, props (dummy σ) !! (c +:+ "labelDesc") = Some (VString t) →
          html_at (c +:+ labelDescId) (document σ) = Some t)
  ∧ (∀ k inner, fallbackElements (dummy σ) !! (c +:+ k) = Some inner →
                html_at (c +:+ fallbackTableElId +:+ k) (document σ)
                = Some inner)
  ∧ (∀ k inner, labelElements (dummy σ) !! (c +:+ k) = Some inner →
                html_at (c +:+ labelTableElId +:+ k) (document σ)
                = Some inner).
Proof.
  intros H1 H2 H3 Hcs σ.
  pose proof (coherent_run c doc cs H1 H2 H3 Hcs) as Hcoh. fold σ in Hcoh.
  split_and!.
  - intros t Hf.
    by destruct (coh_ftext c σ Hcoh _ Hf) as (t' & [= <-] & _ & _ & _ & ?).
  - intros t Hl.
    by destruct (coh_ltext c σ Hcoh _ Hl) as (t' & [= <-] & _ & ?).
  - intros k inner Hf.
    by destruct (coh_frow c σ Hcoh _ _ Hf) as (_ & _ & _ & ?).
  - intros k inner Hl.
    by destruct (coh_lrow c σ Hcoh _ _ Hl) as (_ & _ & ?).
Qed.

(** ** Elements that share an id *)

Lemma count_id_node_unfold (x : string) t j a h ks :
  count_id_node x (Node t j a h ks)
  = (if bool_decide (j = Some x) then 1 else 0) + count_id x ks.
Proof. reflexivity. Qed.

Lemma count_id_cons (x : string) (n : node) (ns : list node) :
  count_id x (n :: ns) = count_id_node x n + count_id x ns.
Proof. reflexivity. Qed.

Lemma count_id_app (x : string) (l1 l2 : list node) :
  count_id x (l1 ++ l2) = count_id x l1 + count_id x l2.
Proof. unfold count_id. by rewrite map_app, list_sum_app. Qed.

(** An edit changes the number of elements with an id by what it changes
    at the element it is aimed at. *)
Lemma edit_node_count (Q : node → Prop) (i x : string)
    (f : node → list node) (δ : nat) :
  (∀ t j a h ks, Q (Node t j a h ks) → Forall Q ks) →
  (∀ m, node_id m = Some i → Q m →
        count_id x (f m) = count_id_node x m + δ) →
  ∀ n r, Q n → edit_node i f n = Some r →
         count_id x r = count_id_node x n + δ.
Proof.
  intros HQ Hf. induction n as [t j a h ks IH] using node_forall_ind.
  intros r Hn. rewrite edit_node_unfold.
  destruct (decide (j = Some i)) as [-> | Hj].
  - rewrite bool_decide_eq_true_2 by done. intros [= <-]. by apply Hf.
  - rewrite bool_decide_eq_false_2 by done.
    destruct (edit_first i f ks) as [ks'|] eqn:E; [|done]. intros [= <-].
    rewrite count_id_cons, !count_id_node_unfold.
    apply edit_first_cases in E as (l1 & m & l2 & r' & -> & Hm & -> & _).
    apply HQ in Hn. apply Forall_app in Hn as [_ [Hn _]%Forall_cons].
    apply Forall_app in IH as [_ [IHm _]%Forall_cons].
    rewrite !count_id_app, count_id_cons, (IHm _ Hn Hm).
    change (count_id x []) with 0. lia.
Qed.

Lemma edit_first_count (Q : node → Prop) (i x : string)
    (f : node → list node) (δ : nat) :
  (∀ t j a h ks, Q (Node t j a h ks) → Forall Q ks) →
  (∀ m, node_id m = Some i → Q m →
        count_id x (f m) = count_id_node x m + δ) →
  ∀ ns r, Forall Q ns → edit_first i f ns = Some r →
          count_id x r = count_id x ns + δ.
Proof.
  intros HQ Hf ns r Hns (l1 & m & l2 & r' & -> & Hm & -> & _)%edit_first_cases.
  apply Forall_app in Hns as [_ [Hn _]%Forall_cons].
  rewrite !count_id_app, count_id_cons.
  rewrite (edit_node_count Q i x f δ HQ Hf m r' Hn Hm). lia.
Qed.

Lemma count_set_innerHTML (c i x t : string) (d d' : list node) :
  edit_first i (set_innerHTML t) d = Some d' →
  leafy c d = true → leaf_id c i = true →
  count_id x d' = count_id x d.
Proof.
  intros E Hl Hi.
  rewrite (edit_first_count (λ n, leafy_node c n = true) i x
             (set_innerHTML t) 0 (leafy_hereditary c)) with (ns := d);
    [lia | | by apply leafy_Forall | done].
  intros [tg j a h ks]. cbn [node_id]. intros ->.
  rewrite leafy_node_unfold. cbn [id_in]. rewrite Hi. cbn [negb orb].
  intros [Hks _]%andb_true_iff. destruct ks; [|done].
  cbn [set_innerHTML]. rewrite count_id_cons, !count_id_node_unfold.
  change (count_id x []) with 0. lia.
Qed.

Lemma count_insert (i x : string) (new : node) (d d' : list node) :
  edit_first i (insert_beforebegin new) d = Some d'
  ∨ edit_first i (insert_afterend new) d = Some d' →
  count_id x d' = count_id x d + count_id_node x new.
Proof.
  intros [E | E];
    (eapply (edit_first_count (λ _, True)); [| |by apply Forall_true|exact E]);
    try (intros; by apply Forall_true);
    intros m _ _; unfold insert_beforebegin, insert_afterend;
    rewrite !count_id_cons; change (count_id x []) with 0; lia.
Qed.

Lemma count_appendChild (i x : string) (new : node) (d d' : list node) :
  edit_first i (appendChild new) d = Some d' →
  count_id x d' = count_id x d + count_id_node x new.
Proof.
  intros E.
  eapply (edit_first_count (λ _, True)); [| |by apply Forall_true|exact E].
  - intros. by apply Forall_true.
  - intros [t j a h ks] _ _. cbn [appendChild].
    rewrite count_id_cons, !count_id_node_unfold, count_id_app, count_id_cons.
    change (count_id x []) with 0. lia.
Qed.

Section counted.
Context (c x : string) (n : nat).

Lemma counted_same_document (f : state → state) :
  (∀ σ, document (f σ) = document σ) →
  preserves (counted c x n) (λ σ, (Return (), f σ)).
Proof. intros Hf σ Hσ. unfold counted. cbn [snd]. by rewrite Hf. Qed.

Lemma counted_set_innerHTML (i t : string) :
  leaf_id c i = true →
  preserves (counted c x n) (document_edit i (set_innerHTML t)).
Proof.
  intros Hi σ [Hl Hn]. unfold document_edit.
  destruct (edit_first i (set_innerHTML t) (document σ)) as [d|] eqn:E;
    [|done].
  split; cbn [snd document].
  - apply (edit_first_leafy c i _ (λ m _ _, set_innerHTML_leafy c t m)
             (document σ)); done.
  - by rewrite (count_set_innerHTML c i x t _ _ E Hl Hi).
Qed.

Lemma counted_insert (i : string) (new : node) :
  leafy_node c new = true → count_id_node x new = 0 →
  preserves (counted c x n) (document_edit i (insert_beforebegin new))
  ∧ preserves (counted c x n) (document_edit i (insert_afterend new)).
Proof.
  intros Hnew H0. split; intros σ [Hl Hn]; unfold document_edit.
  - destruct (edit_first i (insert_beforebegin new) (document σ))
      as [d|] eqn:E; [|done].
    destruct (step_insert_core c i new _ _ (or_introl E) Hl Hnew) as [? _].
    split; cbn [snd document]; [done|].
    rewrite (count_insert i x new _ _ (or_introl E)). lia.
  - destruct (edit_first i (insert_afterend new) (document σ))
      as [d|] eqn:E; [|done].
    destruct (step_insert_core c i new _ _ (or_intror E) Hl Hnew) as [? _].
    split; cbn [snd document]; [done|].
    rewrite (count_insert i x new _ _ (or_intror E)). lia.
Qed.

Lemma counted_appendChild (i : string) (new : node) :
  leaf_id c i = false → leafy_node c new = true → count_id_node x new = 0 →
  preserves (counted c x n) (document_edit i (appendChild new)).
Proof.
  intros Hi Hnew H0 σ [Hl Hn]. unfold document_edit.
  destruct (edit_first i (appendChild new) (document σ)) as [d|] eqn:E;
    [|done].
  destruct (step_appendChild_core c i new _ _ E Hl Hi Hnew) as [? _].
  split; cbn [snd document]; [done|].
  rewrite (count_appendChild i x new _ _ E). lia.
Qed.
End counted.

(** Markup of the visible-label region holds no other id. *)
Lemma fresh_label_count (c x : string) (new : node) :
  fresh_label c new = true → label_id c x = false →
  count_id_node x new = 0.
Proof.
  intros Hnew Hx. induction new as [t j a h ks IH] using node_forall_ind.
  rewrite count_id_node_unfold. cbn [fresh_label] in Hnew.
  apply andb_true_iff in Hnew as [Hj Hks].
  rewrite bool_decide_eq_false_2 by (intros ->; congruence).
  cbn [Nat.add].
  induction IH as [|k ks Hk _ IHks]; [done|].
  cbn [forallb] in Hks. apply andb_true_iff in Hks as [H1 H2].
  by rewrite count_id_cons, (Hk H1), (IHks H2).
Qed.

Ltac counted_auto Hx :=
  repeat first
    [ preserves_step
    | apply counted_set_innerHTML; leaf_id_solve
    | by apply counted_same_document
    | apply counted_insert;
        [ leafy_solve
        | eapply fresh_label_count; [fresh_label_solve | exact Hx] ]
    | apply counted_appendChild;
        [ leaf_id_solve | leafy_solve
        | eapply fresh_label_count; [fresh_label_solve | exact Hx] ] ].

(** The visible-label parts add no element of the other region. *)
Lemma counted_describe_label (c x t : string) (n : nat) (display : jsval) :
  label_id c x = false →
  preserves (counted c x n) (describe_label c t display).
Proof.
  intros Hx.
  unfold describe_label, _describeLabelHTML.
  counted_auto Hx.
Qed.

Lemma counted_describeElement_label (c x k inner : string) (n : nat)
    (display : jsval) :
  label_id c x = false →
  preserves (counted c x n) (describeElement_label c k inner display).
Proof.
  intros Hx.
  unfold describeElement_label, _descElementLabelHTML, setLabelElement.
  counted_auto Hx.
Qed.

Lemma count_p_node (x : string) : count_id_node x (p_node x) = 1.
Proof.
  unfold p_node. rewrite count_id_node_unfold.
  by rewrite bool_decide_eq_true_2.
Qed.

Lemma count_other_node (x i : string) t a h :
  i ≠ x → count_id_node x (Node t (Some i) a h []) = 0.
Proof.
  intros Hi. rewrite count_id_node_unfold.
  rewrite bool_decide_eq_false_2; [done | congruence].
Qed.

Lemma count_fallback_table (c : string) :
  count_id_node (c +:+ fallbackTableId) (fallback_table c) = 1.
Proof.
  unfold fallback_table. rewrite count_id_node_unfold.
  by rewrite bool_decide_eq_true_2.
Qed.

(** Once the table is flagged, the accessible-only part of [describe]
    adds a paragraph for every text that differs from the stored one. *)
Lemma fallback_adds_paragraph (c t : string) (σ : state) :
  coherent c σ → props (dummy σ) !! (c +:+ "DOM") = Some VBody →
  truthy (props (dummy σ) !! (c +:+ fallbackTableId)) = true →
  props (dummy σ) !! (c +:+ "fallbackDesc") ≠ Some (VString t) →
  ∃ σ', describe_fallback c t σ = (Return (), σ')
        ∧ counted c (c +:+ fallbackDescId)
            (count_id (c +:+ fallbackDescId) (document σ) + 1) σ'.
Proof.
  destruct σ as [[pr fe le] doc]. intros Hcoh HD Htb Hd.
  coh_destruct Hcoh.
  destruct (Hftable Htb) as [Hc Htab].
  unfold describe_fallback. mrun.
  rewrite (bool_decide_eq_true_2 _ Hd). mrun.
  change (truthy None) with false. cbn match.
  unfold _describeFallbackHTML, querySelector_edit, querySelector_found,
    theDOM. mrun.
  edit_found E1; [done|]. mrun.
  step_ins E1 Hleafy Hapart.
  assert (has_id (c +:+ fallbackDescId) d = true) as Hp.
  { apply Hnew. apply has_id_node_own. }
  mrun. edit_found E2; [done|]. mrun.
  step_innerHTML E2 Hl Ha.
  eexists. split; [done|]. split; cbn [document]; [done|].
  rewrite (count_set_innerHTML c _ _ _ _ _ E2 Hl) by leaf_id_solve.
  rewrite (count_insert _ _ _ _ _ (or_introl E1)).
  by rewrite count_p_node.
Qed.

(** Once a paragraph is in the document, the accessible-only part of
    [describeElement] adds a table for every element that has no row
    yet. *)
Lemma fallback_adds_table (c k inner : string) (σ : state) :
  coherent c σ → props (dummy σ) !! (c +:+ "DOM") = Some VBody →
  truthy (props (dummy σ) !! (c +:+ descContainer)) = true →
  has_id (c +:+ fallbackDescId) (document σ) = true →
  fallbackElements (dummy σ) !! (c +:+ k) = None →
  ∃ σ', describeElement_fallback c k inner σ = (Return (), σ')
        ∧ counted c (c +:+ fallbackTableId)
            (count_id (c +:+ fallbackTableId) (document σ) + 1) σ'.
Proof.
  destruct σ as [[pr fe le] doc]. intros Hcoh HD Hc Hp He.
  coh_destruct Hcoh.
  unfold describeElement_fallback. erun.
  rewrite bool_decide_eq_true_2 by done. erun.
  unfold _descElementFallbackHTML, querySelector_edit, theDOM. erun.
  edit_found E1; [done|]. erun.
  step_ins E1 Hleafy Hapart.
  edit_found E2; [by apply Hnew; apply has_id_node_own|]. erun.
  step_append E2 Hl Ha.
  edit_found E3; [by apply Hnew0; apply has_id_node_own|]. erun.
  step_innerHTML E3 Hl0 Ha0.
  eexists. split; [done|]. split; cbn [document]; [done|].
  rewrite (count_set_innerHTML c _ _ _ _ _ E3 Hl0) by leaf_id_solve.
  rewrite (count_appendChild _ _ _ _ _ E2).
  rewrite (count_insert _ _ _ _ _ (or_intror E1)).
  rewrite count_fallback_table.
  unfold tableRow. rewrite count_other_node by id_ne. lia.
Qed.

Lemma populate_if_needed_props (c k : string) (σ : state) :
  k ≠ c +:+ "DOM" →
  props (dummy (populate_if_needed c σ)) !! k = props (dummy σ) !! k.
Proof.
  intros Hk. unfold populate_if_needed.
  destruct (negb _ || negb _); [|done].
  unfold _populateDummyDOM. cbn [setProp snd dummy props].
  by rewrite lookup_insert_ne.
Qed.

Lemma populate_if_needed_document (c : string) (σ : state) :
  document (populate_if_needed c σ) = document σ.
Proof. unfold populate_if_needed. by destruct (negb _ || negb _). Qed.

Lemma populate_rows_if_needed_same (c k : string) (σ : state) :
  document (populate_rows_if_needed c k σ) = document σ
  ∧ fallbackElements (dummy (populate_rows_if_needed c k σ))
    = fallbackElements (dummy σ)
  ∧ ∀ j, j ≠ c +:+ "DOM" →
         props (dummy (populate_rows_if_needed c k σ)) !! j
         = props (dummy σ) !! j.
Proof.
  unfold populate_rows_if_needed.
  destruct (negb _ || negb _); [|done].
  unfold _populateDummyDOM. cbn [setProp snd dummy props fallbackElements
                                 document].
  split_and!; [done..|]. intros j Hj. by rewrite lookup_insert_ne.
Qed.

(** In the model: one canvas, in a document where its two regions are
    apart and its paragraphs and rows have no children, after any sequence
    of resets and calls on that canvas.  Once the table of the
    accessible-only region is flagged, every call of [describe] whose text
    differs from the stored one adds one more paragraph with the id of the
    first: the branch that inserts the paragraph before the table does not
    look whether one is there. *)
Lemma describe_adds_paragraph_from (c : string) (doc : list node)
    (cs : list call) (s t : string) (display : jsval) :
  has_id c doc = true → leafy c doc = true → apart c doc = true →
  forallb (on_surface c) cs = true →
  let σ := run cs (initial doc) in
  truthy (props (dummy σ) !! (c +:+ fallbackTableId)) = true →
  _descriptionText s = Return t →
  props (dummy σ) !! (c +:+ "fallbackDesc") ≠ Some (VString t) →
  count_id (c +:+ fallbackDescId)
    (document (after (Describe c (JString s) display) σ))
  = count_id (c +:+ fallbackDescId) (document σ) + 1.
Proof.
  intros H1 H2 H3 Hcs σ Htb Hs Hd.
  pose proof (coherent_run c doc cs H1 H2 H3 Hcs) as Hcoh. fold σ in Hcoh.
  unfold after. cbn [run_call]. rewrite describe_body, Hs.
  destruct (coherent_populate_if_needed c σ Hcoh) as [H0 HD0].
  destruct (fallback_adds_paragraph c t _ H0 HD0) as (σ1 & -> & Hn).
  { by rewrite populate_if_needed_props by id_ne. }
  { by rewrite populate_if_needed_props by id_ne. }
  rewrite populate_if_needed_document in Hn.
  by destruct (counted_describe_label c (c +:+ fallbackDescId) t _ display
                 ltac:(by rewrite label_id_append) σ1 Hn).
Qed.

(** In the model, in the same setting, once a description is stored, every
    call of [describeElement] for an element that has no row yet adds one
    more table with the id of the first: the branch that inserts the table
    after the paragraph does not look whether one is there.  The row goes
    into the new table. *)
Lemma describeElement_adds_table_from (c : string) (doc : list node)
    (cs : list call) (name s en t : string) (v : value) (display : jsval) :
  has_id c doc = true → leafy c doc = true → apart c doc = true →
  forallb (on_surface c) cs = true →
  let σ := run cs (initial doc) in
  props (dummy σ) !! (c +:+ "fallbackDesc") = Some v →
  fallbackElements (dummy σ) !! (c +:+ _nameForID name) = None →
  _elementName name = Return en → _descriptionText s = Return t →
  count_id (c +:+ fallbackTableId)
    (document (after (DescribeElement c (JString name) (JString s) display)
                 σ))
  = count_id (c +:+ fallbackTableId) (document σ) + 1.
Proof.
  intros H1 H2 H3 Hcs σ Hv He Hn Hs.
  pose proof (coherent_run c doc cs H1 H2 H3 Hcs) as Hcoh. fold σ in Hcoh.
  unfold after. cbn [run_call]. rewrite describeElement_body, Hs, Hn.
  cbv zeta.
  destruct (coherent_populate_rows_if_needed c (_nameForID name) σ Hcoh)
    as [H0 HD0].
  destruct (populate_rows_if_needed_same c (_nameForID name) σ)
    as (Hdoc & Hfe & Hpr).
  destruct (coh_ftext c σ Hcoh v Hv) as (t' & -> & _ & _ & Hc & Hp).
  apply html_at_Some_has_id in Hp.
  destruct (fallback_adds_table c (_nameForID name) (row_markup en t) _
              H0 HD0) as (σ1 & -> & Hcount).
  { by rewrite Hpr by id_ne. }
  { by rewrite Hdoc. }
  { by rewrite Hfe. }
  rewrite Hdoc in Hcount.
  by destruct (counted_describeElement_label c (c +:+ fallbackTableId)
                 (_nameForID name) (row_markup en t) _ display
                 ltac:(by rewrite label_id_append) σ1 Hcount).
Qed.

(** ** The visible-label region on one canvas *)

Lemma count_heads_app (x : string) (l1 l2 : list node) :
  count_heads x (l1 ++ l2) = count_heads x l1 + count_heads x l2.
Proof. unfold count_heads. by rewrite map_app, list_sum_app. Qed.

(** The elements of a region are counted among the nodes collected for
    it. *)
Lemma count_id_collect (P : string → bool) (x : string) (ns : list node) :
  P x = true → count_id x ns = count_heads x (collect P ns).
Proof.
  intros Hx.
  assert (∀ n, count_id_node x n = count_heads x (collect_node P n))
    as Hnode.
  { induction n as [t j a h ks IH] using node_forall_ind.
    rewrite count_id_node_unfold, collect_node_unfold, count_heads_app.
    assert (count_id x ks = count_heads x (collect P ks)) as ->.
    { induction IH as [|k ks Hk _ IH]; [done|].
      by rewrite count_id_cons, collect_cons, count_heads_app, Hk, IH. }
    f_equal. destruct (id_in P j) eqn:Hj.
    - unfold count_heads. cbn [map list_sum node_id].
      by destruct (bool_decide (j = Some x)).
    - rewrite bool_decide_eq_false_2; [done|]. intros ->.
      cbn [id_in] in Hj. congruence. }
  induction ns as [|n ns IH]; [done|].
  by rewrite count_id_cons, collect_cons, count_heads_app, Hnode, IH.
Qed.

(** The accessible-only parts leave the visible-label region as it is,
    its elements counted. *)
Lemma label_region_count (c x : string) (σ σ' : state) :
  label_id c x = true →
  label_region_of c σ' = label_region_of c σ →
  count_id x (document σ') = count_id x (document σ).
Proof.
  intros Hx H. apply (f_equal labelNodes) in H. cbn [label_region_of
    labelNodes] in H.
  by rewrite !(count_id_collect (label_id c) x _ Hx), H.
Qed.

(** With the paragraph flagged, the visible-label part of [describe]
    writes into the paragraph and adds none. *)
Lemma label_keeps_paragraph (c t : string) (display : jsval) (σ : state) :
  coherent c σ → props (dummy σ) !! (c +:+ "DOM") = Some VBody →
  truthy (props (dummy σ) !! (c +:+ labelDescId)) = true →
  count_id (c +:+ labelDescId) (document (describe_label c t display σ).2)
  = count_id (c +:+ labelDescId) (document σ).
Proof.
  destruct σ as [[pr fe le] doc]. intros Hcoh HD Hp. coh_destruct Hcoh.
  unfold describe_label. mrun.
  destruct (bool_decide (display = LABEL)
            && bool_decide (pr !! (c +:+ "labelDesc") ≠ Some (VString t)));
    [|done].
  mrun. unfold querySelector_edit, theDOM. mrun.
  destruct (Hlpara Hp) as [_ Hpl].
  edit_found E1; [done|]. mrun. cbn [snd document].
  by rewrite (count_set_innerHTML c _ _ _ _ _ E1 Hleafy) by leaf_id_solve.
Qed.

(** In the model, the paragraph of the visible-label region is guarded
    where the paragraph of the accessible-only region is not.  On one
    canvas, in a document where its two regions are apart and its
    paragraphs and rows have no children, after any sequence of resets and
    calls on that canvas: once the label paragraph is flagged, no call of
    [describe], whatever its text and display, changes the number of
    elements with the id of the label paragraph. *)
Lemma label_paragraph_not_added_again_from (c : string) (doc : list node)
    (cs : list call) (text display : jsval) :
  has_id c doc = true → leafy c doc = true → apart c doc = true →
  forallb (on_surface c) cs = true →
  let σ := run cs (initial doc) in
  truthy (props (dummy σ) !! (c +:+ labelDescId)) = true →
  count_id (c +:+ labelDescId)
    (document (after (Describe c text display) σ))
  = count_id (c +:+ labelDescId) (document σ).
Proof.
  intros H1 H2 H3 Hcs σ Hp.
  pose proof (coherent_run c doc cs H1 H2 H3 Hcs) as Hcoh. fold σ in Hcoh.
  unfold after. cbn [run_call].
  destruct text as [| | | |s|]; try done.
  rewrite describe_body.
  destruct (_descriptionText s) as [t|e] eqn:Hs; [|done].
  pose proof (descriptionText_nonempty _ _ Hs) as Ht.
  destruct (coherent_populate_if_needed c σ Hcoh) as [H0 HD0].
  pose proof (keeps_describe_fallback c
                (label_region_of c (populate_if_needed c σ)) t
                (populate_if_needed c σ)
                (conj (coh_apart c _ H0) eq_refl)) as [_ Hreg].
  destruct (coherent_describe_fallback c t _ H0 HD0 Ht)
    as (σ1 & E & Hcoh1 & HD1 & _).
  rewrite E in Hreg |- *. cbn [snd] in Hreg.
  assert (label_id c (c +:+ labelDescId) = true) as Hx
    by (by rewrite label_id_append).
  assert (truthy (props (dummy σ1) !! (c +:+ labelDescId)) = true) as Hp1.
  { apply (f_equal hasLabelParagraph) in Hreg.
    cbn [label_region_of hasLabelParagraph] in Hreg. rewrite Hreg.
    by rewrite populate_if_needed_props by id_ne. }
  rewrite (label_keeps_paragraph c t display σ1 Hcoh1 HD1 Hp1).
  rewrite (label_region_count c _ _ _ Hx Hreg).
  by rewrite populate_if_needed_document.
Qed.

Lemma count_label_table (c : string) :
  count_id_node (c +:+ labelTableId) (label_table c) = 1.
Proof.
  unfold label_table. rewrite count_id_node_unfold.
  by rewrite bool_decide_eq_true_2.
Qed.

(** With the label paragraph in the document, the visible-label part of
    [describeElement] adds a table for every element that has no label row
    yet. *)
Lemma label_adds_table (c k inner : string) (σ : state) :
  coherent c σ → props (dummy σ) !! (c +:+ "DOM") = Some VBody →
  truthy (props (dummy σ) !! (c +:+ labelDescId)) = true →
  labelElements (dummy σ) !! (c +:+ k) = None →
  ∃ σ', describeElement_label c k inner LABEL σ = (Return (), σ')
        ∧ count_id (c +:+ labelTableId) (document σ')
          = count_id (c +:+ labelTableId) (document σ) + 1.
Proof.
  destruct σ as [[pr fe le] doc]. intros Hcoh HD Hp He.
  coh_destruct Hcoh.
  destruct (Hlpara Hp) as [Hc Hpl].
  unfold describeElement_label. erun.
  rewrite (bool_decide_eq_true_2 _ eq_refl).
  rewrite bool_decide_eq_true_2 by done. erun.
  unfold _descElementLabelHTML, querySelector_edit, querySelector_found,
    theDOM. erun.
  edit_found E1; [done|]. erun.
  step_label_ins E1 Hleafy Hapart.
  edit_found E2; [by apply Hnew; apply has_id_node_own|]. erun.
  step_label_append E2 Hl Ha.
  edit_found E3; [by apply Hnew0; apply has_id_node_own|]. erun.
  step_innerHTML E3 Hl0 Ha0.
  eexists. split; [done|]. cbn [document].
  rewrite (count_set_innerHTML c _ _ _ _ _ E3 Hl0) by leaf_id_solve.
  rewrite (count_appendChild _ _ _ _ _ E2).
  rewrite (count_insert _ _ _ _ _ (or_intror E1)).
  rewrite count_label_table.
  unfold tableRow. rewrite count_other_node by id_ne. lia.
Qed.

(** In the model, in the same setting, once the label paragraph is
    flagged, every call of [describeElement] with LABEL for an element
    that has no label row yet adds one more table with the id of the label
    table: the branch that inserts the table after the label paragraph
    does not look whether one is there. *)
Lemma describeElement_adds_label_table_from (c : string) (doc : list node)
    (cs : list call) (name s en t : string) :
  has_id c doc = true → leafy c doc = true → apart c doc = true →
  forallb (on_surface c) cs = true →
  let σ := run cs (initial doc) in
  truthy (props (dummy σ) !! (c +:+ labelDescId)) = true →
  labelElements (dummy σ) !! (c +:+ _nameForID name) = None →
  _elementName name = Return en → _descriptionText s = Return t →
  count_id (c +:+ labelTableId)
    (document (after (DescribeElement c (JString name) (JString s) LABEL) σ))
  = count_id (c +:+ labelTableId) (document σ) + 1.
Proof.
  intros H1 H2 H3 Hcs σ Hp He Hn Hs.
  pose proof (coherent_run c doc cs H1 H2 H3 Hcs) as Hcoh. fold σ in Hcoh.
  unfold after. cbn [run_call]. rewrite describeElement_body, Hs, Hn.
  cbv zeta. set (k := _nameForID name) in *.
  set (inner := row_markup en t).
  pose proof (row_markup_nonempty en t) as Hin. fold inner in Hin.
  destruct (coherent_populate_rows_if_needed c k σ Hcoh) as [H0 HD0].
  destruct (populate_rows_if_needed_same c k σ) as (Hdoc & _ & Hpr).
  set (σ0 := populate_rows_if_needed c k σ) in *.
  pose proof (keeps_describeElement_fallback c (label_region_of c σ0) k
                inner σ0 (conj (coh_apart c _ H0) eq_refl)) as [_ Hreg].
  destruct (coherent_describeElement_fallback c k inner _ H0 HD0 Hin)
    as (σ1 & E & Hcoh1 & HD1 & _).
  rewrite E in Hreg |- *. cbn [snd] in Hreg.
  assert (label_id c (c +:+ labelTableId) = true) as Hx
    by (by rewrite label_id_append).
  assert (labelElements (dummy σ0) = labelElements (dummy σ)) as Hle.
  { unfold σ0, populate_rows_if_needed. by destruct (negb _ || negb _). }
  destruct (label_adds_table c k inner σ1 Hcoh1 HD1) as (σ2 & -> & Hcount).
  { apply (f_equal hasLabelParagraph) in Hreg.
    cbn [label_region_of hasLabelParagraph] in Hreg. rewrite Hreg.
    by rewrite Hpr by id_ne. }
  { apply (f_equal labelRows) in Hreg.
    cbn [label_region_of labelRows] in Hreg. by rewrite Hreg, Hle. }
  cbn [snd]. rewrite Hcount.
  by rewrite (label_region_count c _ _ _ Hx Hreg), Hdoc.
Qed.

Lemma count_label_container (c : string) :
  count_id_node (c +:+ labelContainer)
    (label_container c (p_node (c +:+ labelDescId))) = 1.
Proof.
  unfold label_container, p_node.
  rewrite count_id_node_unfold, count_id_cons, count_id_node_unfold.
  rewrite bool_decide_eq_true_2 by done.
  by rewrite bool_decide_eq_false_2 by (intros [= H]; revert H; id_ne).
Qed.

(** With no label container flagged, the visible-label part of [describe]
    adds one after the canvas. *)
Lemma label_adds_container (c t : string) (σ : state) :
  coherent c σ → props (dummy σ) !! (c +:+ "DOM") = Some VBody →
  truthy (props (dummy σ) !! (c +:+ labelContainer)) = false →
  props (dummy σ) !! (c +:+ "labelDesc") ≠ Some (VString t) →
  ∃ σ', describe_label c t LABEL σ = (Return (), σ')
        ∧ count_id (c +:+ labelContainer) (document σ')
          = count_id (c +:+ labelContainer) (document σ) + 1.
Proof.
  destruct σ as [[pr fe le] doc]. intros Hcoh HD Hc Hd.
  coh_destruct Hcoh.
  destruct (truthy (pr !! (c +:+ labelDescId))) eqn:Hp.
  { destruct (Hlpara eq_refl) as [? _]. congruence. }
  unfold describe_label. mrun.
  rewrite (bool_decide_eq_true_2 _ eq_refl).
  rewrite (bool_decide_eq_true_2 _ Hd). mrun.
  unfold _describeLabelHTML, querySelector_edit, theDOM. mrun.
  edit_found E1; [done|]. mrun.
  step_label_ins E1 Hleafy Hapart.
  edit_found E2.
  { apply Hnew. unfold label_container.
    rewrite has_id_node_unfold, has_id_p_node. by rewrite orb_true_r. }
  mrun. step_innerHTML E2 Hl Ha.
  eexists. split; [done|]. cbn [document].
  rewrite (count_set_innerHTML c _ _ _ _ _ E2 Hl) by leaf_id_solve.
  rewrite (count_insert _ _ _ _ _ (or_intror E1)).
  by rewrite count_label_container.
Qed.

(** In the model, [_clearDummy] forgets the visible-label region but
    leaves it in the document.  On one canvas, in a document where its two
    regions are apart and its paragraphs and rows have no children, after
    any sequence of resets and calls on that canvas: a reset followed by
    [describe] with LABEL adds one more element with the id of the label
    container, beside those that are there. *)
Lemma reset_leaves_label_region_from (c : string) (doc : list node)
    (cs : list call) (s t : string) :
  has_id c doc = true → leafy c doc = true → apart c doc = true →
  forallb (on_surface c) cs = true →
  _descriptionText s = Return t →
  let σ := run cs (initial doc) in
  count_id (c +:+ labelContainer)
    (document (run [ClearDummy; Describe c (JString s) LABEL] σ))
  = count_id (c +:+ labelContainer) (document σ) + 1.
Proof.
  intros H1 H2 H3 Hcs Hs σ.
  pose proof (coherent_run c doc cs H1 H2 H3 Hcs) as Hcoh. fold σ in Hcoh.
  destruct (coherent_call c ClearDummy σ eq_refl Hcoh) as [Hr _].
  unfold run. cbn [foldl]. unfold after at 1. cbn [run_call].
  rewrite describe_body, Hs.
  pose proof (descriptionText_nonempty _ _ Hs) as Ht.
  set (σr := after ClearDummy σ) in *.
  destruct (coherent_populate_if_needed c σr Hr) as [H0 HD0].
  set (σ0 := populate_if_needed c σr) in *.
  pose proof (keeps_describe_fallback c (label_region_of c σ0) t σ0
                (conj (coh_apart c _ H0) eq_refl)) as [_ Hreg].
  destruct (coherent_describe_fallback c t _ H0 HD0 Ht)
    as (σ1 & E & Hcoh1 & HD1 & _).
  rewrite E in Hreg |- *. cbn [snd] in Hreg.
  assert (label_id c (c +:+ labelContainer) = true) as Hx
    by (by rewrite label_id_append).
  assert (∀ k, k ≠ c +:+ "DOM" → props (dummy σ0) !! k = None) as Hnone.
  { intros k Hk. unfold σ0. by rewrite populate_if_needed_props. }
  destruct (label_adds_container c t σ1 Hcoh1 HD1) as (σ2 & -> & Hcount).
  { apply (f_equal hasLabelContainer) in Hreg.
    cbn [label_region_of hasLabelContainer] in Hreg. rewrite Hreg.
    by rewrite Hnone by id_ne. }
  { apply (f_equal labelText) in Hreg.
    cbn [label_region_of labelText] in Hreg. rewrite Hreg.
    by rewrite Hnone by id_ne. }
  cbn [snd]. rewrite Hcount.
  rewrite (label_region_count c _ _ _ Hx Hreg).
  unfold σ0. by rewrite populate_if_needed_document.
Qed.

(** ** Instances *)

Lemma key_not_field_witness :
  "fallback" +:+ "DOM" ≠ "fallbackElements"
  ∧ "fallback" +:+ "DOM" ≠ "labelElements".
Proof.
  apply (key_not_field "fallback" "DOM"). unfold prop_suffixes. set_solver.
Defined.

(** ** The inputs the model speaks for *)

(** No key the source reads or writes in [dummy] itself is a property
    every object inherits. *)
Lemma prop_key_not_inherited (c s : string) :
  s ∈ prop_suffixes → inherited (c +:+ s) = false.
Proof.
  intros Hs. apply not_true_is_false.
  intros (n & Hn & Heq%String.eqb_eq)%existsb_exists.
  change n with ("" +:+ n) in Heq. revert Heq.
  apply append_ne_suffix.
  unfold prop_suffixes in Hs. unfold inherited_names in Hn.
  cbn [In] in Hn.
  repeat (apply elem_of_cons in Hs as [-> | Hs]);
    [..|by apply elem_of_nil in Hs];
    repeat (destruct Hn as [<- | Hn]; [reflexivity|]); destruct Hn.
Qed.

Lemma append_eq_split (a b x y : string) :
  a +:+ x = b +:+ y →
  (∃ r, b = a +:+ r ∧ x = r +:+ y) ∨ (∃ r, a = b +:+ r ∧ y = r +:+ x).
Proof.
  revert b. induction a as [|u a IH]; intros b H; simpl in H.
  - left. by exists b.
  - destruct b as [|v b]; simpl in H.
    + right. by exists (String u a).
    + injection H as -> H.
      destruct (IH b H) as [(r & -> & ->) | (r & -> & ->)];
        [left | right]; by exists r.
Qed.

Lemma ids_collide_app (a r y : string) :
  r ≠ "" → (r +:+ y = "" ∨ startsWith (r +:+ y) "_" = true) →
  startsWith (a +:+ r) (a +:+ "_") = true.
Proof.
  intros Hr H. rewrite startsWith_append.
  destruct r as [|u r]; [done|].
  destruct H as [H | H]; [done|]. simpl in H |- *.
  apply andb_true_iff in H as [H _]. rewrite H. by destruct r.
Qed.

(** The ids the source derives for a surface are the id of its canvas and
    that id followed by a suffix that starts with an underscore.  On two
    surfaces whose ids do not collide they are different ids. *)
Lemma ids_of_surfaces_differ (a b x y : string) :
  a ≠ b → ids_collide a b = false →
  (x = "" ∨ startsWith x "_" = true) → (y = "" ∨ startsWith y "_" = true) →
  a +:+ x ≠ b +:+ y.
Proof.
  intros Hab [H1 H2]%orb_false_iff Hx Hy Heq.
  apply append_eq_split in Heq as [(r & -> & ->) | (r & -> & ->)].
  - rewrite (ids_collide_app a r y) in H1; [done| |done].
    intros ->. by rewrite append_nil_r in Hab.
  - rewrite (ids_collide_app b r x) in H2; [done| |done].
    intros ->. by rewrite append_nil_r in Hab.
Qed.

Lemma one_canvas_app (c : string) (ids : list string) (cs ks : list call) :
  one_canvas c ids (cs ++ ks) = true →
  has_id c (page ids) = true ∧ leafy c (page ids) = true
  ∧ apart c (page ids) = true
  ∧ forallb (on_surface c) cs = true ∧ forallb (on_surface c) ks = true.
Proof.
  unfold one_canvas. rewrite forallb_app.
  intros [[H1 _]%andb_true_iff [H2 H3]%andb_true_iff]%andb_true_iff.
  split_and!; [done | apply leafy_page | apply apart_page | done | done].
Qed.

Lemma one_canvas_inv (c : string) (ids : list string) (cs : list call) :
  one_canvas c ids cs = true →
  has_id c (page ids) = true ∧ leafy c (page ids) = true
  ∧ apart c (page ids) = true ∧ forallb (on_surface c) cs = true.
Proof.
  intros H. rewrite <- (app_nil_r cs) in H.
  apply one_canvas_app in H as (?&?&?&?&_). done.
Qed.

(** ** What is published *)































(** ** Ids of one surface that are ids of another *)

(** C5: a call without [LABEL] can destroy a visible label.  Two canvases,
    ['sketch'] and ['sketch_Label']; the first is described with [LABEL],
    and its label paragraph shows the description.  [describe] is then
    called on the second canvas with the display mode omitted.  It looks
    for its canvas with the selector ['#sketch_Label'], which is also the
    id the source gave the label container of the first canvas; that
    container comes first in the document, so the call writes its
    accessible-only region into it.  The call returns; the store of the
    first surface is as it was and still holds the label text; the label
    paragraph of the first surface is no longer in the document. *)
Theorem label_region_overwritten_without_label :
  let σ0 := after (Describe "sketch" (JString "a") LABEL)
              (initial canvas_named_as_label) in
  let k := Describe "sketch_Label" (JString "u") JUndefined in
  let σ1 := after k σ0 in
  labelText (label_region_of "sketch" σ0) = Some (VString "a.")
  ∧ html_at ("sketch" +:+ labelDescId) (document σ0) = Some "a."
  ∧ (run_call k σ0).1 = Return ()
  ∧ same_label_store "sketch" σ0 σ1
  ∧ has_id ("sketch" +:+ labelDescId) (document σ1) = false
  ∧ labelNodes (label_region_of "sketch" σ1)
    ≠ labelNodes (label_region_of "sketch" σ0)
  ∧ find_first ("sketch" +:+ labelContainer) (document σ1)
    = Some (label_container "sketch"
              (fallback_container "sketch_Label"
                 (Node "p" (Some "sketch_Label_fallbackDesc") [] "u." []))).
Proof.
  cbv zeta. split_and!; try (vm_compute; reflexivity).
  - unfold same_label_store. split_and!; vm_compute; reflexivity.
  - vm_compute. discriminate.
Qed.

(** ** The calls on the inputs the model speaks for *)

(** X22: a call without [LABEL] leaves the visible label of its own
    surface alone.  On a page of canvases, after calls on a canvas
    and on canvases with unrelated ids, all on inputs the model speaks
    for: [describe] and [describeElement] on that canvas with a display
    mode other than [LABEL] leave all the module keeps for its
    visible-label region as it is, the label text, the flags, the rows and
    the nodes in the document. *)
Theorem other_mode_keeps_own_label_region (c : string) (ids : list string)
    (cs : list call) (name text display : jsval) :
  well_formed ids
    (cs ++ [Describe c text display; DescribeElement c name text display])
  = true →
  forallb (on_surface_or_unrelated c) cs = true →
  display ≠ LABEL →
  let σ := run cs (initial (page ids)) in
  label_region_of c (after (Describe c text display) σ)
  = label_region_of c σ
  ∧ label_region_of c (after (DescribeElement c name text display) σ)
    = label_region_of c σ.
Proof.
  intros _ Hcs Hd σ.
  destruct (other_mode_keeps_label_region c name text display σ Hd)
    as (_ & _ & H).
  apply H. apply laid_apart_run; [apply apart_page | done].
Qed.

Lemma other_mode_keeps_own_label_region_witness :
  let σ := run [Describe "c" (JString "a heart") LABEL;
                DescribeElement "d" (JString "Star") (JString "gold") LABEL;
                DescribeElement "c" (JString "Heart") (JString "red") LABEL]
               (initial (page ["c"; "d"])) in
  label_region_of "c" (after (Describe "c" (JString "a circle") FALLBACK) σ)
  = label_region_of "c" σ
  ∧ label_region_of "c"
      (after (DescribeElement "c" (JString "Heart") (JString "a circle")
                FALLBACK) σ)
    = label_region_of "c" σ.
Proof.
  cbv zeta.
  apply (other_mode_keeps_own_label_region "c" ["c"; "d"]
           [Describe "c" (JString "a heart") LABEL;
            DescribeElement "d" (JString "Star") (JString "gold") LABEL;
            DescribeElement "c" (JString "Heart") (JString "red") LABEL]
           (JString "Heart") (JString "a circle") FALLBACK);
    [reflexivity | reflexivity | discriminate].
Defined.

(** X8: on a page of canvases, every sequence of resets and of calls on a
    canvas or on canvases with unrelated ids, on inputs the model speaks
    for, leads to a document in which the two regions of the canvas are
    apart: no node of the visible-label region lies inside the canvas or
    the accessible-only region, or the other way round. *)
Theorem regions_stay_apart (c : string) (ids : list string)
    (cs : list call) :
  well_formed ids cs = true →
  forallb (on_surface_or_unrelated c) cs = true →
  apart c (document (run cs (initial (page ids)))) = true.
Proof. intros _ Hcs. apply laid_apart_run; [apply apart_page | done]. Qed.

Lemma regions_stay_apart_witness :
  apart "c"
    (document
       (run [Describe "c" (JString "a circle") LABEL;
             DescribeElement "d" (JString "Heart") (JString "red") LABEL;
             ClearDummy;
             DescribeElement "c" (JString "Star") (JString "gold") LABEL]
            (initial (page ["c"; "d"]))))
  = true.
Proof. apply regions_stay_apart; reflexivity. Defined.

(** X6: publishing a description twice in a row.  On a page of canvases,
    after any calls, on inputs the model speaks for: whether the first
    call returns or throws, the second call leaves the store and the
    document as the first left them. *)
Theorem describe_repeated (ids : list string) (cs : list call)
    (c : string) (text display : jsval) :
  well_formed ids (cs ++ [Describe c text display]) = true →
  let σ := run cs (initial (page ids)) in
  after (Describe c text display) (after (Describe c text display) σ)
  = after (Describe c text display) σ.
Proof. intros _ σ. apply describe_twice. Qed.

Lemma describe_repeated_witness :
  let σ := run [DescribeElement "c" (JString "Heart") (JString "red") LABEL]
               (initial (page ["c"])) in
  after (Describe "c" (JString "a circle") LABEL)
    (after (Describe "c" (JString "a circle") LABEL) σ)
  = after (Describe "c" (JString "a circle") LABEL) σ.
Proof.
  cbv zeta.
  apply (describe_repeated ["c"]
           [DescribeElement "c" (JString "Heart") (JString "red") LABEL]
           "c" (JString "a circle") LABEL).
  reflexivity.
Defined.

(** X7: publishing an element description twice in a row.  On a page of
    canvases, after any calls, on inputs the model speaks for: when the
    first call returns, the second call returns too and leaves the store
    and the document as the first left them. *)
Theorem describeElement_repeated (ids : list string) (cs : list call)
    (c : string) (name text display : jsval) (σ' : state) :
  well_formed ids (cs ++ [DescribeElement c name text display]) = true →
  describeElement c name text display (run cs (initial (page ids)))
  = (Return (), σ') →
  describeElement c name text display σ' = (Return (), σ').
Proof. intros _. apply describeElement_twice. Qed.

Lemma describeElement_repeated_witness :
  let σ' := run [Describe "c" (JString "a circle") JUndefined;
                 DescribeElement "c" (JString "Heart") (JString "red")
                   LABEL] (initial (page ["c"])) in
  describeElement "c" (JString "Heart") (JString "red") LABEL σ'
  = (Return (), σ').
Proof.
  cbv zeta.
  apply (describeElement_repeated ["c"]
           [Describe "c" (JString "a circle") JUndefined]
           "c" (JString "Heart") (JString "red") LABEL).
  - reflexivity.
  - vm_compute. reflexivity.
Defined.

(** X5: how [describe] fails.  On a page of canvases, after any calls, on
    inputs the model speaks for, it fails in three ways only.  With a
    reserved text it throws the error of the description and nothing has
    changed.  Otherwise it throws a TypeError, either from its
    accessible-only part, and then nothing has changed but the [body]
    element it may have fetched, or from its visible-label part, and then
    the state is the one its accessible-only part had reached: each part
    either does all of its work or none. *)
Theorem describe_fails_cleanly (ids : list string) (cs : list call)
    (c : string) (text display : jsval) (e : error) (σ' : state) :
  well_formed ids (cs ++ [Describe c text display]) = true →
  let σ := run cs (initial (page ids)) in
  describe c text display σ = (Throw e, σ') →
  (e = Error "description should not be LABEL or FALLBACK" ∧ σ' = σ)
  ∨ (e = TypeError
     ∧ ∃ s t, text = JString s ∧ _descriptionText s = Return t
       ∧ (σ' = populate_if_needed c σ
          ∨ (display = LABEL
             ∧ describe_fallback c t (populate_if_needed c σ)
               = (Return (), σ')))).
Proof. intros _ σ. apply describe_throw_cases. Qed.

Lemma describe_fails_cleanly_witness :
  let σ := run [Describe "c" (JString "a circle") LABEL]
               (initial (page ["c"])) in
  (Error "description should not be LABEL or FALLBACK"
   = Error "description should not be LABEL or FALLBACK" ∧ σ = σ)
  ∨ (Error "description should not be LABEL or FALLBACK" = TypeError
     ∧ ∃ s t, JString "fallback" = JString s ∧ _descriptionText s = Return t
       ∧ (σ = populate_if_needed "c" σ
          ∨ (LABEL = LABEL
             ∧ describe_fallback "c" t (populate_if_needed "c" σ)
               = (Return (), σ)))).
Proof.
  cbv zeta.
  apply (describe_fails_cleanly ["c"] [Describe "c" (JString "a circle") LABEL]
           "c" (JString "fallback") LABEL);
    reflexivity.
Defined.

(** X15: how [describeElement] fails.  On a page of canvases, after any
    calls, on inputs the model speaks for: with a reserved text or name it
    throws the error of that word and nothing has changed.  Otherwise it
    throws a TypeError from one of its two parts, and the document is as
    that part found it; but the part may have written already: when the
    row of the element was there to be updated, its new content is stored
    before the row is looked up in the document, so the store is left
    ahead of the document. *)
Theorem describeElement_fails_halfway (ids : list string) (cs : list call)
    (c name s : string) (display : jsval) (e : error) (σ' : state) :
  well_formed ids
    (cs ++ [DescribeElement c (JString name) (JString s) display]) = true →
  let σ := run cs (initial (page ids)) in
  describeElement c (JString name) (JString s) display σ = (Throw e, σ') →
  (ReservedNameError e ∧ σ' = σ)
  ∨ (e = TypeError
     ∧ ∃ en t, _elementName name = Return en ∧ _descriptionText s = Return t
       ∧ let k := _nameForID name in
         let inner := row_markup en t in
         let σ0 := populate_rows_if_needed c k σ in
         σ' = σ0
         ∨ (truthy_row (fallbackElements (dummy σ0) !! (c +:+ k)) = true
            ∧ σ' = (setFallbackElement (c +:+ k) inner σ0).2)
         ∨ (display = LABEL
            ∧ ∃ σ1, describeElement_fallback c k inner σ0 = (Return (), σ1)
              ∧ (σ' = σ1
                 ∨ (truthy_row (labelElements (dummy σ1) !! (c +:+ k)) = true
                    ∧ σ' = (setLabelElement (c +:+ k) inner σ1).2)))).
Proof. intros _ σ. apply describeElement_throw_cases. Qed.

Lemma describeElement_fails_halfway_witness :
  let σ := run [element_on_canvas10]
               (initial (page ["defaultCanvas1"; "defaultCanvas10"])) in
  let σ' := after element_on_canvas1 σ in
  (ReservedNameError TypeError ∧ σ' = σ)
  ∨ (TypeError = TypeError
     ∧ ∃ en t, _elementName "0x" = Return en ∧ _descriptionText "u" = Return t
       ∧ let k := _nameForID "0x" in
         let inner := row_markup en t in
         let σ0 := populate_rows_if_needed "defaultCanvas1" k σ in
         σ' = σ0
         ∨ (truthy_row (fallbackElements (dummy σ0)
                          !! ("defaultCanvas1" +:+ k)) = true
            ∧ σ' = (setFallbackElement ("defaultCanvas1" +:+ k) inner σ0).2)
         ∨ (LABEL = LABEL
            ∧ ∃ σ1, describeElement_fallback "defaultCanvas1" k inner σ0
                    = (Return (), σ1)
              ∧ (σ' = σ1
                 ∨ (truthy_row (labelElements (dummy σ1)
                                  !! ("defaultCanvas1" +:+ k)) = true
                    ∧ σ' = (setLabelElement ("defaultCanvas1" +:+ k) inner
                              σ1).2)))).
Proof.
  cbv zeta.
  apply (describeElement_fails_halfway ["defaultCanvas1"; "defaultCanvas10"]
           [element_on_canvas10] "defaultCanvas1" "0x" "u" LABEL TypeError).
  - reflexivity.
  - vm_compute. reflexivity.
Defined.

(** X11: one canvas of a page, and calls and resets on that canvas, on
    inputs the model speaks for.  After any such sequence, [describe] with
    a text that is not reserved returns; the store then holds the
    normalised text and the first paragraph of the accessible-only region
    shows it, and with LABEL the same holds of the visible-label region. *)
Theorem describe_publishes (c : string) (ids : list string)
    (cs : list call) (s t : string) (display : jsval) :
  one_canvas c ids (cs ++ [Describe c (JString s) display]) = true →
  _descriptionText s = Return t →
  ∃ σ', describe c (JString s) display (run cs (initial (page ids)))
        = (Return (), σ')
        ∧ props (dummy σ') !! (c +:+ "fallbackDesc") = Some (VString t)
        ∧ html_at (c +:+ fallbackDescId) (document σ') = Some t
        ∧ (display = LABEL →
           props (dummy σ') !! (c +:+ "labelDesc") = Some (VString t)
           ∧ html_at (c +:+ labelDescId) (document σ') = Some t).
Proof.
  intros (Hc & Hl & Ha & Hcs & _)%one_canvas_app Ht.
  by apply describe_publishes_from.
Qed.

Lemma describe_publishes_witness :
  ∃ σ', describe "c" (JString "a heart") LABEL
          (run [DescribeElement "c" (JString "Heart") (JString "red") LABEL;
                Describe "c" (JString "a circle") JUndefined;
                ClearDummy;
                DescribeElement "c" (JString "Star") (JString "gold") LABEL]
               (initial (page ["b"; "c"])))
        = (Return (), σ')
        ∧ props (dummy σ') !! ("c" +:+ "fallbackDesc")
          = Some (VString "a heart.")
        ∧ html_at ("c" +:+ fallbackDescId) (document σ') = Some "a heart."
        ∧ (LABEL = LABEL →
           props (dummy σ') !! ("c" +:+ "labelDesc")
           = Some (VString "a heart.")
           ∧ html_at ("c" +:+ labelDescId) (document σ') = Some "a heart.").
Proof.
  apply (describe_publishes "c" ["b"; "c"]); reflexivity.
Defined.

(** X12: the same for [describeElement]: with a name and a text that are
    not reserved it returns; the store then holds the row under the key of
    the name, and the first row with the id of that key shows it, in the
    accessible-only region and, with LABEL, in the visible-label region. *)
Theorem describeElement_publishes (c : string) (ids : list string)
    (cs : list call) (name s en t : string) (display : jsval) :
  one_canvas c ids
    (cs ++ [DescribeElement c (JString name) (JString s) display]) = true →
  _elementName name = Return en → _descriptionText s = Return t →
  ∃ σ', describeElement c (JString name) (JString s) display
          (run cs (initial (page ids)))
        = (Return (), σ')
        ∧ fallbackElements (dummy σ') !! (c +:+ _nameForID name)
          = Some (row_markup en t)
        ∧ html_at (c +:+ fallbackTableElId +:+ _nameForID name) (document σ')
          = Some (row_markup en t)
        ∧ (display = LABEL →
           labelElements (dummy σ') !! (c +:+ _nameForID name)
           = Some (row_markup en t)
           ∧ html_at (c +:+ labelTableElId +:+ _nameForID name)
               (document σ')
             = Some (row_markup en t)).
Proof.
  intros (Hc & Hl & Ha & Hcs & _)%one_canvas_app He Ht.
  by apply describeElement_publishes_from.
Qed.

Lemma describeElement_publishes_witness :
  ∃ σ', describeElement "c" (JString "Heart.") (JString "red") LABEL
          (run [Describe "c" (JString "a circle") LABEL;
                DescribeElement "c" (JString "Heart") (JString "blue")
                  JUndefined;
                Describe "c" (JString "a square") JUndefined]
               (initial (page ["c"; "d"])))
        = (Return (), σ')
        ∧ fallbackElements (dummy σ') !! ("c" +:+ _nameForID "Heart.")
          = Some (row_markup "Heart:" "red.")
        ∧ html_at ("c" +:+ fallbackTableElId +:+ _nameForID "Heart.")
            (document σ')
          = Some (row_markup "Heart:" "red.")
        ∧ (LABEL = LABEL →
           labelElements (dummy σ') !! ("c" +:+ _nameForID "Heart.")
           = Some (row_markup "Heart:" "red.")
           ∧ html_at ("c" +:+ labelTableElId +:+ _nameForID "Heart.")
               (document σ')
             = Some (row_markup "Heart:" "red.")).
Proof.
  apply (describeElement_publishes "c" ["c"; "d"]); reflexivity.
Defined.

(** X13: one canvas of a page, and calls and resets on that canvas, on
    inputs the model speaks for.  A call fails only by refusing a reserved
    word: after any such sequence, a call that throws throws one of the
    two reserved-word errors and leaves the store and the document as they
    were.  No selector comes back empty, so no TypeError is thrown. *)
Theorem call_fails_only_by_refusal (c : string) (ids : list string)
    (cs : list call) (k : call) (e : error) (σ' : state) :
  one_canvas c ids (cs ++ [k]) = true →
  run_call k (run cs (initial (page ids))) = (Throw e, σ') →
  ReservedNameError e ∧ σ' = run cs (initial (page ids)).
Proof.
  intros (Hc & Hl & Ha & Hcs & Hk)%one_canvas_app.
  cbn [forallb] in Hk. rewrite andb_true_r in Hk.
  by apply (call_fails_only_by_refusal_from c).
Qed.

Lemma call_fails_only_by_refusal_witness :
  let cs := [Describe "c" (JString "a circle") LABEL;
             DescribeElement "c" (JString "Heart") (JString "blue") LABEL] in
  ReservedNameError (Error "element name should not be LABEL or FALLBACK")
  ∧ run cs (initial (page ["c"])) = run cs (initial (page ["c"])).
Proof.
  cbv zeta.
  apply (call_fails_only_by_refusal "c" ["c"]
           [Describe "c" (JString "a circle") LABEL;
            DescribeElement "c" (JString "Heart") (JString "blue") LABEL]
           (DescribeElement "c" (JString "fallback") (JString "red") LABEL));
    reflexivity.
Defined.

(** X14: one canvas of a page, and calls and resets on that canvas, on
    inputs the model speaks for.  The store and the document agree after
    every such sequence, the calls that threw included: a stored
    description is what the first paragraph of its region shows, and a
    stored row is what the first row with the id of its key shows. *)
Theorem store_is_shown (c : string) (ids : list string) (cs : list call) :
  one_canvas c ids cs = true →
  let σ := run cs (initial (page ids)) in
  (∀ t, props (dummy σ) !! (c +:+ "fallbackDesc") = Some (VString t) →
        html_at (c +:+ fallbackDescId) (document σ) = Some t)
  ∧ (∀ t, props (dummy σ) !! (c +:+ "labelDesc") = Some (VString t) →
          html_at (c +:+ labelDescId) (document σ) = Some t)
  ∧ (∀ k inner, fallbackElements (dummy σ) !! (c +:+ k) = Some inner →
                html_at (c +:+ fallbackTableElId +:+ k) (document σ)
                = Some inner)
  ∧ (∀ k inner, labelElements (dummy σ) !! (c +:+ k) = Some inner →
                html_at (c +:+ labelTableElId +:+ k) (document σ)
                = Some inner).
Proof.
  intros (Hc & Hl & Ha & Hcs)%one_canvas_inv.
  by apply store_is_shown_from.
Qed.

Lemma store_is_shown_witness :
  let σ := run [Describe "c" (JString "a circle") LABEL;
                DescribeElement "c" (JString "Heart") (JString "blue") LABEL;
                Describe "c" (JString "label") LABEL;
                Describe "c" (JString "a square") JUndefined]
               (initial (page ["c"])) in
  props (dummy σ) !! ("c" +:+ "fallbackDesc") = Some (VString "a square.")
  ∧ html_at ("c" +:+ fallbackDescId) (document σ) = Some "a square."
  ∧ props (dummy σ) !! ("c" +:+ "labelDesc") = Some (VString "a circle.")
  ∧ html_at ("c" +:+ labelDescId) (document σ) = Some "a circle.".
Proof.
  cbv zeta.
  destruct (store_is_shown "c" ["c"]
              [Describe "c" (JString "a circle") LABEL;
               DescribeElement "c" (JString "Heart") (JString "blue") LABEL;
               Describe "c" (JString "label") LABEL;
               Describe "c" (JString "a square") JUndefined])
    as (Hf & Hl & _); [reflexivity|].
  cbv zeta in Hf, Hl.
  assert (props (dummy (run [Describe "c" (JString "a circle") LABEL;
               DescribeElement "c" (JString "Heart") (JString "blue") LABEL;
               Describe "c" (JString "label") LABEL;
               Describe "c" (JString "a square") JUndefined]
               (initial (page ["c"])))) !! ("c" +:+ "fallbackDesc")
          = Some (VString "a square.")) as H1 by (vm_compute; reflexivity).
  assert (props (dummy (run [Describe "c" (JString "a circle") LABEL;
               DescribeElement "c" (JString "Heart") (JString "blue") LABEL;
               Describe "c" (JString "label") LABEL;
               Describe "c" (JString "a square") JUndefined]
               (initial (page ["c"])))) !! ("c" +:+ "labelDesc")
          = Some (VString "a circle.")) as H2 by (vm_compute; reflexivity).
  split_and!; [exact H1 | exact (Hf _ H1) | exact H2 | exact (Hl _ H2)].
Defined.

(** X16: one canvas of a page, and calls and resets on that canvas, on
    inputs the model speaks for.  Once the table of the accessible-only
    region is flagged, every call of [describe] whose text differs from
    the stored one adds one more paragraph with the id of the first: the
    branch that inserts the paragraph before the table does not look
    whether one is there. *)
Theorem describe_adds_paragraph (c : string) (ids : list string)
    (cs : list call) (s t : string) (display : jsval) :
  one_canvas c ids (cs ++ [Describe c (JString s) display]) = true →
  let σ := run cs (initial (page ids)) in
  truthy (props (dummy σ) !! (c +:+ fallbackTableId)) = true →
  _descriptionText s = Return t →
  props (dummy σ) !! (c +:+ "fallbackDesc") ≠ Some (VString t) →
  count_id (c +:+ fallbackDescId)
    (document (after (Describe c (JString s) display) σ))
  = count_id (c +:+ fallbackDescId) (document σ) + 1.
Proof.
  intros (Hc & Hl & Ha & Hcs & _)%one_canvas_app.
  by apply describe_adds_paragraph_from.
Qed.

Lemma describe_adds_paragraph_witness :
  let σ := run [Describe "c" (JString "a") JUndefined;
                DescribeElement "c" (JString "x") (JString "y") JUndefined;
                Describe "c" (JString "b") JUndefined]
               (initial (page ["c"])) in
  count_id ("c" +:+ fallbackDescId)
    (document (after (Describe "c" (JString "d") LABEL) σ))
  = count_id ("c" +:+ fallbackDescId) (document σ) + 1.
Proof.
  cbv zeta.
  apply (describe_adds_paragraph "c" ["c"]
           [Describe "c" (JString "a") JUndefined;
            DescribeElement "c" (JString "x") (JString "y") JUndefined;
            Describe "c" (JString "b") JUndefined] "d" "d." LABEL);
    try reflexivity.
  vm_compute. discriminate.
Defined.

(** X17: in the same setting, once a description is stored, every call of
    [describeElement] for an element that has no row yet adds one more
    table with the id of the first: the branch that inserts the table
    after the paragraph does not look whether one is there.  The row goes
    into the new table. *)
Theorem describeElement_adds_table (c : string) (ids : list string)
    (cs : list call) (name s en t : string) (v : value) (display : jsval) :
  one_canvas c ids
    (cs ++ [DescribeElement c (JString name) (JString s) display]) = true →
  let σ := run cs (initial (page ids)) in
  props (dummy σ) !! (c +:+ "fallbackDesc") = Some v →
  fallbackElements (dummy σ) !! (c +:+ _nameForID name) = None →
  _elementName name = Return en → _descriptionText s = Return t →
  count_id (c +:+ fallbackTableId)
    (document (after (DescribeElement c (JString name) (JString s) display)
                 σ))
  = count_id (c +:+ fallbackTableId) (document σ) + 1.
Proof.
  intros (Hc & Hl & Ha & Hcs & _)%one_canvas_app σ Hv Hn He Ht.
  by apply (describeElement_adds_table_from c (page ids) cs name s en t v).
Qed.

Lemma describeElement_adds_table_witness :
  let σ := run [Describe "c" (JString "a") JUndefined;
                DescribeElement "c" (JString "x") (JString "y") JUndefined]
               (initial (page ["c"])) in
  count_id ("c" +:+ fallbackTableId)
    (document (after (DescribeElement "c" (JString "z") (JString "w") LABEL)
                 σ))
  = count_id ("c" +:+ fallbackTableId) (document σ) + 1.
Proof.
  cbv zeta.
  apply (describeElement_adds_table "c" ["c"]
           [Describe "c" (JString "a") JUndefined;
            DescribeElement "c" (JString "x") (JString "y") JUndefined]
           "z" "w" "z:" "w." (VString "a.") LABEL);
    reflexivity.
Defined.

(** X19: the paragraph of the visible-label region is guarded where the
    paragraph of the accessible-only region is not.  One canvas of a page,
    and calls and resets on that canvas, on inputs the model speaks for:
    once the label paragraph is flagged, no call of [describe], whatever
    its display, changes the number of elements with the id of the label
    paragraph. *)
Theorem label_paragraph_not_added_again (c : string) (ids : list string)
    (cs : list call) (text display : jsval) :
  one_canvas c ids (cs ++ [Describe c text display]) = true →
  let σ := run cs (initial (page ids)) in
  truthy (props (dummy σ) !! (c +:+ labelDescId)) = true →
  count_id (c +:+ labelDescId)
    (document (after (Describe c text display) σ))
  = count_id (c +:+ labelDescId) (document σ).
Proof.
  intros (Hc & Hl & Ha & Hcs & _)%one_canvas_app.
  by apply label_paragraph_not_added_again_from.
Qed.

Lemma label_paragraph_not_added_again_witness :
  let σ := run [Describe "c" (JString "a") LABEL;
                DescribeElement "c" (JString "x") (JString "y") LABEL]
               (initial (page ["c"])) in
  count_id ("c" +:+ labelDescId)
    (document (after (Describe "c" (JString "b") LABEL) σ))
  = count_id ("c" +:+ labelDescId) (document σ).
Proof.
  cbv zeta.
  apply (label_paragraph_not_added_again "c" ["c"]
           [Describe "c" (JString "a") LABEL;
            DescribeElement "c" (JString "x") (JString "y") LABEL]);
    reflexivity.
Defined.

(** X20: in the same setting, once the label paragraph is flagged, every
    call of [describeElement] with LABEL for an element that has no label
    row yet adds one more table with the id of the label table: the branch
    that inserts the table after the label paragraph does not look whether
    one is there. *)
Theorem describeElement_adds_label_table (c : string) (ids : list string)
    (cs : list call) (name s en t : string) :
  one_canvas c ids
    (cs ++ [DescribeElement c (JString name) (JString s) LABEL]) = true →
  let σ := run cs (initial (page ids)) in
  truthy (props (dummy σ) !! (c +:+ labelDescId)) = true →
  labelElements (dummy σ) !! (c +:+ _nameForID name) = None →
  _elementName name = Return en → _descriptionText s = Return t →
  count_id (c +:+ labelTableId)
    (document (after (DescribeElement c (JString name) (JString s) LABEL) σ))
  = count_id (c +:+ labelTableId) (document σ) + 1.
Proof.
  intros (Hc & Hl & Ha & Hcs & _)%one_canvas_app σ Hp Hn He Ht.
  by apply (describeElement_adds_label_table_from c (page ids) cs name s
              en t).
Qed.

Lemma describeElement_adds_label_table_witness :
  let σ := run [Describe "c" (JString "a") LABEL;
                DescribeElement "c" (JString "x") (JString "y") LABEL]
               (initial (page ["c"])) in
  count_id ("c" +:+ labelTableId)
    (document (after (DescribeElement "c" (JString "z") (JString "w") LABEL)
                 σ))
  = count_id ("c" +:+ labelTableId) (document σ) + 1.
Proof.
  cbv zeta.
  apply (describeElement_adds_label_table "c" ["c"]
           [Describe "c" (JString "a") LABEL;
            DescribeElement "c" (JString "x") (JString "y") LABEL]
           "z" "w" "z:" "w.");
    reflexivity.
Defined.

(** X21: [_clearDummy] forgets the visible-label region but leaves it in
    the document.  One canvas of a page, and calls and resets on that
    canvas, on inputs the model speaks for: a reset followed by [describe]
    with LABEL adds one more element with the id of the label container,
    beside those that are there. *)
Theorem reset_leaves_label_region (c : string) (ids : list string)
    (cs : list call) (s t : string) :
  one_canvas c ids (cs ++ [ClearDummy; Describe c (JString s) LABEL])
  = true →
  _descriptionText s = Return t →
  let σ := run cs (initial (page ids)) in
  count_id (c +:+ labelContainer)
    (document (run [ClearDummy; Describe c (JString s) LABEL] σ))
  = count_id (c +:+ labelContainer) (document σ) + 1.
Proof.
  intros (Hc & Hl & Ha & Hcs & _)%one_canvas_app Ht.
  by apply (reset_leaves_label_region_from c (page ids) cs s t).
Qed.

Lemma reset_leaves_label_region_witness :
  let σ := run [Describe "c" (JString "a") LABEL]
               (initial (page ["c"])) in
  count_id ("c" +:+ labelContainer)
    (document (run [ClearDummy; Describe "c" (JString "a") LABEL] σ))
  = count_id ("c" +:+ labelContainer) (document σ) + 1.
Proof.
  cbv zeta.
  apply (reset_leaves_label_region "c" ["c"]
           [Describe "c" (JString "a") LABEL] "a" "a.");
    reflexivity.
Defined.
